(** * better-auth-paths-generator: schema field finder, operation scanner
      and path grouper

    A shallow embedding of the core of [src/generate-types.ts] and
    [src/simple-generate-types.ts]: the recursive schema walker
    [findFieldsInSchema], the scanners [extractResponseFieldPaths] and
    [extractRequestFieldPaths], and the grouper [extractGroupPaths].

    The parsed OpenAPI document is an untyped JavaScript value ([any] at
    every access in the source), so the embedding works on JavaScript
    values: primitives, and references to objects and arrays living in a
    heap.  The heap lets a schema point back to itself, which is what a
    dereferenced document with recursive schemas looks like.

    Conventions.  A string is the sequence of its code units.  An object
    lists its properties in the order [for ... in] walks them.  Numbers are
    integers: the code only tests them for truthiness.  Members inherited
    from [Object.prototype] and [Array.prototype] are not modelled, so
    field, tag and path names are not supposed to be names such as
    [constructor] or [toString].  A [Record<string, ...>] that the code
    builds and returns is a finite map, a [Set<string>] is the list of its
    members in insertion order.  What [console.log] prints is a list of
    lines, returned next to the value. *)

From Equations Require Import Equations.
From Stdlib Require Import Ascii.
From stdpp Require Import gmap strings list fin_maps sorting pretty.

Open Scope string_scope.
Open Scope list_scope.
Open Scope nat_scope.

(** ** JavaScript values *)

Module JS.

Definition loc := nat.

(** Numbers only appear in truthiness tests; integers are enough. *)
Inductive value : Type :=
| VUndef
| VNull
| VBool (b : bool)
| VNum (n : Z)
| VStr (s : string)
| VRef (l : loc).

(** A plain object lists its own enumerable properties in [for ... in]
    order; an array lists its elements.  Members inherited from
    [Object.prototype] and [Array.prototype] are outside the model. *)
Inductive obj : Type :=
| ORec (fields : list (string * value))
| OArr (elems : list value).

Definition heap := loc -> obj.

#[global] Instance value_eq_dec : EqDecision value.
Proof. solve_decision. Defined.

(** [!!v] *)
Definition truthy (v : value) : bool :=
  match v with
  | VUndef | VNull => false
  | VBool b => b
  | VNum n => negb (n =? 0)%Z
  | VStr s => negb (String.eqb s "")
  | VRef _ => true
  end.

(** [typeof v === 'object'] ([typeof null] is ['object'] too). *)
Definition typeof_object (v : value) : bool :=
  match v with
  | VNull | VRef _ => true
  | _ => false
  end.

(** [v === undefined || v === null]: property access on such a value throws. *)
Definition nullish (v : value) : bool :=
  match v with
  | VUndef | VNull => true
  | _ => false
  end.

(** First binding of a key in a property list. *)
Fixpoint assoc (k : string) (fs : list (string * value)) : option value :=
  match fs with
  | [] => None
  | (k', v) :: fs' => if String.eqb k k' then Some v else assoc k fs'
  end.

(** Element of an array under the property key [k], counting from [i]. *)
Fixpoint arr_lookup (k : string) (i : nat) (vs : list value) : option value :=
  match vs with
  | [] => None
  | v :: vs' => if String.eqb k (pretty i) then Some v else arr_lookup k (S i) vs'
  end.

(** Character of a string under the property key [k], counting from [i]. *)
Fixpoint str_lookup (k : string) (i : nat) (s : string) : option value :=
  match s with
  | EmptyString => None
  | String c s' =>
      if String.eqb k (pretty i) then Some (VStr (String c EmptyString))
      else str_lookup k (S i) s'
  end.

(** Own property [k] of the value [v], if there is one. *)
Definition own (h : heap) (v : value) (k : string) : option value :=
  match v with
  | VRef l =>
      match h l with
      | ORec fs => assoc k fs
      | OArr vs =>
          if String.eqb k "length" then Some (VNum (Z.of_nat (length vs)))
          else arr_lookup k 0 vs
      end
  | VStr s =>
      if String.eqb k "length" then Some (VNum (Z.of_nat (String.length s)))
      else str_lookup k 0 s
  | _ => None
  end.

(** [v[k]] for a value [v] that is neither [undefined] nor [null]; every
    call site below that can reach a nullish receiver tests [nullish]
    first and throws. *)
Definition get (h : heap) (v : value) (k : string) : value :=
  default VUndef (own h v k).

(** [k in v], for an object [v]. *)
Definition has_key (h : heap) (v : value) (k : string) : bool :=
  bool_decide (is_Some (own h v k)).

(** [Array.isArray(v)] *)
Definition is_array (h : heap) (v : value) : bool :=
  match v with
  | VRef l => match h l with OArr _ => true | ORec _ => false end
  | _ => false
  end.

(** The elements walked by [for (const x of v)] when [v] is an array. *)
Definition elems_of (h : heap) (v : value) : list value :=
  match v with
  | VRef l => match h l with OArr vs => vs | ORec _ => [] end
  | _ => []
  end.

(** [Set.prototype.add] on a set kept in insertion order. *)
Definition set_add (x : string) (s : list string) : list string :=
  if decide (x ∈ s) then s else s ++ [x].

(** [[...new Set(xs)]]: first occurrences, in order. *)
Definition dedup (xs : list string) : list string :=
  fold_left (fun s x => set_add x s) xs [].

(** The keys walked by [for (const k in v)]. *)
Definition keys (h : heap) (v : value) : list string :=
  match v with
  | VRef l =>
      match h l with
      | ORec fs => dedup (map fst fs)
      | OArr vs => map pretty (seq 0 (length vs))
      end
  | VStr s => map pretty (seq 0 (String.length s))
  | _ => []
  end.

(** [v] is an object or an array (not [null], not a primitive). *)
Definition is_ref (v : value) : bool :=
  match v with
  | VRef _ => true
  | _ => false
  end.

(** A heap given by the list of its cells; any other address holds [{}]. *)
Definition mk_heap (cells : list obj) : heap :=
  fun l => nth l cells (ORec []).

End JS.

Import JS.

(** ** Exceptions

    A [TypeError] is the only exception the modelled code can raise: reading
    a property of [undefined] or [null], calling a method that is not there,
    iterating a value that is not iterable. *)

Inductive error : Type := TypeError.

Inductive result (A : Type) : Type :=
| Ok (a : A)
| Throw (e : error).
Arguments Ok {A} a.
Arguments Throw {A} e.

Definition rbind {A B} (m : result A) (k : A -> result B) : result B :=
  match m with
  | Ok a => k a
  | Throw e => Throw e
  end.

Notation "'let*' x := m 'in' k" := (rbind m (fun x => k))
  (at level 10, x name, m at level 100, k at level 200).

(** [try { body } catch (error) { handler }] *)
Definition try_catch {A} (body : result A) (handler : error -> result A)
  : result A :=
  match body with
  | Ok a => Ok a
  | Throw e => handler e
  end.

(** [v[k]], checked: throws when [v] is [undefined] or [null]. *)
Definition prop (h : heap) (v : value) (k : string) : result value :=
  if nullish v then Throw TypeError else Ok (get h v k).

(** Runs [body] on each element in turn, threading the state; stops at the
    first exception. *)
Fixpoint for_each {X S} (xs : list X) (body : X -> S -> result S) (st : S)
  : result S :=
  match xs with
  | [] => Ok st
  | x :: xs' => let* st' := body x st in for_each xs' body st'
  end.

(** [k in v], checked: throws when [v] is not an object. *)
Definition in_op (h : heap) (k : string) (v : value) : result bool :=
  match v with
  | VRef _ => Ok (has_key h v k)
  | _ => Throw TypeError
  end.

(** The values walked by [for (const x of v)]: array elements, or the
    characters of a string; anything else is not iterable. *)
Definition iterate (h : heap) (v : value) : result (list value) :=
  match v with
  | VRef l =>
      match h l with
      | OArr vs => Ok vs
      | ORec _ => Throw TypeError
      end
  | VStr s => Ok (map (fun c => VStr (String c EmptyString)) (String.list_ascii_of_string s))
  | _ => Throw TypeError
  end.

(** Runs [body] on each element in turn and concatenates what each run
    pushed onto [foundFields]; stops at the first exception. *)
Fixpoint for_collect {X} (xs : list X) (body : X -> result (list string))
  : result (list string) :=
  match xs with
  | [] => Ok []
  | x :: xs' =>
      let* pushed := body x in
      let* rest := for_collect xs' body in
      Ok (pushed ++ rest)
  end.

(** ** Constants of [src/generate-types.ts] *)

Definition DEFAULT_GROUP : string := "default".

Definition HTTP_METHODS : list string :=
  ["get"; "post"; "put"; "delete"; "patch"; "head"; "options"].

(** ** The console *)

Inductive location : Type := Request | Response.

(** What [findFieldsInSchema] may narrate for a "potential" field. *)
Inductive open_kind : Type :=
| DynamicObject | AdditionalProperties | Discriminator | FreeFormObject.

(** A line written to [console.log]: either by [logFieldDetection] or by one
    of the four inline "Potential field" messages.  The line is kept as the
    data it is rendered from. *)
Inductive log_line : Type :=
| Found (path method field : string) (loc : location) (nested : bool)
| Potential (kind : open_kind) (field method path : string) (loc : location).

(** The optional [context] argument of [findFieldsInSchema]. *)
Record context : Type := Context {
  ctx_path : option string;
  ctx_method : option string;
  ctx_location : option location
}.

Definition no_context : context := Context None None None.

(** [context.path && context.method && context.location], with the three
    values when the test passes.  An empty string is falsy. *)
Definition ctx_complete (c : context) : option (string * string * location) :=
  match ctx_path c, ctx_method c, ctx_location c with
  | Some p, Some m, Some l =>
      if negb (String.eqb p "") && negb (String.eqb m "") then Some (p, m, l)
      else None
  | _, _, _ => None
  end.

(** A computation that writes to the console: its value and the lines it
    printed, oldest first. *)
Definition Console (A : Type) : Type := A * list log_line.

Definition ret {A} (a : A) : Console A := (a, []).

Definition bind {A B} (m : Console A) (k : A -> Console B) : Console B :=
  let '(a, out1) := m in
  let '(b, out2) := k a in
  (b, out1 ++ out2).

Definition print (ls : list log_line) : Console unit := (tt, ls).

Notation "'do' x <- m ; k" := (bind m (fun x => k))
  (at level 10, x name, m at level 100, k at level 200).
Notation "'run' m ; k" := (bind m (fun _ => k))
  (at level 10, m at level 100, k at level 200).

(** Runs [body] on each element in turn and concatenates what each run
    pushed onto [foundFields]. *)
Fixpoint for_push {X} (xs : list X) (body : X -> Console (list string))
  : Console (list string) :=
  match xs with
  | [] => ret []
  | x :: xs' =>
      do pushed <- body x;
      do rest <- for_push xs' body;
      ret (pushed ++ rest)
  end.

(** [logFieldDetection(path, method, field, location, nested)] *)
Definition logFieldDetection (path method field : string) (loc : location)
  (nested : bool) : Console unit :=
  print [Found path method field loc nested].

(** [if (debug && context.path && context.method && context.location)
       for (const field of targetFields) console.log(...)] *)
Definition log_potential (debug : bool) (ctx : context) (kind : open_kind)
  (targetFields : list string) : Console unit :=
  if debug then
    match ctx_complete ctx with
    | Some (p, m, l) => print (map (fun f => Potential kind f m p l) targetFields)
    | None => ret tt
    end
  else ret tt.

(** ** What both finders push

    The blocks for [properties], [items], objects without [properties],
    [additionalProperties] and [allOf]/[oneOf]/[anyOf] are the same in both
    source files.  [structure_fields sub h schema targetFields] is what they
    push onto [foundFields], in order, given the list [sub s] that the
    recursive call on [s] returns. *)
Definition structure_fields (sub : value -> list string) (h : heap)
  (schema : value) (targetFields : list string) : list string :=
  let properties := get h schema "properties" in
  let additionalProperties := get h schema "additionalProperties" in
  (if truthy properties && typeof_object properties then
     concat (map (fun field =>
       if has_key h properties field then [field] else []) targetFields)
     ++ concat (map (fun name => sub (get h properties name))
                  (keys h properties))
   else [])
  ++ (if truthy (get h schema "items") then sub (get h schema "items") else [])
  ++ (if bool_decide (get h schema "type" = VStr "object")
         && negb (truthy properties)
      then targetFields else [])
  ++ (if truthy additionalProperties then
        if typeof_object additionalProperties then sub additionalProperties
        else if bool_decide (additionalProperties = VBool true)
        then targetFields else []
      else [])
  ++ concat (map (fun key =>
       if truthy (get h schema key) && is_array h (get h schema key)
       then concat (map sub (elems_of h (get h schema key))) else [])
       ["allOf"; "oneOf"; "anyOf"]).

(** ** [src/generate-types.ts] *)

Module Full.

(** [if (debug && context.path && context.method && context.location)
       logFieldDetection(context.path, context.method, field,
                         context.location, depth > 0)] *)
Definition log_direct (debug : bool) (ctx : context) (field : string)
  (depth : nat) : Console unit :=
  if debug then
    match ctx_complete ctx with
    | Some (p, m, l) => logFieldDetection p m field l (0 <? depth)
    | None => ret tt
    end
  else ret tt.

(** The body of [findFieldsInSchema] below its two guards.  [again s] is the
    recursive call
    [findFieldsInSchema(s, targetFields, depth + 1, debug, context)];
    [f1] to [f8] are what the eight blocks push onto [foundFields]. *)
Definition scan_node (again : value -> Console (list string)) (h : heap)
  (schema : value) (targetFields : list string) (depth : nat) (debug : bool)
  (ctx : context) : Console (list string) :=
  let properties := get h schema "properties" in
  let additionalProperties := get h schema "additionalProperties" in
  let patternProperties := get h schema "patternProperties" in
  (* Check direct properties *)
  do f1 <-
    (if truthy properties && typeof_object properties then
       do direct <- for_push targetFields (fun field =>
         if has_key h properties field then
           run log_direct debug ctx field depth;
           ret [field]
         else ret []);
       (* Recursively check nested properties *)
       do nested <- for_push (keys h properties) (fun prop =>
         again (get h properties prop));
       ret (direct ++ nested)
     else ret []);
  (* Handle array items *)
  do f2 <-
    (if truthy (get h schema "items") then again (get h schema "items")
     else ret []);
  (* Handle object schemas without explicit properties *)
  do f3 <-
    (if bool_decide (get h schema "type" = VStr "object")
        && negb (truthy properties) then
       run log_potential debug ctx DynamicObject targetFields;
       ret targetFields
     else ret []);
  (* Handle additionalProperties *)
  do f4 <-
    (if truthy additionalProperties then
       if typeof_object additionalProperties then again additionalProperties
       else if bool_decide (additionalProperties = VBool true) then
         run log_potential debug ctx AdditionalProperties targetFields;
         ret targetFields
       else ret []
     else ret []);
  (* Handle combined schemas *)
  do f5 <- for_push ["allOf"; "oneOf"; "anyOf"] (fun key =>
    if truthy (get h schema key) && is_array h (get h schema key) then
      for_push (elems_of h (get h schema key)) again
    else ret []);
  (* Handle patternProperties *)
  do f6 <-
    (if truthy patternProperties && typeof_object patternProperties then
       for_push (keys h patternProperties) (fun pattern =>
         again (get h patternProperties pattern))
     else ret []);
  (* Handle discriminator schemas *)
  do f7 <-
    (if truthy (get h schema "discriminator")
        && truthy (get h (get h schema "discriminator") "mapping") then
       run log_potential debug ctx Discriminator targetFields;
       ret targetFields
     else ret []);
  (* Handle free-form objects *)
  do f8 <-
    (if bool_decide (get h schema "type" = VStr "object")
        && negb (truthy properties)
        && negb (truthy additionalProperties)
        && negb (truthy patternProperties) then
       run log_potential debug ctx FreeFormObject targetFields;
       ret targetFields
     else ret []);
  ret (dedup (f1 ++ f2 ++ f3 ++ f4 ++ f5 ++ f6 ++ f7 ++ f8)).

(** The contents of [foundFields] when [scan_node] reaches its [return],
    given the list [sub s] each recursive call on [s] returns: the console
    is left out. *)
Definition pushed_fields (sub : value -> list string) (h : heap)
  (schema : value) (targetFields : list string) : list string :=
  let properties := get h schema "properties" in
  let additionalProperties := get h schema "additionalProperties" in
  let patternProperties := get h schema "patternProperties" in
  structure_fields sub h schema targetFields
  ++ (if truthy patternProperties && typeof_object patternProperties then
        concat (map (fun pattern => sub (get h patternProperties pattern))
                  (keys h patternProperties))
      else [])
  ++ (if truthy (get h schema "discriminator")
         && truthy (get h (get h schema "discriminator") "mapping")
      then targetFields else [])
  ++ (if bool_decide (get h schema "type" = VStr "object")
         && negb (truthy properties)
         && negb (truthy additionalProperties)
         && negb (truthy patternProperties)
      then targetFields else []).

(** [findFieldsInSchema(schema, targetFields, depth, debug, context)].
    The recursion is on the depth counter: a call is made at [depth + 1]
    only after the test [depth > 10] has failed, so [11 - depth] decreases. *)
Equations? findFieldsInSchema (h : heap) (schema : value)
  (targetFields : list string) (depth : nat) (debug : bool) (ctx : context)
  : Console (list string) by wf (11 - depth) lt :=
findFieldsInSchema h schema targetFields depth debug ctx
  with negb (truthy schema) || negb (typeof_object schema) => {
  | true => ret [];
  | false with lt_dec 10 depth => {
    | left _ => ret [];
    | right Hdepth =>
        scan_node
          (fun s => findFieldsInSchema h s targetFields (S depth) debug ctx)
          h schema targetFields depth debug ctx } }.
Proof. lia. Qed.

(** The aggregates of the scanners: while scanning, each list is a [Set] in
    insertion order; in the returned value it is a sorted array. *)
Record aggregates : Type := Aggregates {
  fieldPaths : gmap string (list string);
  groupFieldPaths : gmap string (gmap string (list string))
}.

(** [Array.from(set).sort()]: the default sort compares strings code unit
    by code unit. *)
Definition str_le (a b : string) : Prop := String.leb a b = true.

#[global] Instance str_le_dec : RelDecision str_le.
Proof. intros a b. unfold str_le. apply _. Defined.

Definition sorted_array (set : list string) : list string :=
  merge_sort str_le set.

(** The property key a value is converted to when it indexes an object.
    Tags are strings in an OpenAPI document; other primitives and plain
    objects convert as in JavaScript, and an array joins its elements, a
    nested object or array counting as a plain object. *)
Definition key_of_prim (v : value) : string :=
  match v with
  | VUndef => "undefined"
  | VNull => "null"
  | VBool true => "true"
  | VBool false => "false"
  | VNum n => pretty n
  | VStr s => s
  | VRef _ => "[object Object]"
  end.

Definition key_of_elem (v : value) : string :=
  match v with
  | VUndef | VNull => ""
  | _ => key_of_prim v
  end.

Definition to_key (h : heap) (v : value) : string :=
  match v with
  | VRef l =>
      match h l with
      | ORec _ => "[object Object]"
      | OArr vs => String.concat "," (map key_of_elem vs)
      end
  | _ => key_of_prim v
  end.

(** The group names walked by [for (const group of groups)], where
    [groups = operation.tags || [DEFAULT_GROUP]]. *)
Definition groups_of (h : heap) (tags : value) : result (list string) :=
  if truthy tags then
    let* gs := iterate h tags in Ok (map (to_key h) gs)
  else Ok [DEFAULT_GROUP].

(** [if (!sets[group]) sets[group] = new Set();  sets[group].add(path)] *)
Definition add_to_group (group path : string)
  (sets : gmap string (list string)) : gmap string (list string) :=
  <[group := set_add path (default [] (sets !! group))]> sets.

(** The two outer loops of the grouper and of both scanners:
    [for (const path in openApi.paths) {
       const pathItem = openApi.paths[path];
       if (!pathItem) continue;
       for (const method of HTTP_METHODS) {
         const operation = pathItem[method];
         body
       } }] *)
Definition for_each_operation {S} (h : heap) (paths : value)
  (body : string -> string -> value -> S -> result S) (st : S) : result S :=
  for_each (keys h paths) (fun path st =>
    let pathItem := get h paths path in
    if negb (truthy pathItem) then Ok st
    else
      for_each HTTP_METHODS (fun method st =>
        let operation := get h pathItem method in
        body path method operation st) st) st.

(** The grouper's [if (operation) { ... }] *)
Definition group_operation (h : heap) (path method : string)
  (operation : value) (groupPaths : gmap string (list string))
  : result (gmap string (list string)) :=
  if truthy operation then
    let tags := get h operation "tags" in
    if truthy tags && is_array h tags && (0 <? length (elems_of h tags)) then
      for_each (elems_of h tags) (fun group groupPaths =>
        Ok (add_to_group (to_key h group) path groupPaths)) groupPaths
    else Ok (add_to_group DEFAULT_GROUP path groupPaths)
  else Ok groupPaths.

(** [extractGroupPaths(openApi)] *)
Definition extractGroupPaths (h : heap) (openApi : value)
  : result (gmap string (list string)) :=
  let* paths := prop h openApi "paths" in
  if negb (truthy paths) then Ok ∅
  else
    let* groupPaths := for_each_operation h paths (group_operation h) ∅ in
    (* Convert Sets to sorted arrays *)
    Ok (sorted_array <$> groupPaths).

(** [for (const field of targetFields)
       { fieldPaths[field] = new Set(); groupFieldPaths[field] = {}; }] *)
Definition init_aggregates (targetFields : list string) : aggregates :=
  fold_left (fun agg field =>
    Aggregates (<[field := []]> (fieldPaths agg))
               (<[field := ∅]> (groupFieldPaths agg)))
    targetFields (Aggregates ∅ ∅).

(** The value returned when the document has no [paths]:
    [Object.fromEntries(targetFields.map(field => [field, []]))] and
    [Object.fromEntries(targetFields.map(field => [field, {}]))]. *)
Definition empty_aggregates (targetFields : list string) : aggregates :=
  Aggregates
    (fold_left (fun o field => <[field := []]> o) targetFields ∅)
    (fold_left (fun o field => <[field := ∅]> o) targetFields ∅).

(** [fieldPaths[foundField].add(path);
     for (const group of groups) { ... groupFieldPaths[foundField][group].add(path) }] *)
Definition record_field (h : heap) (path : string) (tags : value)
  (foundField : string) (agg : aggregates) : result aggregates :=
  match fieldPaths agg !! foundField with
  | None => Throw TypeError
  | Some set =>
      let agg := Aggregates (<[foundField := set_add path set]> (fieldPaths agg))
                            (groupFieldPaths agg) in
      let* groups := groups_of h tags in
      for_each groups (fun group agg =>
        match groupFieldPaths agg !! foundField with
        | None => Throw TypeError
        | Some sets =>
            Ok (Aggregates (fieldPaths agg)
                  (<[foundField := add_to_group group path sets]>
                     (groupFieldPaths agg)))
        end) agg
  end.

(** [for (const mediaType in content) { ... }]: the block shared by the
    response and the request scanner.  The lines the finder prints are not
    part of the returned aggregates and are dropped here. *)
Definition scan_content (h : heap) (targetFields : list string)
  (path method : string) (loc : location) (tags content : value)
  (agg : aggregates) : result aggregates :=
  for_each (keys h content) (fun mediaType agg =>
    let mediaObj := get h content mediaType in
    let* schema := prop h mediaObj "schema" in
    if truthy schema then
      let foundFields :=
        fst (findFieldsInSchema h schema targetFields 0 true
               (Context (Some path) (Some method) (Some loc))) in
      for_each foundFields (record_field h path tags) agg
    else Ok agg) agg.

(** The last loop of both scanners: every set becomes a sorted array. *)
Definition to_sorted_arrays (agg : aggregates) : aggregates :=
  Aggregates
    (sorted_array <$> fieldPaths agg)
    (map_imap (fun field _ =>
       let sets : gmap string (list string) :=
         default ∅ (groupFieldPaths agg !! field) in
       Some (sorted_array <$> sets))
       (fieldPaths agg)).

(** The response scanner's [if (operation && operation.responses) { ... }] *)
Definition scan_responses (h : heap) (targetFields : list string)
  (path method : string) (operation : value) (agg : aggregates)
  : result aggregates :=
  if truthy operation && truthy (get h operation "responses") then
    let responses := get h operation "responses" in
    let tags := get h operation "tags" in
    for_each (keys h responses) (fun responseCode agg =>
      let response := get h responses responseCode in
      if truthy response && truthy (get h response "content") then
        scan_content h targetFields path method Response tags
          (get h response "content") agg
      else Ok agg) agg
  else Ok agg.

(** [extractResponseFieldPaths(openApi, targetFields)] *)
Definition extractResponseFieldPaths (h : heap) (openApi : value)
  (targetFields : list string) : result aggregates :=
  let agg := init_aggregates targetFields in
  let* paths := prop h openApi "paths" in
  if negb (truthy paths) then Ok (empty_aggregates targetFields)
  else
    let* agg :=
      for_each_operation h paths (scan_responses h targetFields) agg in
    (* Convert Sets to sorted arrays *)
    Ok (to_sorted_arrays agg).

(** The request scanner's [if (operation && operation.requestBody) { ... }] *)
Definition scan_request_body (h : heap) (targetFields : list string)
  (path method : string) (operation : value) (agg : aggregates)
  : result aggregates :=
  if truthy operation && truthy (get h operation "requestBody") then
    let requestBody := get h operation "requestBody" in
    let tags := get h operation "tags" in
    if truthy (get h requestBody "content") then
      scan_content h targetFields path method Request tags
        (get h requestBody "content") agg
    else Ok agg
  else Ok agg.

(** [extractRequestFieldPaths(openApi, targetFields)] *)
Definition extractRequestFieldPaths (h : heap) (openApi : value)
  (targetFields : list string) : result aggregates :=
  let agg := init_aggregates targetFields in
  let* paths := prop h openApi "paths" in
  if negb (truthy paths) then Ok (empty_aggregates targetFields)
  else
    let* agg :=
      for_each_operation h paths (scan_request_body h targetFields) agg in
    (* Convert Sets to sorted arrays *)
    Ok (to_sorted_arrays agg).

(** ** What the claims say about the aggregates *)

(** A list of paths is sorted and has no duplicates. *)
Definition sorted_no_dup (ps : list string) : Prop :=
  StronglySorted str_le ps /\ NoDup ps.

(** [path] is in the list kept under [key]. *)
Definition in_bucket (sets : gmap string (list string)) (key path : string)
  : Prop :=
  exists set, sets !! key = Some set /\ path ∈ set.

(** [path] is in the list of [field]. *)
Definition in_field (agg : aggregates) (field path : string) : Prop :=
  in_bucket (fieldPaths agg) field path.

(** [path] is in the bucket of [group] under [field]. *)
Definition in_group (agg : aggregates) (field group path : string) : Prop :=
  exists sets, groupFieldPaths agg !! field = Some sets /\
    in_bucket sets group path.

(** No list of the mapping holds a path twice. *)
Definition buckets_no_dup (sets : gmap string (list string)) : Prop :=
  forall key set, sets !! key = Some set -> NoDup set.

(** What is recorded for a finding: the path under the field, and under the
    field in every group of the operation. *)
Definition recorded (h : heap) (tags : value) (f path : string) (agg : aggregates) : Prop :=
  in_field agg f path /\
  exists groups, groups_of h tags = Ok groups /\
    forall group, group ∈ groups -> in_group agg f group path.

(** Every path list of the aggregates is sorted and has no duplicates. *)
Definition lists_sorted (agg : aggregates) : Prop :=
  (forall field ps, fieldPaths agg !! field = Some ps -> sorted_no_dup ps) /\
  (forall field sets group ps,
     groupFieldPaths agg !! field = Some sets -> sets !! group = Some ps ->
     sorted_no_dup ps).

(** While scanning: no set holds a path twice, and both mappings have the
    same fields as keys. *)
Definition sets_no_dup (agg : aggregates) : Prop :=
  buckets_no_dup (fieldPaths agg) /\
  (forall field sets,
     groupFieldPaths agg !! field = Some sets -> buckets_no_dup sets) /\
  (forall field,
     is_Some (fieldPaths agg !! field) <-> is_Some (groupFieldPaths agg !! field)).

(** While scanning: nothing is ever removed. *)
Definition grows (agg agg' : aggregates) : Prop :=
  (forall field path, in_field agg field path -> in_field agg' field path) /\
  (forall field group path,
     in_group agg field group path -> in_group agg' field group path).

End Full.


(** ** The matching rules of the specification

    [discoverable h targetFields schema depth field]: [field] is found at
    the node [schema], visited at recursion depth [depth], by one of the
    rules 1 to 10 of section 4.1, nothing being found once the depth
    exceeds 10. *)

Inductive discoverable (h : heap) (targetFields : list string)
  : value -> nat -> string -> Prop :=
| rule1_direct_key schema depth field :
    is_ref schema = true -> depth <= 10 ->
    is_ref (get h schema "properties") = true ->
    field ∈ targetFields ->
    has_key h (get h schema "properties") field = true ->
    discoverable h targetFields schema depth field
| rule2_in_property schema depth field name :
    is_ref schema = true -> depth <= 10 ->
    is_ref (get h schema "properties") = true ->
    name ∈ keys h (get h schema "properties") ->
    discoverable h targetFields
      (get h (get h schema "properties") name) (S depth) field ->
    discoverable h targetFields schema depth field
| rule3_in_items schema depth field :
    is_ref schema = true -> depth <= 10 ->
    discoverable h targetFields (get h schema "items") (S depth) field ->
    discoverable h targetFields schema depth field
| rule4_dynamic_object schema depth field :
    is_ref schema = true -> depth <= 10 ->
    get h schema "type" = VStr "object" ->
    truthy (get h schema "properties") = false ->
    field ∈ targetFields ->
    discoverable h targetFields schema depth field
| rule5_in_additional schema depth field :
    is_ref schema = true -> depth <= 10 ->
    discoverable h targetFields
      (get h schema "additionalProperties") (S depth) field ->
    discoverable h targetFields schema depth field
| rule6_additional_true schema depth field :
    is_ref schema = true -> depth <= 10 ->
    get h schema "additionalProperties" = VBool true ->
    field ∈ targetFields ->
    discoverable h targetFields schema depth field
| rule7_in_composition schema depth field key member :
    is_ref schema = true -> depth <= 10 ->
    key ∈ ["allOf"; "oneOf"; "anyOf"] ->
    is_array h (get h schema key) = true ->
    member ∈ elems_of h (get h schema key) ->
    discoverable h targetFields member (S depth) field ->
    discoverable h targetFields schema depth field
| rule8_in_pattern schema depth field pattern :
    is_ref schema = true -> depth <= 10 ->
    is_ref (get h schema "patternProperties") = true ->
    pattern ∈ keys h (get h schema "patternProperties") ->
    discoverable h targetFields
      (get h (get h schema "patternProperties") pattern) (S depth) field ->
    discoverable h targetFields schema depth field
| rule9_discriminator schema depth field :
    is_ref schema = true -> depth <= 10 ->
    truthy (get h schema "discriminator") = true ->
    truthy (get h (get h schema "discriminator") "mapping") = true ->
    field ∈ targetFields ->
    discoverable h targetFields schema depth field
| rule10_free_form schema depth field :
    is_ref schema = true -> depth <= 10 ->
    get h schema "type" = VStr "object" ->
    truthy (get h schema "properties") = false ->
    truthy (get h schema "additionalProperties") = false ->
    truthy (get h schema "patternProperties") = false ->
    field ∈ targetFields ->
    discoverable h targetFields schema depth field.

(** ** What the scanners record

    A finding of the response scanner: the operation at [path] has the value
    [tags] as its [tags], and [field] is found by the matching rules in
    the schema of one media type of one of its responses.  The definition
    speaks of membership only, not of the order anything is visited in. *)
Definition response_finding (h : heap) (openApi : value)
  (targetFields : list string) (field path : string) (tags : value) : Prop :=
  exists method code mediaType,
    let paths := get h openApi "paths" in
    let operation := get h (get h paths path) method in
    let content :=
      get h (get h (get h operation "responses") code) "content" in
    path ∈ keys h paths /\ method ∈ HTTP_METHODS /\
    code ∈ keys h (get h operation "responses") /\
    mediaType ∈ keys h content /\
    tags = get h operation "tags" /\
    discoverable h targetFields
      (get h (get h content mediaType) "schema") 0 field.

(** A finding of the request scanner. *)
Definition request_finding (h : heap) (openApi : value)
  (targetFields : list string) (field path : string) (tags : value) : Prop :=
  exists method mediaType,
    let paths := get h openApi "paths" in
    let operation := get h (get h paths path) method in
    let content := get h (get h operation "requestBody") "content" in
    path ∈ keys h paths /\ method ∈ HTTP_METHODS /\
    mediaType ∈ keys h content /\
    tags = get h operation "tags" /\
    discoverable h targetFields
      (get h (get h content mediaType) "schema") 0 field.

(** The groups the grouper files an operation under, given the value of its
    [tags]. *)
Definition group_names (h : heap) (tags : value) : list string :=
  if truthy tags && is_array h tags && (0 <? length (elems_of h tags))
  then map (Full.to_key h) (elems_of h tags)
  else [DEFAULT_GROUP].

(** [path] belongs to [group]: some operation at that path, under one of the
    seven methods, is filed under the group. *)
Definition grouped (h : heap) (openApi : value) (group path : string) : Prop :=
  exists method,
    let paths := get h openApi "paths" in
    let operation := get h (get h paths path) method in
    path ∈ keys h paths /\ method ∈ HTTP_METHODS /\
    truthy operation = true /\
    group ∈ group_names h (get h operation "tags").

(** While scanning: every path in the aggregates comes from a finding, and
    sits in a bucket only for a group of the operation it was found in. *)
Definition sound (h : heap) (finding : string -> string -> value -> Prop)
  (agg : Full.aggregates) : Prop :=
  (forall field path, Full.in_field agg field path ->
     exists tags, finding field path tags) /\
  (forall field group path, Full.in_group agg field group path ->
     exists tags groups, finding field path tags /\
       Full.groups_of h tags = Ok groups /\ group ∈ groups).

(** The aggregates hold exactly the findings. *)
Definition exact (h : heap) (finding : string -> string -> value -> Prop)
  (agg : Full.aggregates) : Prop :=
  (forall field path, Full.in_field agg field path <->
     exists tags, finding field path tags) /\
  (forall field group path, Full.in_group agg field group path <->
     exists tags groups, finding field path tags /\
       Full.groups_of h tags = Ok groups /\ group ∈ groups).

(** ** [src/simple-generate-types.ts] *)

Module Simple.

(** [s] without its prefix [p], when it has that prefix. *)
Fixpoint strip_prefix (p s : string) : option string :=
  match p, s with
  | EmptyString, _ => Some s
  | String a p', String b s' =>
      if Ascii.eqb a b then strip_prefix p' s' else None
  | String _ _, EmptyString => None
  end.

(** [s.replace(pat, '')]: the first occurrence of [pat] is removed. *)
Fixpoint remove_first (pat s : string) : string :=
  match strip_prefix pat s with
  | Some rest => rest
  | None =>
      match s with
      | EmptyString => EmptyString
      | String c s' => String c (remove_first pat s')
      end
  end.

(** [s.split('/')] *)
Fixpoint split_slash (s : string) : list string :=
  match s with
  | EmptyString => [EmptyString]
  | String c s' =>
      if Ascii.eqb c "/"%char then EmptyString :: split_slash s'
      else
        match split_slash s' with
        | segment :: segments => String c segment :: segments
        | [] => [String c EmptyString]
        end
  end.

(** [schema.$ref.replace('#/', '').split('/')]: the method call throws when
    [$ref] is not a string. *)
Definition ref_path (ref : value) : result (list string) :=
  match ref with
  | VStr r => Ok (split_slash (remove_first "#/" r))
  | _ => Throw TypeError
  end.

(** [for (const segment of refPath)
       { resolvedSchema = resolvedSchema[segment]; if (!resolvedSchema) break; }] *)
Fixpoint resolve_segments (h : heap) (resolvedSchema : value)
  (refPath : list string) : result value :=
  match refPath with
  | [] => Ok resolvedSchema
  | segment :: rest =>
      let* next := prop h resolvedSchema segment in
      if negb (truthy next) then Ok next else resolve_segments h next rest
  end.

(** The same walk on a document that is not [undefined] or [null], where
    no step can throw. *)
Fixpoint walk (h : heap) (resolvedSchema : value) (refPath : list string)
  : value :=
  match refPath with
  | [] => resolvedSchema
  | segment :: rest =>
      let next := get h resolvedSchema segment in
      if negb (truthy next) then next else walk h next rest
  end.

(** The value a reference string resolves to in the document; it is falsy
    when a segment does not resolve. *)
Definition resolve (h : heap) (openApiDoc : value) (ref : string) : value :=
  walk h openApiDoc (split_slash (remove_first "#/" ref)).

(** What the [$ref] block pushes onto [foundFields], given the list [sub s]
    that the recursive call on [s] returns. *)
Definition ref_fields (sub : value -> list string) (h : heap)
  (schema openApiDoc : value) : list string :=
  match get h schema "$ref" with
  | VStr ref =>
      if truthy (VStr ref) && truthy openApiDoc
         && truthy (resolve h openApiDoc ref)
      then sub (resolve h openApiDoc ref) else []
  | _ => []
  end.

(** What the [$ref] block pushes onto [foundFields]. *)
Definition via_ref (again : value -> result (list string)) (h : heap)
  (schema openApiDoc : value) : result (list string) :=
  let* ref := prop h schema "$ref" in
  if truthy ref && truthy openApiDoc then
    try_catch
      (let* refPath := ref_path ref in
       let* resolvedSchema := resolve_segments h openApiDoc refPath in
       if truthy resolvedSchema then again resolvedSchema else Ok [])
      (fun _ =>
         (* If reference resolution fails, continue with other checks *)
         Ok [])
  else Ok [].

(** What the blocks after the [$ref] block push onto [foundFields]. *)
Definition via_structure (again : value -> result (list string)) (h : heap)
  (schema : value) (targetFields : list string) : result (list string) :=
  let* properties := prop h schema "properties" in
  (* Check direct properties *)
  let* f1 :=
    (if truthy properties && typeof_object properties then
       let* direct := for_collect targetFields (fun field =>
         let* present := in_op h field properties in
         Ok (if present then [field] else [])) in
       (* Recursively check nested properties *)
       let* nested := for_collect (keys h properties) (fun name =>
         let* nestedSchema := prop h properties name in
         again nestedSchema) in
       Ok (direct ++ nested)
     else Ok []) in
  (* Handle array items *)
  let* items := prop h schema "items" in
  let* f2 := (if truthy items then again items else Ok []) in
  (* Handle object schemas without explicit properties *)
  let* type := prop h schema "type" in
  let f3 :=
    if bool_decide (type = VStr "object") && negb (truthy properties)
    then targetFields else [] in
  (* Handle additionalProperties *)
  let* additionalProperties := prop h schema "additionalProperties" in
  let* f4 :=
    (if truthy additionalProperties then
       if typeof_object additionalProperties then again additionalProperties
       else if bool_decide (additionalProperties = VBool true) then
         Ok targetFields
       else Ok []
     else Ok []) in
  (* Handle combined schemas *)
  let* f5 := for_collect ["allOf"; "oneOf"; "anyOf"] (fun key =>
    let* combined := prop h schema key in
    if truthy combined && is_array h combined then
      let* subSchemas := iterate h combined in
      for_collect subSchemas again
    else Ok []) in
  Ok (f1 ++ f2 ++ f3 ++ f4 ++ f5).

(** The body of [findFieldsInSchema] below its two guards; [again s] is the
    recursive call [findFieldsInSchema(s, targetFields, depth + 1, openApiDoc)]. *)
Definition scan_node (again : value -> result (list string)) (h : heap)
  (schema : value) (targetFields : list string) (openApiDoc : value)
  : result (list string) :=
  let* f0 := via_ref again h schema openApiDoc in
  let* fs := via_structure again h schema targetFields in
  Ok (dedup (f0 ++ fs)).

(** [findFieldsInSchema(schema, targetFields, depth, openApiDoc)]; an absent
    [openApiDoc] is [VUndef]. *)
Equations? findFieldsInSchema (h : heap) (schema : value)
  (targetFields : list string) (depth : nat) (openApiDoc : value)
  : result (list string) by wf (11 - depth) lt :=
findFieldsInSchema h schema targetFields depth openApiDoc
  with negb (truthy schema) || negb (typeof_object schema) => {
  | true => Ok [];
  | false with lt_dec 10 depth => {
    | left _ => Ok [];
    | right Hdepth =>
        scan_node
          (fun s => findFieldsInSchema h s targetFields (S depth) openApiDoc)
          h schema targetFields openApiDoc } }.
Proof. lia. Qed.

(** The list the finder returns. *)
Definition found (h : heap) (schema : value) (targetFields : list string)
  (depth : nat) (openApiDoc : value) : list string :=
  match findFieldsInSchema h schema targetFields depth openApiDoc with
  | Ok fields => fields
  | Throw _ => []
  end.

(** The matching rules this finder implements: rules 1 to 7 of section 4.1
    and rule 11, the reference rule, with the same recursion bound. *)
Inductive discoverable (h : heap) (targetFields : list string)
  (openApiDoc : value) : value -> nat -> string -> Prop :=
| rule11_via_ref schema depth field ref :
    is_ref schema = true -> depth <= 10 ->
    get h schema "$ref" = VStr ref ->
    truthy (VStr ref) = true -> truthy openApiDoc = true ->
    discoverable h targetFields openApiDoc
      (resolve h openApiDoc ref) (S depth) field ->
    discoverable h targetFields openApiDoc schema depth field
| rule1_direct_key schema depth field :
    is_ref schema = true -> depth <= 10 ->
    is_ref (get h schema "properties") = true ->
    field ∈ targetFields ->
    has_key h (get h schema "properties") field = true ->
    discoverable h targetFields openApiDoc schema depth field
| rule2_in_property schema depth field name :
    is_ref schema = true -> depth <= 10 ->
    is_ref (get h schema "properties") = true ->
    name ∈ keys h (get h schema "properties") ->
    discoverable h targetFields openApiDoc
      (get h (get h schema "properties") name) (S depth) field ->
    discoverable h targetFields openApiDoc schema depth field
| rule3_in_items schema depth field :
    is_ref schema = true -> depth <= 10 ->
    discoverable h targetFields openApiDoc
      (get h schema "items") (S depth) field ->
    discoverable h targetFields openApiDoc schema depth field
| rule4_dynamic_object schema depth field :
    is_ref schema = true -> depth <= 10 ->
    get h schema "type" = VStr "object" ->
    truthy (get h schema "properties") = false ->
    field ∈ targetFields ->
    discoverable h targetFields openApiDoc schema depth field
| rule5_in_additional schema depth field :
    is_ref schema = true -> depth <= 10 ->
    discoverable h targetFields openApiDoc
      (get h schema "additionalProperties") (S depth) field ->
    discoverable h targetFields openApiDoc schema depth field
| rule6_additional_true schema depth field :
    is_ref schema = true -> depth <= 10 ->
    get h schema "additionalProperties" = VBool true ->
    field ∈ targetFields ->
    discoverable h targetFields openApiDoc schema depth field
| rule7_in_composition schema depth field key member :
    is_ref schema = true -> depth <= 10 ->
    key ∈ ["allOf"; "oneOf"; "anyOf"] ->
    is_array h (get h schema key) = true ->
    member ∈ elems_of h (get h schema key) ->
    discoverable h targetFields openApiDoc member (S depth) field ->
    discoverable h targetFields openApiDoc schema depth field.

End Simple.

(** ** Example documents *)

(** [node = { properties: { self: node, email: { type: "string" } } }]:
    a schema whose [properties.self] is the schema itself. *)
Definition self_referential : heap := mk_heap [
  (* 0 *) ORec [("properties", VRef 1)];
  (* 1 *) ORec [("self", VRef 0); ("email", VRef 2)];
  (* 2 *) ORec [("type", VStr "string")] ].

(** [{ type: "object" }] at address 0, [{ additionalProperties: true }] at 1,
    [{ discriminator: { mapping: {} } }] at 2. *)
Definition open_schemas : heap := mk_heap [
  (* 0 *) ORec [("type", VStr "object")];
  (* 1 *) ORec [("additionalProperties", VBool true)];
  (* 2 *) ORec [("discriminator", VRef 3)];
  (* 3 *) ORec [("mapping", VRef 4)];
  (* 4 *) ORec [] ].

(** [{ properties: { email: { type: "string" }, profile: { items: { allOf:
      [{ properties: { id: {} } }] } } } }] *)
Definition nested_schema : heap := mk_heap [
  (* 0 *) ORec [("properties", VRef 1)];
  (* 1 *) ORec [("email", VRef 2); ("profile", VRef 3)];
  (* 2 *) ORec [("type", VStr "string")];
  (* 3 *) ORec [("items", VRef 4)];
  (* 4 *) ORec [("allOf", VRef 5)];
  (* 5 *) OArr [VRef 6];
  (* 6 *) ORec [("properties", VRef 7)];
  (* 7 *) ORec [("id", VRef 8)];
  (* 8 *) ORec [] ].

(** A document with a schema under [components.schemas.User], a reference to
    it at address 2 and a reference to a schema that is not there at 8. *)
Definition doc_with_refs : heap := mk_heap [
  (* 0 *) ORec [("paths", VRef 1); ("components", VRef 3)];
  (* 1 *) ORec [];
  (* 2 *) ORec [("$ref", VStr "#/components/schemas/User")];
  (* 3 *) ORec [("schemas", VRef 4)];
  (* 4 *) ORec [("User", VRef 5)];
  (* 5 *) ORec [("properties", VRef 6)];
  (* 6 *) ORec [("email", VRef 7)];
  (* 7 *) ORec [("type", VStr "string")];
  (* 8 *) ORec [("$ref", VStr "#/components/schemas/Nope");
                ("properties", VRef 9)];
  (* 9 *) ORec [("id", VRef 7)] ].

(** A document without [paths]: [{ openapi: "3.0.0" }]. *)
Definition doc_no_paths : heap := mk_heap [
  (* 0 *) ORec [("openapi", VStr "3.0.0")] ].

(** [{ paths: { "/login": { post: { tags: <tags>, requestBody: { content: C },
      responses: { "200": { content: C } } } } } }] with
    [C = { "application/json": { schema: { properties: { email:
      { type: "string" } } } } }]; [tags] gives the [tags] entry, if any. *)
Definition doc_login (tags : list (string * value)) : heap := mk_heap [
  (* 0 *) ORec [("paths", VRef 1)];
  (* 1 *) ORec [("/login", VRef 2)];
  (* 2 *) ORec [("post", VRef 3)];
  (* 3 *) ORec (tags ++ [("requestBody", VRef 6); ("responses", VRef 5)]);
  (* 4 *) OArr [VStr "auth"; VStr "users"];
  (* 5 *) ORec [("200", VRef 6)];
  (* 6 *) ORec [("content", VRef 7)];
  (* 7 *) ORec [("application/json", VRef 8)];
  (* 8 *) ORec [("schema", VRef 9)];
  (* 9 *) ORec [("properties", VRef 10)];
  (* 10 *) ORec [("email", VRef 11)];
  (* 11 *) ORec [("type", VStr "string")];
  (* 12 *) OArr [] ].

(** The operation is tagged [["auth", "users"]]. *)
Definition doc_login_tagged : heap := doc_login [("tags", VRef 4)].

(** The operation has [tags: []]. *)
Definition doc_login_empty_tags : heap := doc_login [("tags", VRef 12)].

(** The operation has no [tags]. *)
Definition doc_login_untagged : heap := doc_login [].

(** [{ paths: { "/ping": { get: { responses: { "204": { content:
      { "application/json": null } } } } } } }] *)
Definition doc_null_media_type : heap := mk_heap [
  (* 0 *) ORec [("paths", VRef 1)];
  (* 1 *) ORec [("/ping", VRef 2)];
  (* 2 *) ORec [("get", VRef 3)];
  (* 3 *) ORec [("responses", VRef 4)];
  (* 4 *) ORec [("204", VRef 5)];
  (* 5 *) ORec [("content", VRef 6)];
  (* 6 *) ORec [("application/json", VNull)] ].

(** Two paths listed in the order ["/users"], ["/accounts"], both untagged and
    both answering with an [email]. *)
Definition doc_two_paths : heap := mk_heap [
  (* 0 *) ORec [("paths", VRef 1)];
  (* 1 *) ORec [("/users", VRef 2); ("/accounts", VRef 2)];
  (* 2 *) ORec [("get", VRef 3); ("post", VRef 3)];
  (* 3 *) ORec [("responses", VRef 5)];
  (* 4 *) OArr [];
  (* 5 *) ORec [("200", VRef 6); ("404", VRef 6)];
  (* 6 *) ORec [("content", VRef 7)];
  (* 7 *) ORec [("application/json", VRef 8)];
  (* 8 *) ORec [("schema", VRef 9)];
  (* 9 *) ORec [("properties", VRef 10)];
  (* 10 *) ORec [("email", VRef 11)];
  (* 11 *) ORec [("type", VStr "string")] ].


(** * Further definitions *)

(** The field a printed line is about. *)
Definition line_field (line : log_line) : string :=
  match line with
  | Found _ _ field _ _ => field
  | Potential _ field _ _ _ => field
  end.

(** The path, method and location a printed line names. *)
Definition line_context (line : log_line) : string * string * location :=
  match line with
  | Found path method _ loc _ => (path, method, loc)
  | Potential _ _ method path loc => (path, method, loc)
  end.

(** The lines [Full.scan_node] has printed when it reaches its [return],
    given the lines [sub s] each recursive call on [s] prints. *)
Definition printed_lines (sub : value -> list log_line) (h : heap)
  (schema : value) (targetFields : list string) (depth : nat) (debug : bool)
  (ctx : context) : list log_line :=
  let properties := get h schema "properties" in
  let additionalProperties := get h schema "additionalProperties" in
  let patternProperties := get h schema "patternProperties" in
  (if truthy properties && typeof_object properties then
     concat (map (fun field =>
       if has_key h properties field
       then snd (Full.log_direct debug ctx field depth) else []) targetFields)
     ++ concat (map (fun name => sub (get h properties name))
                  (keys h properties))
   else [])
  ++ (if truthy (get h schema "items") then sub (get h schema "items") else [])
  ++ (if bool_decide (get h schema "type" = VStr "object")
         && negb (truthy properties)
      then snd (log_potential debug ctx DynamicObject targetFields) else [])
  ++ (if truthy additionalProperties then
        if typeof_object additionalProperties then sub additionalProperties
        else if bool_decide (additionalProperties = VBool true)
        then snd (log_potential debug ctx AdditionalProperties targetFields)
        else []
      else [])
  ++ concat (map (fun key =>
       if truthy (get h schema key) && is_array h (get h schema key)
       then concat (map sub (elems_of h (get h schema key))) else [])
       ["allOf"; "oneOf"; "anyOf"])
  ++ (if truthy patternProperties && typeof_object patternProperties then
        concat (map (fun pattern => sub (get h patternProperties pattern))
                  (keys h patternProperties))
      else [])
  ++ (if truthy (get h schema "discriminator")
         && truthy (get h (get h schema "discriminator") "mapping")
      then snd (log_potential debug ctx Discriminator targetFields) else [])
  ++ (if bool_decide (get h schema "type" = VStr "object")
         && negb (truthy properties)
         && negb (truthy additionalProperties)
         && negb (truthy patternProperties)
      then snd (log_potential debug ctx FreeFormObject targetFields) else []).

(** ** Documents as their type declares them *)

(** [test] holds of [openApi.paths[path][method]] for every key [path] of
    [openApi.paths] and every one of the seven methods. *)
Definition all_operations (h : heap) (openApi : value)
  (test : value -> bool) : bool :=
  let paths := get h openApi "paths" in
  forallb (fun path =>
    forallb (fun method => test (get h (get h paths path) method))
      HTTP_METHODS) (keys h paths).

(** The [tags] of every operation are absent (or falsy) or an array, as
    [tags?: string[]] says. *)
Definition tags_are_arrays (h : heap) (openApi : value) : bool :=
  all_operations h openApi (fun operation =>
    let tags := get h operation "tags" in
    negb (truthy tags) || is_array h tags).

(** No value of [content] is [null] or [undefined]. *)
Definition media_present (h : heap) (content : value) : bool :=
  forallb (fun mediaType => negb (nullish (get h content mediaType)))
    (keys h content).

(** No media type of a response is [null] or [undefined]. *)
Definition response_media_present (h : heap) (openApi : value) : bool :=
  all_operations h openApi (fun operation =>
    let responses := get h operation "responses" in
    forallb (fun code =>
      media_present h (get h (get h responses code) "content"))
      (keys h responses)).

(** No media type of a request body is [null] or [undefined]. *)
Definition request_media_present (h : heap) (openApi : value) : bool :=
  all_operations h openApi (fun operation =>
    media_present h (get h (get h operation "requestBody") "content")).

(** While scanning: the sets are sets, and every requested field is a key. *)
Definition scanning (targetFields : list string) (agg : Full.aggregates)
  : Prop :=
  Full.sets_no_dup agg /\
  forall field, field ∈ targetFields ->
    is_Some (Full.fieldPaths agg !! field).


(** ** The scanners of [simple-generate-types.ts]

    They keep one set of paths per field and no groups, and hand the
    document to the finder so that it resolves references. *)

Module SimpleScan.

(** [for (const field of targetFields) { fieldPaths[field] = new Set(); }],
    and [Object.fromEntries(targetFields.map(field => [field, []]))]: both
    map every target field to an empty collection. *)
Definition init_sets (targetFields : list string) : gmap string (list string) :=
  fold_left (fun o field => <[field := []]> o) targetFields ∅.

(** [fieldPaths[foundField].add(path)] *)
Definition record_path (path foundField : string)
  (fieldPaths : gmap string (list string))
  : result (gmap string (list string)) :=
  match fieldPaths !! foundField with
  | None => Throw TypeError
  | Some set => Ok (<[foundField := set_add path set]> fieldPaths)
  end.

(** [for (const mediaType in content) { ... }] *)
Definition scan_content (h : heap) (targetFields : list string)
  (openApi : value) (path : string) (content : value)
  (fieldPaths : gmap string (list string))
  : result (gmap string (list string)) :=
  for_each (keys h content) (fun mediaType fieldPaths =>
    let mediaObj := get h content mediaType in
    let* schema := prop h mediaObj "schema" in
    if truthy schema then
      let* foundFields :=
        Simple.findFieldsInSchema h schema targetFields 0 openApi in
      for_each foundFields (record_path path) fieldPaths
    else Ok fieldPaths) fieldPaths.

(** The response scanner's [if (operation && operation.responses) { ... }] *)
Definition scan_responses (h : heap) (targetFields : list string)
  (openApi : value) (path method : string) (operation : value)
  (fieldPaths : gmap string (list string))
  : result (gmap string (list string)) :=
  if truthy operation && truthy (get h operation "responses") then
    let responses := get h operation "responses" in
    for_each (keys h responses) (fun responseCode fieldPaths =>
      let response := get h responses responseCode in
      if truthy response && truthy (get h response "content") then
        scan_content h targetFields openApi path (get h response "content")
          fieldPaths
      else Ok fieldPaths) fieldPaths
  else Ok fieldPaths.

(** The request scanner's [if (operation && operation.requestBody) { ... }] *)
Definition scan_request_body (h : heap) (targetFields : list string)
  (openApi : value) (path method : string) (operation : value)
  (fieldPaths : gmap string (list string))
  : result (gmap string (list string)) :=
  if truthy operation && truthy (get h operation "requestBody") then
    let requestBody := get h operation "requestBody" in
    if truthy (get h requestBody "content") then
      scan_content h targetFields openApi path (get h requestBody "content")
        fieldPaths
    else Ok fieldPaths
  else Ok fieldPaths.

(** [extractResponseFieldPaths(openApi, targetFields)] *)
Definition extractResponseFieldPaths (h : heap) (openApi : value)
  (targetFields : list string) : result (gmap string (list string)) :=
  let fieldPaths := init_sets targetFields in
  let* paths := prop h openApi "paths" in
  if negb (truthy paths) then Ok (init_sets targetFields)
  else
    let* fieldPaths :=
      Full.for_each_operation h paths
        (scan_responses h targetFields openApi) fieldPaths in
    (* Convert Sets to sorted arrays *)
    Ok (Full.sorted_array <$> fieldPaths).

(** [extractRequestFieldPaths(openApi, targetFields)] *)
Definition extractRequestFieldPaths (h : heap) (openApi : value)
  (targetFields : list string) : result (gmap string (list string)) :=
  let fieldPaths := init_sets targetFields in
  let* paths := prop h openApi "paths" in
  if negb (truthy paths) then Ok (init_sets targetFields)
  else
    let* fieldPaths :=
      Full.for_each_operation h paths
        (scan_request_body h targetFields openApi) fieldPaths in
    (* Convert Sets to sorted arrays *)
    Ok (Full.sorted_array <$> fieldPaths).

(** A finding of the response scanner: the finder, given the document,
    reports [field] for the schema of one media type of one response of an
    operation at [path]. *)
Definition response_finding (h : heap) (openApi : value)
  (targetFields : list string) (field path : string) : Prop :=
  exists method code mediaType,
    let paths := get h openApi "paths" in
    let operation := get h (get h paths path) method in
    let content :=
      get h (get h (get h operation "responses") code) "content" in
    path ∈ keys h paths /\ method ∈ HTTP_METHODS /\
    code ∈ keys h (get h operation "responses") /\
    mediaType ∈ keys h content /\
    Simple.discoverable h targetFields openApi
      (get h (get h content mediaType) "schema") 0 field.

(** A finding of the request scanner. *)
Definition request_finding (h : heap) (openApi : value)
  (targetFields : list string) (field path : string) : Prop :=
  exists method mediaType,
    let paths := get h openApi "paths" in
    let operation := get h (get h paths path) method in
    let content := get h (get h operation "requestBody") "content" in
    path ∈ keys h paths /\ method ∈ HTTP_METHODS /\
    mediaType ∈ keys h content /\
    Simple.discoverable h targetFields openApi
      (get h (get h content mediaType) "schema") 0 field.

(** A mapping of sets holds the pair of a key and a path. *)
Definition entry (sets : gmap string (list string)) (k : string * string)
  : Prop :=
  Full.in_bucket sets k.1 k.2.

(** While scanning: the sets are sets, and the keys are the target fields. *)
Definition scanning (targetFields : list string)
  (fieldPaths : gmap string (list string)) : Prop :=
  Full.buckets_no_dup fieldPaths /\
  forall field, is_Some (fieldPaths !! field) <-> field ∈ targetFields.

End SimpleScan.

(** [{ paths: { "/me": { get: { responses: { "200": { content:
      { "application/json": { schema: { $ref: "#/components/schemas/User" } } } } } },
      put: { requestBody: { content: { "application/json":
        { schema: { properties: { id: {} } } } } } } } },
      components: { schemas: { User: { properties: { email: {} } } } } }] *)
Definition doc_me : heap := mk_heap [
  (* 0 *) ORec [("paths", VRef 1); ("components", VRef 9)];
  (* 1 *) ORec [("/me", VRef 2)];
  (* 2 *) ORec [("get", VRef 3); ("put", VRef 14)];
  (* 3 *) ORec [("responses", VRef 4)];
  (* 4 *) ORec [("200", VRef 5)];
  (* 5 *) ORec [("content", VRef 6)];
  (* 6 *) ORec [("application/json", VRef 7)];
  (* 7 *) ORec [("schema", VRef 8)];
  (* 8 *) ORec [("$ref", VStr "#/components/schemas/User")];
  (* 9 *) ORec [("schemas", VRef 10)];
  (* 10 *) ORec [("User", VRef 11)];
  (* 11 *) ORec [("properties", VRef 12)];
  (* 12 *) ORec [("email", VRef 13)];
  (* 13 *) ORec [];
  (* 14 *) ORec [("requestBody", VRef 15)];
  (* 15 *) ORec [("content", VRef 16)];
  (* 16 *) ORec [("application/json", VRef 17)];
  (* 17 *) ORec [("schema", VRef 18)];
  (* 18 *) ORec [("properties", VRef 19)];
  (* 19 *) ORec [("id", VRef 13)] ].

(** ** The common prefix of a group's paths *)

(** The text matched by [[^\/]+] at the start of [s]: the characters before
    the first slash. *)
Fixpoint take_segment (s : string) : string :=
  match s with
  | EmptyString => EmptyString
  | String c s' =>
      if Ascii.eqb c "/"%char then EmptyString
      else String c (take_segment s')
  end.

(** [const match = path.match(/^\/([^\/]+)/); return match ? match[1] : "";]
    There is no match when the path does not start with a slash or nothing
    but a slash follows it. *)
Definition first_segment (path : string) : string :=
  match path with
  | String c rest =>
      if Ascii.eqb c "/"%char then take_segment rest else EmptyString
  | EmptyString => EmptyString
  end.

(** [findCommonPrefix(paths)] *)
Definition findCommonPrefix (paths : list string) : string :=
  if length paths =? 0 then ""
  else
    (* Extract first segment after slash from each path *)
    let segments := map first_segment paths in
    (* Check if all segments are the same *)
    let uniqueSegments := dedup segments in
    match uniqueSegments with
    | [segment] => if truthy (VStr segment) then segment else ""
    | _ => ""
    end.

(** No character of [s] is a slash. *)
Fixpoint slash_free (s : string) : bool :=
  match s with
  | EmptyString => true
  | String c s' => negb (Ascii.eqb c "/"%char) && slash_free s'
  end.

(** [path] is a slash, then [prefix], then nothing or a slash and more. *)
Definition starts_with_segment (prefix path : string) : Prop :=
  exists rest,
    path = String "/"%char (prefix +:+ rest) /\
    (rest = EmptyString \/ exists rest', rest = String "/"%char rest').

(** ** The finder before the depth bound

    [unnamed/part_000] and [unnamed/part_001] hold an earlier
    [findFieldsInSchema(schema, targetFields)] that recurses without a
    bound.  Its calls can nest without end, so the embedding counts them:
    [fuel] bounds how deep the calls may nest, and [None] says that the
    bound was hit, not that the function returned. *)

(** Runs [body] on each element in turn and concatenates what each run
    pushed onto [foundFields]. *)
Fixpoint collect {X} (xs : list X) (body : X -> option (list string))
  : option (list string) :=
  match xs with
  | [] => Some []
  | x :: xs' =>
      match body x with
      | None => None
      | Some pushed =>
          match collect xs' body with
          | None => None
          | Some rest => Some (pushed ++ rest)
          end
      end
  end.

Module Unbounded.

(** The body of [findFieldsInSchema] below its guard; [again s] is the
    recursive call [findFieldsInSchema(s, targetFields)]. *)
Definition scan_node (again : value -> option (list string)) (h : heap)
  (schema : value) (targetFields : list string) : option (list string) :=
  let properties := get h schema "properties" in
  match
    (if truthy properties && typeof_object properties then
       match collect (keys h properties)
               (fun prop => again (get h properties prop)) with
       | None => None
       | Some nested =>
           Some (concat (map (fun field =>
                   if has_key h properties field then [field] else [])
                   targetFields) ++ nested)
       end
     else Some [])
  with
  | None => None
  | Some f1 =>
      match
        (if truthy (get h schema "items")
         then again (get h schema "items") else Some [])
      with
      | None => None
      | Some f2 =>
          match
            collect ["allOf"; "oneOf"; "anyOf"] (fun key =>
              if truthy (get h schema key) && is_array h (get h schema key)
              then collect (elems_of h (get h schema key)) again
              else Some [])
          with
          | None => None
          | Some f3 => Some (dedup (f1 ++ f2 ++ f3))
          end
      end
  end.

(** [findFieldsInSchema(schema, targetFields)], with calls nested less than
    [fuel] deep. *)
Fixpoint findFieldsInSchema (fuel : nat) (h : heap) (schema : value)
  (targetFields : list string) : option (list string) :=
  match fuel with
  | 0 => None
  | S fuel' =>
      if negb (truthy schema) || negb (typeof_object schema) then Some []
      else
        scan_node (fun s => findFieldsInSchema fuel' h s targetFields)
          h schema targetFields
  end.

(** The values the finder calls itself on, from [schema]. *)
Definition sub_schemas (h : heap) (schema : value) : list value :=
  if negb (truthy schema) || negb (typeof_object schema) then []
  else
    let properties := get h schema "properties" in
    (if truthy properties && typeof_object properties
     then map (get h properties) (keys h properties) else [])
    ++ (if truthy (get h schema "items") then [get h schema "items"] else [])
    ++ concat (map (fun key =>
         if truthy (get h schema key) && is_array h (get h schema key)
         then elems_of h (get h schema key) else [])
         ["allOf"; "oneOf"; "anyOf"]).

(** [schema] holds [sub] as the schema of a property, as its [items] or as a
    member of a composition. *)
Definition contains (h : heap) (schema sub : value) : Prop :=
  sub ∈ sub_schemas h schema.

End Unbounded.

(** * Properties *)

(** ** Sets in insertion order *)

Section dedup_facts.

Lemma elem_of_set_add (x y : string) (s : list string) :
  x ∈ set_add y s <-> x = y \/ x ∈ s.
Proof.
  unfold set_add. case_decide.
  - split; [auto | intros [-> | ?]; auto].
  - rewrite elem_of_app, list_elem_of_singleton. tauto.
Qed.

Lemma NoDup_set_add (y : string) (s : list string) :
  NoDup s -> NoDup (set_add y s).
Proof.
  intros Hs. unfold set_add. case_decide; [done |].
  apply NoDup_app. split_and!; [done | | apply NoDup_singleton].
  intros x Hx ->%list_elem_of_singleton. done.
Qed.

Lemma elem_of_fold_set_add (x : string) (xs acc : list string) :
  x ∈ fold_left (fun s y => set_add y s) xs acc <-> x ∈ xs \/ x ∈ acc.
Proof.
  revert acc. induction xs as [| y xs IH]; intros acc; simpl.
  - rewrite elem_of_nil. tauto.
  - rewrite IH, elem_of_set_add, elem_of_cons. tauto.
Qed.

Lemma NoDup_fold_set_add (xs acc : list string) :
  NoDup acc -> NoDup (fold_left (fun s y => set_add y s) xs acc).
Proof.
  revert acc. induction xs as [| y xs IH]; intros acc Hacc; simpl; [done |].
  apply IH, NoDup_set_add, Hacc.
Qed.

Lemma elem_of_dedup (x : string) (xs : list string) : x ∈ dedup xs <-> x ∈ xs.
Proof. unfold dedup. rewrite elem_of_fold_set_add, elem_of_nil. tauto. Qed.

Lemma NoDup_dedup (xs : list string) : NoDup (dedup xs).
Proof. apply NoDup_fold_set_add, NoDup_nil_2. Qed.

End dedup_facts.

(** ** The value of a console computation *)

Lemma fst_bind {A B} (m : Console A) (k : A -> Console B) :
  fst (bind m k) = fst (k (fst m)).
Proof. unfold bind. destruct m as [a o1]. simpl. destruct (k a). reflexivity. Qed.

Lemma fst_ret {A} (a : A) : fst (ret a) = a.
Proof. reflexivity. Qed.

Lemma fst_for_push {X} (xs : list X) (body : X -> Console (list string)) :
  fst (for_push xs body) = concat (map (fun x => fst (body x)) xs).
Proof.
  induction xs as [| x xs IH]; simpl; [reflexivity |].
  rewrite !fst_bind, fst_ret, IH. reflexivity.
Qed.

Lemma elem_of_concat_map {X} (g : X -> list string) (xs : list X) (f : string) :
  f ∈ concat (map g xs) <-> exists x, x ∈ xs /\ f ∈ g x.
Proof.
  induction xs as [| x xs IH]; simpl.
  - rewrite elem_of_nil. split; [done | intros (x & Hx & _)].
    by apply elem_of_nil in Hx.
  - rewrite elem_of_app, IH. split.
    + intros [H | (y & Hy & H)]; [exists x | exists y]; split; auto;
        [apply list_elem_of_here | by apply list_elem_of_further].
    + intros (y & Hy & H). apply elem_of_cons in Hy as [-> | Hy]; eauto.
Qed.

Lemma guard_is_ref (v : value) :
  negb (truthy v) || negb (typeof_object v) = negb (is_ref v).
Proof. destruct v as [| | [] | n | s | l]; simpl; try reflexivity.
  - by destruct (n =? 0)%Z.
  - by destruct (String.eqb s "").
Qed.

Lemma object_test_is_ref (v : value) :
  truthy v && typeof_object v = is_ref v.
Proof. destruct v as [| | [] | n | s | l]; simpl; try reflexivity.
  - by rewrite andb_false_r.
  - by rewrite andb_false_r.
Qed.

Lemma is_array_truthy h v : is_array h v = true -> truthy v = true.
Proof. by destruct v. Qed.

Lemma is_ref_truthy v : is_ref v = true -> truthy v = true.
Proof. by destruct v. Qed.

(** ** What both finders push *)

Lemma elem_of_if_nil (c : bool) (l : list string) (f : string) :
  f ∈ (if c then l else []) <-> c = true /\ f ∈ l.
Proof. destruct c; [tauto |]. rewrite elem_of_nil. split; [done | intros []; done]. Qed.

Lemma elem_of_direct_keys (p : string -> bool) (ts : list string) (f : string) :
  f ∈ concat (map (fun field => if p field then [field] else []) ts) <->
  f ∈ ts /\ p f = true.
Proof.
  rewrite elem_of_concat_map. split.
  - intros (x & Hx & Hf). destruct (p x) eqn:Hp.
    + apply list_elem_of_singleton in Hf as ->. done.
    + by apply elem_of_nil in Hf.
  - intros [Hf Hp]. exists f. rewrite Hp. split; [done | apply list_elem_of_here].
Qed.

Lemma elem_of_additional (sub : value -> list string) (a : value)
  (ts : list string) (f : string) :
  f ∈ (if truthy a then
         if typeof_object a then sub a
         else if bool_decide (a = VBool true) then ts else []
       else []) <->
  (is_ref a = true /\ f ∈ sub a) \/ (a = VBool true /\ f ∈ ts).
Proof.
  destruct a as [| | [] | n | s | l]; simpl;
    try (rewrite elem_of_nil; split; [done | intros [[? _] | [? _]]; done]).
  - split; [auto | intros [[? _] | [_ ?]]; done].
  - destruct (negb (n =? 0)%Z); rewrite elem_of_nil;
      (split; [done | intros [[? _] | [? _]]; done]).
  - destruct (negb (String.eqb s "")); rewrite elem_of_nil;
      (split; [done | intros [[? _] | [? _]]; done]).
  - split; [auto | intros [[_ ?] | [? _]]; done].
Qed.

Lemma elem_of_composition (sub : value -> list string) h schema
  (keywords : list string) (f : string) :
  f ∈ concat (map (fun key =>
        if truthy (get h schema key) && is_array h (get h schema key)
        then concat (map sub (elems_of h (get h schema key))) else [])
        keywords) <->
  exists key member, key ∈ keywords /\
    is_array h (get h schema key) = true /\
    member ∈ elems_of h (get h schema key) /\ f ∈ sub member.
Proof.
  rewrite elem_of_concat_map. split.
  - intros (key & Hkey & Hf). apply elem_of_if_nil in Hf as [Hc Hf].
    apply andb_true_iff in Hc as [_ Harr].
    apply elem_of_concat_map in Hf as (member & Hm & Hf). eauto 10.
  - intros (key & member & Hkey & Harr & Hm & Hf). exists key. split; [done |].
    rewrite Harr, (is_array_truthy _ _ Harr). simpl.
    apply elem_of_concat_map. eauto.
Qed.

Lemma elem_of_structure_fields sub h schema ts f :
  f ∈ structure_fields sub h schema ts <->
    (is_ref (get h schema "properties") = true /\
       ((f ∈ ts /\ has_key h (get h schema "properties") f = true) \/
        exists name, name ∈ keys h (get h schema "properties") /\
          f ∈ sub (get h (get h schema "properties") name)))
    \/ (truthy (get h schema "items") = true /\ f ∈ sub (get h schema "items"))
    \/ (get h schema "type" = VStr "object" /\
        truthy (get h schema "properties") = false /\ f ∈ ts)
    \/ (is_ref (get h schema "additionalProperties") = true /\
        f ∈ sub (get h schema "additionalProperties"))
    \/ (get h schema "additionalProperties" = VBool true /\ f ∈ ts)
    \/ (exists key member, key ∈ ["allOf"; "oneOf"; "anyOf"] /\
        is_array h (get h schema key) = true /\
        member ∈ elems_of h (get h schema key) /\ f ∈ sub member).
Proof.
  unfold structure_fields. cbv zeta.
  rewrite !object_test_is_ref, !elem_of_app.
  rewrite elem_of_additional, elem_of_composition.
  rewrite !elem_of_if_nil, !elem_of_app, elem_of_direct_keys.
  rewrite !elem_of_concat_map, !andb_true_iff, !negb_true_iff, !bool_decide_eq_true.
  tauto.
Qed.

(** ** The finder of [src/generate-types.ts] *)

Module FullFacts.
Import Full.

Lemma find_eq h schema ts depth dbg ctx :
  findFieldsInSchema h schema ts depth dbg ctx =
  if negb (truthy schema) || negb (typeof_object schema) then ret []
  else if lt_dec 10 depth then ret []
  else scan_node (fun s => findFieldsInSchema h s ts (S depth) dbg ctx)
         h schema ts depth dbg ctx.
Proof.
  rewrite findFieldsInSchema_equation_1.
  destruct (negb (truthy schema) || negb (typeof_object schema)); simpl.
  - reflexivity.
  - destruct (lt_dec 10 depth); reflexivity.
Qed.

Ltac fst_norm :=
  repeat first
    [ rewrite fst_for_push | rewrite fst_bind | rewrite fst_ret
    | match goal with
      | |- context [fst (if ?c then _ else _)] => destruct c
      end ].

Lemma fst_scan_node again h schema ts depth dbg ctx :
  fst (scan_node again h schema ts depth dbg ctx) =
  dedup (pushed_fields (fun s => fst (again s)) h schema ts).
Proof.
  unfold scan_node, pushed_fields, structure_fields. cbv zeta.
  rewrite !fst_bind, fst_ret. f_equal. rewrite <- !app_assoc.
  repeat match goal with |- _ ++ _ = _ ++ _ => f_equal end.
  all: simpl map; simpl concat.
  all: repeat match goal with |- _ ++ _ = _ ++ _ => f_equal end.
  all: fst_norm; try reflexivity.
  - f_equal. f_equal. apply map_ext. intros field.
    destruct (has_key _ _ _); [rewrite fst_bind |]; reflexivity.
  - simpl. repeat match goal with |- _ ++ _ = _ ++ _ => f_equal end.
    all: fst_norm; reflexivity.
Qed.

(** The fields the finder returns, as a function of what it returns one
    level down. *)
Lemma found_eq h schema ts depth dbg ctx :
  fst (findFieldsInSchema h schema ts depth dbg ctx) =
  if negb (truthy schema) || negb (typeof_object schema) then []
  else if lt_dec 10 depth then []
  else dedup (pushed_fields
                (fun s => fst (findFieldsInSchema h s ts (S depth) dbg ctx))
                h schema ts).
Proof.
  rewrite find_eq.
  destruct (negb (truthy schema) || negb (typeof_object schema)); [reflexivity |].
  destruct (lt_dec 10 depth); [reflexivity |].
  apply fst_scan_node.
Qed.

Lemma pushed_fields_ext sub sub' h schema ts :
  (forall s, sub s = sub' s) ->
  pushed_fields sub h schema ts = pushed_fields sub' h schema ts.
Proof.
  intros Hsub. unfold pushed_fields, structure_fields. cbv zeta.
  simpl map. simpl concat.
  rewrite !Hsub.
  repeat first
    [ reflexivity
    | match goal with
      | |- _ ++ _ = _ ++ _ => f_equal
      | |- (if ?c then _ else _) = (if ?c then _ else _) => destruct c
      | |- concat _ = concat _ => f_equal; apply map_ext; intros; apply Hsub
      end ].
Qed.

(** When a field is on [foundFields] at the return. *)
Lemma elem_of_pushed_fields sub h schema ts f :
  f ∈ pushed_fields sub h schema ts <->
    (is_ref (get h schema "properties") = true /\
       ((f ∈ ts /\ has_key h (get h schema "properties") f = true) \/
        exists name, name ∈ keys h (get h schema "properties") /\
          f ∈ sub (get h (get h schema "properties") name)))
    \/ (truthy (get h schema "items") = true /\ f ∈ sub (get h schema "items"))
    \/ (get h schema "type" = VStr "object" /\
        truthy (get h schema "properties") = false /\ f ∈ ts)
    \/ (is_ref (get h schema "additionalProperties") = true /\
        f ∈ sub (get h schema "additionalProperties"))
    \/ (get h schema "additionalProperties" = VBool true /\ f ∈ ts)
    \/ (exists key member, key ∈ ["allOf"; "oneOf"; "anyOf"] /\
        is_array h (get h schema key) = true /\
        member ∈ elems_of h (get h schema key) /\ f ∈ sub member)
    \/ (is_ref (get h schema "patternProperties") = true /\
        exists pattern, pattern ∈ keys h (get h schema "patternProperties") /\
          f ∈ sub (get h (get h schema "patternProperties") pattern))
    \/ (truthy (get h schema "discriminator") = true /\
        truthy (get h (get h schema "discriminator") "mapping") = true /\
        f ∈ ts)
    \/ (get h schema "type" = VStr "object" /\
        truthy (get h schema "properties") = false /\
        truthy (get h schema "additionalProperties") = false /\
        truthy (get h schema "patternProperties") = false /\ f ∈ ts).
Proof.
  unfold pushed_fields. cbv zeta.
  rewrite !elem_of_app, elem_of_structure_fields, !object_test_is_ref.
  rewrite !elem_of_if_nil, !elem_of_concat_map.
  rewrite !andb_true_iff, !negb_true_iff, !bool_decide_eq_true.
  tauto.
Qed.

(** The console does not feed back into the result. *)
Lemma found_erase h ts dbg ctx n :
  forall schema depth, 11 - depth <= n ->
  fst (findFieldsInSchema h schema ts depth dbg ctx) =
  fst (findFieldsInSchema h schema ts depth false no_context).
Proof.
  induction n as [| n IH]; intros schema depth Hn; rewrite !found_eq.
  - destruct (lt_dec 10 depth); [reflexivity | lia].
  - destruct (negb (truthy schema) || negb (typeof_object schema)); [reflexivity |].
    destruct (lt_dec 10 depth); [reflexivity |].
    f_equal. apply pushed_fields_ext. intros s. apply IH. lia.
Qed.

Lemma found_beyond_bound h schema ts k dbg ctx :
  findFieldsInSchema h schema ts (11 + k) dbg ctx = ret [].
Proof.
  rewrite find_eq.
  destruct (negb (truthy schema) || negb (typeof_object schema)); [reflexivity |].
  destruct (lt_dec 10 (11 + k)); [reflexivity | lia].
Qed.

Lemma found_step h schema ts depth dbg ctx f :
  is_ref schema = true -> depth <= 10 ->
  f ∈ fst (findFieldsInSchema h schema ts depth dbg ctx) <->
  f ∈ pushed_fields
        (fun s => fst (findFieldsInSchema h s ts (S depth) dbg ctx))
        h schema ts.
Proof.
  intros Href Hd. rewrite found_eq, guard_is_ref, Href. simpl.
  destruct (lt_dec 10 depth); [lia |]. apply elem_of_dedup.
Qed.

Lemma found_is_ref h schema ts depth dbg ctx f :
  f ∈ fst (findFieldsInSchema h schema ts depth dbg ctx) ->
  is_ref schema = true /\ depth <= 10.
Proof.
  rewrite found_eq, guard_is_ref. destruct (is_ref schema); simpl.
  - destruct (lt_dec 10 depth); [by intros ?%elem_of_nil | split; [done | lia]].
  - by intros ?%elem_of_nil.
Qed.

Lemma found_discoverable h ts dbg ctx n :
  forall schema depth f, 11 - depth <= n ->
  f ∈ fst (findFieldsInSchema h schema ts depth dbg ctx) ->
  discoverable h ts schema depth f.
Proof.
  induction n as [| n IH]; intros schema depth f Hn Hf.
  - apply found_is_ref in Hf as [_ ?]. lia.
  - destruct (found_is_ref _ _ _ _ _ _ _ Hf) as [Href Hd].
    apply found_step in Hf; [| done | done].
    apply elem_of_pushed_fields in Hf.
    assert (Hrec : forall s, f ∈ fst (findFieldsInSchema h s ts (S depth) dbg ctx) ->
                   discoverable h ts s (S depth) f).
    { intros s Hs. apply IH; [lia | done]. }
    destruct Hf as [[Hp [[Hf Hk] | (name & Hname & Hf)]]
      | [[Hi Hf] | [(Ht & Hp & Hf) | [[Ha Hf] | [[Ha Hf]
      | [(key & member & Hkey & Harr & Hm & Hf) | [[Hp (pattern & Hpat & Hf)]
      | [(Hdi & Hmap & Hf) | (Ht & Hp & Ha & Hpp & Hf)]]]]]]]].
    + by apply rule1_direct_key.
    + apply rule2_in_property with name; auto.
    + apply rule3_in_items; auto.
    + by apply rule4_dynamic_object.
    + apply rule5_in_additional; auto.
    + by apply rule6_additional_true.
    + apply rule7_in_composition with key member; auto.
    + apply rule8_in_pattern with pattern; auto.
    + by apply rule9_discriminator.
    + by apply rule10_free_form.
Qed.

Lemma discoverable_is_ref h ts schema depth f :
  discoverable h ts schema depth f -> is_ref schema = true.
Proof. by destruct 1. Qed.

Lemma discoverable_found h ts dbg ctx schema depth f :
  discoverable h ts schema depth f ->
  f ∈ fst (findFieldsInSchema h schema ts depth dbg ctx).
Proof.
  induction 1 as
    [ schema depth f Href Hd Hp Hf Hk
    | schema depth f name Href Hd Hp Hname Hsub IH
    | schema depth f Href Hd Hsub IH
    | schema depth f Href Hd Ht Hp Hf
    | schema depth f Href Hd Hsub IH
    | schema depth f Href Hd Ha Hf
    | schema depth f key member Href Hd Hkey Harr Hm Hsub IH
    | schema depth f pattern Href Hd Hp Hpat Hsub IH
    | schema depth f Href Hd Hdi Hmap Hf
    | schema depth f Href Hd Ht Hp Ha Hpp Hf ];
    apply found_step; try done; apply elem_of_pushed_fields.
  - left. eauto.
  - left. eauto.
  - right; left. split; [| done].
    apply is_ref_truthy, (discoverable_is_ref _ _ _ _ _ Hsub).
  - do 2 right; left. eauto.
  - do 3 right; left. split; [| done].
    apply (discoverable_is_ref _ _ _ _ _ Hsub).
  - do 4 right; left. eauto.
  - do 5 right; left. eauto 10.
  - do 6 right; left. eauto.
  - do 7 right; left. eauto.
  - do 8 right. eauto.
Qed.

Lemma discoverable_target h ts schema depth f :
  discoverable h ts schema depth f -> f ∈ ts.
Proof. induction 1; done. Qed.

Lemma found_NoDup h schema ts depth dbg ctx :
  NoDup (fst (findFieldsInSchema h schema ts depth dbg ctx)).
Proof.
  rewrite found_eq.
  destruct (negb (truthy schema) || negb (typeof_object schema));
    [apply NoDup_nil_2 |].
  destruct (lt_dec 10 depth); [apply NoDup_nil_2 | apply NoDup_dedup].
Qed.

End FullFacts.

(** ** The finder of [src/simple-generate-types.ts] *)

Module SimpleFacts.
Import Simple.

Lemma simple_find_eq h schema ts depth doc :
  findFieldsInSchema h schema ts depth doc =
  if negb (truthy schema) || negb (typeof_object schema) then Ok []
  else if lt_dec 10 depth then Ok []
  else scan_node (fun s => findFieldsInSchema h s ts (S depth) doc)
         h schema ts doc.
Proof.
  rewrite findFieldsInSchema_equation_1.
  destruct (negb (truthy schema) || negb (typeof_object schema)); simpl.
  - reflexivity.
  - destruct (lt_dec 10 depth); reflexivity.
Qed.

Lemma prop_ref h v k : is_ref v = true -> prop h v k = Ok (get h v k).
Proof. by destruct v. Qed.

Lemma prop_truthy h v k : truthy v = true -> prop h v k = Ok (get h v k).
Proof. by destruct v. Qed.

Lemma for_collect_ok {X} (xs : list X) (body : X -> result (list string))
  (pure : X -> list string) :
  (forall x, x ∈ xs -> body x = Ok (pure x)) ->
  for_collect xs body = Ok (concat (map pure xs)).
Proof.
  induction xs as [| x xs IH]; intros Hbody; simpl; [reflexivity |].
  rewrite Hbody by apply list_elem_of_here. simpl.
  rewrite IH; [reflexivity |].
  intros y Hy. apply Hbody. by apply list_elem_of_further.
Qed.

(** The checked walk agrees with the pure one from a truthy start. *)
Lemma resolve_segments_walk h v path :
  truthy v = true -> resolve_segments h v path = Ok (walk h v path).
Proof.
  revert v. induction path as [| seg rest IH]; intros v Hv; simpl; [reflexivity |].
  rewrite (prop_truthy _ _ _ Hv). simpl.
  destruct (truthy (get h v seg)) eqn:Hnext; simpl; [by apply IH | reflexivity].
Qed.

Lemma via_ref_ok again sub h schema doc :
  is_ref schema = true ->
  (forall s, again s = Ok (sub s)) ->
  via_ref again h schema doc = Ok (ref_fields sub h schema doc).
Proof.
  intros Href Hagain. unfold via_ref, ref_fields.
  rewrite (prop_ref _ _ _ Href). simpl.
  destruct (truthy (get h schema "$ref")) eqn:Htr; simpl.
  - destruct (truthy doc) eqn:Hdoc; simpl.
    + destruct (get h schema "$ref") as [| | b | n | r | l] eqn:Hr;
        simpl in *; try reflexivity.
      rewrite Htr. simpl. unfold resolve.
      rewrite (resolve_segments_walk _ _ _ Hdoc). simpl.
      destruct (truthy (walk _ _ _)); simpl; [by rewrite Hagain | reflexivity].
    + destruct (get h schema "$ref"); try reflexivity.
      by rewrite andb_false_r.
  - destruct (get h schema "$ref"); try reflexivity.
    simpl in Htr. by rewrite Htr.
Qed.

Lemma iterate_array h v : is_array h v = true -> iterate h v = Ok (elems_of h v).
Proof.
  destruct v as [| | | | | l]; simpl; try done. by destruct (h l).
Qed.

Lemma properties_block_ok again sub h properties ts :
  (forall s, again s = Ok (sub s)) ->
  (if truthy properties && typeof_object properties then
     let* direct := for_collect ts (fun field =>
       let* present := in_op h field properties in
       Ok (if present then [field] else [])) in
     let* nested := for_collect (keys h properties) (fun name =>
       let* nestedSchema := prop h properties name in
       again nestedSchema) in
     Ok (direct ++ nested)
   else Ok []) =
  Ok (if truthy properties && typeof_object properties then
        concat (map (fun field =>
          if has_key h properties field then [field] else []) ts)
        ++ concat (map (fun name => sub (get h properties name))
                     (keys h properties))
      else []).
Proof.
  intros Hagain. rewrite object_test_is_ref.
  destruct (is_ref properties) eqn:Hp; [| reflexivity].
  rewrite (for_collect_ok ts _
    (fun field => if has_key h properties field then [field] else [])).
  - simpl. rewrite (for_collect_ok (keys h properties) _
      (fun name => sub (get h properties name))); [reflexivity |].
    intros name _. rewrite (prop_ref _ _ _ Hp). simpl. apply Hagain.
  - intros field _. destruct properties; try done.
Qed.

Lemma composition_block_ok again sub h schema key :
  is_ref schema = true ->
  (forall s, again s = Ok (sub s)) ->
  (let* combined := prop h schema key in
   if truthy combined && is_array h combined then
     let* subSchemas := iterate h combined in
     for_collect subSchemas again
   else Ok []) =
  Ok (if truthy (get h schema key) && is_array h (get h schema key)
      then concat (map sub (elems_of h (get h schema key))) else []).
Proof.
  intros Href Hagain. rewrite (prop_ref _ _ _ Href). simpl.
  destruct (truthy (get h schema key)); simpl; [| reflexivity].
  destruct (is_array h (get h schema key)) eqn:Harr; [| reflexivity].
  rewrite (iterate_array _ _ Harr). simpl.
  apply for_collect_ok. intros s _. apply Hagain.
Qed.

Lemma via_structure_ok again sub h schema ts :
  is_ref schema = true ->
  (forall s, again s = Ok (sub s)) ->
  via_structure again h schema ts = Ok (structure_fields sub h schema ts).
Proof.
  intros Href Hagain. unfold via_structure, structure_fields. cbv zeta.
  rewrite !(prop_ref _ _ _ Href). simpl rbind.
  rewrite (properties_block_ok _ sub) by done. simpl rbind.
  rewrite !Hagain.
  rewrite !(composition_block_ok _ sub) by done. simpl rbind.
  simpl map. simpl concat.
  repeat match goal with
         | |- context [rbind (if ?c then _ else _) _] => destruct c; simpl rbind
         end; reflexivity.
Qed.

Lemma scan_node_ok again sub h schema ts doc :
  is_ref schema = true ->
  (forall s, again s = Ok (sub s)) ->
  scan_node again h schema ts doc =
  Ok (dedup (ref_fields sub h schema doc ++ structure_fields sub h schema ts)).
Proof.
  intros Href Hagain. unfold scan_node.
  rewrite (via_ref_ok _ sub), (via_structure_ok _ sub) by done. reflexivity.
Qed.

(** The finder returns a list, whatever it is given. *)
Lemma find_ok h ts doc n :
  forall schema depth, 11 - depth <= n ->
  findFieldsInSchema h schema ts depth doc = Ok (found h schema ts depth doc).
Proof.
  induction n as [| n IH]; intros schema depth Hn; unfold found;
    rewrite simple_find_eq, guard_is_ref.
  - destruct (negb (is_ref schema)); [reflexivity |].
    destruct (lt_dec 10 depth); [reflexivity | lia].
  - destruct (is_ref schema) eqn:Href; [| reflexivity]. simpl.
    destruct (lt_dec 10 depth); [reflexivity |].
    rewrite (scan_node_ok _ (fun s => found h s ts (S depth) doc)); [done | done |].
    intros s. apply IH. lia.
Qed.

Lemma simple_found_eq h schema ts depth doc :
  found h schema ts depth doc =
  if negb (is_ref schema) then []
  else if lt_dec 10 depth then []
  else dedup (ref_fields (fun s => found h s ts (S depth) doc) h schema doc
              ++ structure_fields (fun s => found h s ts (S depth) doc)
                   h schema ts).
Proof.
  unfold found at 1. rewrite simple_find_eq, guard_is_ref.
  destruct (is_ref schema) eqn:Href; [| reflexivity]. simpl.
  destruct (lt_dec 10 depth); [reflexivity |].
  rewrite (scan_node_ok _ (fun s => found h s ts (S depth) doc)); [done | done |].
  intros s. apply (find_ok h ts doc (11 - S depth)). lia.
Qed.

Lemma simple_found_step h schema ts depth doc f :
  is_ref schema = true -> depth <= 10 ->
  f ∈ found h schema ts depth doc <->
  f ∈ ref_fields (fun s => found h s ts (S depth) doc) h schema doc \/
  f ∈ structure_fields (fun s => found h s ts (S depth) doc) h schema ts.
Proof.
  intros Href Hd. rewrite simple_found_eq, Href. simpl.
  destruct (lt_dec 10 depth); [lia |].
  by rewrite elem_of_dedup, elem_of_app.
Qed.

Lemma simple_found_is_ref h schema ts depth doc f :
  f ∈ found h schema ts depth doc -> is_ref schema = true /\ depth <= 10.
Proof.
  rewrite simple_found_eq. destruct (is_ref schema); simpl.
  - destruct (lt_dec 10 depth); [by intros ?%elem_of_nil | split; [done | lia]].
  - by intros ?%elem_of_nil.
Qed.

Lemma simple_found_beyond_bound h schema ts k doc :
  findFieldsInSchema h schema ts (11 + k) doc = Ok [].
Proof.
  rewrite simple_find_eq.
  destruct (negb (truthy schema) || negb (typeof_object schema)); [reflexivity |].
  destruct (lt_dec 10 (11 + k)); [reflexivity | lia].
Qed.

Lemma elem_of_ref_fields sub h schema doc f :
  f ∈ ref_fields sub h schema doc <->
  exists ref, get h schema "$ref" = VStr ref /\
    truthy (VStr ref) = true /\ truthy doc = true /\
    truthy (resolve h doc ref) = true /\ f ∈ sub (resolve h doc ref).
Proof.
  unfold ref_fields. split.
  - destruct (get h schema "$ref") as [| | | | ref |];
      try by intros ?%elem_of_nil.
    intros Hf%elem_of_if_nil. destruct Hf as [Hc Hf].
    apply andb_true_iff in Hc as [[H1 H2]%andb_true_iff H3]. eauto 10.
  - intros (ref & -> & H1 & H2 & H3 & Hf).
    apply elem_of_if_nil. by rewrite H1, H2, H3.
Qed.

Lemma simple_found_discoverable h ts doc n :
  forall schema depth f, 11 - depth <= n ->
  f ∈ found h schema ts depth doc -> discoverable h ts doc schema depth f.
Proof.
  induction n as [| n IH]; intros schema depth f Hn Hf.
  - apply simple_found_is_ref in Hf as [_ ?]. lia.
  - destruct (simple_found_is_ref _ _ _ _ _ _ Hf) as [Href Hd].
    apply simple_found_step in Hf; [| done | done].
    assert (Hrec : forall s, f ∈ found h s ts (S depth) doc ->
                   discoverable h ts doc s (S depth) f).
    { intros s Hs. apply IH; [lia | done]. }
    destruct Hf as [Hf | Hf].
    + apply elem_of_ref_fields in Hf as (ref & Hr & H1 & H2 & H3 & Hf).
      apply rule11_via_ref with ref; auto.
    + apply elem_of_structure_fields in Hf.
      destruct Hf as [[Hp [[Hf Hk] | (name & Hname & Hf)]]
        | [[Hi Hf] | [(Ht & Hp & Hf) | [[Ha Hf] | [[Ha Hf]
        | (key & member & Hkey & Harr & Hm & Hf)]]]]].
      * by apply rule1_direct_key.
      * apply rule2_in_property with name; auto.
      * apply rule3_in_items; auto.
      * by apply rule4_dynamic_object.
      * apply rule5_in_additional; auto.
      * by apply rule6_additional_true.
      * apply rule7_in_composition with key member; auto.
Qed.

Lemma simple_discoverable_is_ref h ts doc schema depth f :
  discoverable h ts doc schema depth f -> is_ref schema = true.
Proof. by destruct 1. Qed.

Lemma simple_discoverable_found h ts doc schema depth f :
  discoverable h ts doc schema depth f -> f ∈ found h schema ts depth doc.
Proof.
  induction 1 as
    [ schema depth f ref Href Hd Hr H1 H2 Hsub IH
    | schema depth f Href Hd Hp Hf Hk
    | schema depth f name Href Hd Hp Hname Hsub IH
    | schema depth f Href Hd Hsub IH
    | schema depth f Href Hd Ht Hp Hf
    | schema depth f Href Hd Hsub IH
    | schema depth f Href Hd Ha Hf
    | schema depth f key member Href Hd Hkey Harr Hm Hsub IH ];
    apply simple_found_step; try done.
  - left. apply elem_of_ref_fields. exists ref. split_and!; try done.
    apply is_ref_truthy, (simple_discoverable_is_ref _ _ _ _ _ _ Hsub).
  - right. apply elem_of_structure_fields. left. eauto.
  - right. apply elem_of_structure_fields. left. eauto.
  - right. apply elem_of_structure_fields. right; left. split; [| done].
    apply is_ref_truthy, (simple_discoverable_is_ref _ _ _ _ _ _ Hsub).
  - right. apply elem_of_structure_fields. do 2 right; left. eauto.
  - right. apply elem_of_structure_fields. do 3 right; left. split; [| done].
    apply (simple_discoverable_is_ref _ _ _ _ _ _ Hsub).
  - right. apply elem_of_structure_fields. do 4 right; left. eauto.
  - right. apply elem_of_structure_fields. do 5 right. eauto 10.
Qed.

Lemma simple_discoverable_target h ts doc schema depth f :
  discoverable h ts doc schema depth f -> f ∈ ts.
Proof. induction 1; done. Qed.

Lemma simple_found_NoDup h schema ts depth doc : NoDup (found h schema ts depth doc).
Proof.
  rewrite simple_found_eq. destruct (negb (is_ref schema)); [apply NoDup_nil_2 |].
  destruct (lt_dec 10 depth); [apply NoDup_nil_2 | apply NoDup_dedup].
Qed.

End SimpleFacts.

(** ** Sorting path strings *)

Section string_order.

Lemma ascii_compare_lt_trans a b c :
  Ascii.compare a b = Lt -> Ascii.compare b c = Lt -> Ascii.compare a c = Lt.
Proof.
  unfold Ascii.compare. rewrite !N.compare_lt_iff. lia.
Qed.

Lemma string_compare_le_trans s1 s2 s3 :
  String.compare s1 s2 <> Gt -> String.compare s2 s3 <> Gt ->
  String.compare s1 s3 <> Gt.
Proof.
  revert s2 s3. induction s1 as [| a s1 IH]; intros [| b s2] [| c s3]; simpl;
    try done.
  destruct (Ascii.compare a b) eqn:Hab; [| | done].
  - apply Ascii.compare_eq_iff in Hab as ->.
    destruct (Ascii.compare b c) eqn:Hbc; [| done | done].
    apply IH.
  - intros _. destruct (Ascii.compare b c) eqn:Hbc; [| | done].
    + apply Ascii.compare_eq_iff in Hbc as ->. by rewrite Hab.
    + by rewrite (ascii_compare_lt_trans _ _ _ Hab Hbc).
Qed.

Lemma str_le_compare a b : Full.str_le a b <-> String.compare a b <> Gt.
Proof.
  unfold Full.str_le, String.leb. destruct (String.compare a b); split; done.
Qed.

#[global] Instance str_le_trans : Transitive Full.str_le.
Proof.
  intros a b c. rewrite !str_le_compare. apply string_compare_le_trans.
Qed.

#[global] Instance str_le_total : Total Full.str_le.
Proof. intros a b. apply String.leb_total. Qed.

#[global] Instance str_le_antisym : AntiSymm (=) Full.str_le.
Proof. intros a b. apply String.leb_antisym. Qed.

End string_order.

Module ScanFacts.
Import Full.

(** A list of paths as the scanners return it. *)
Lemma sorted_array_sorted set : StronglySorted str_le (sorted_array set).
Proof. apply StronglySorted_merge_sort; apply _. Qed.

Lemma sorted_array_perm set : sorted_array set ≡ₚ set.
Proof. apply merge_sort_Permutation. Qed.

Lemma elem_of_sorted_array set x : x ∈ sorted_array set <-> x ∈ set.
Proof. by rewrite sorted_array_perm. Qed.

Lemma sorted_array_NoDup set : NoDup set -> NoDup (sorted_array set).
Proof. by rewrite sorted_array_perm. Qed.

(** The sorted array depends on the members of the set only, not on the
    order they were added in. *)
Lemma sorted_array_canonical set set' :
  NoDup set -> NoDup set' -> (forall x, x ∈ set <-> x ∈ set') ->
  sorted_array set = sorted_array set'.
Proof.
  intros Hs Hs' Hmem.
  apply (StronglySorted_unique str_le); try apply sorted_array_sorted.
  rewrite !sorted_array_perm. by apply NoDup_Permutation.
Qed.

(** Loops that thread a state *)

Lemma for_each_inv {X S} (P : S -> Prop) (xs : list X)
  (body : X -> S -> result S) (st st' : S) :
  P st ->
  (forall x s s', x ∈ xs -> P s -> body x s = Ok s' -> P s') ->
  for_each xs body st = Ok st' -> P st'.
Proof.
  revert st. induction xs as [| x xs IH]; intros st Hst Hbody; simpl.
  - by intros [= <-].
  - destruct (body x st) as [s1 |] eqn:Hx; simpl; [| done].
    apply IH.
    + eapply Hbody; [apply list_elem_of_here | done | done].
    + intros y s s' Hy. apply Hbody. by apply list_elem_of_further.
Qed.

Lemma for_each_reach {X S} (R : S -> S -> Prop) (Q : S -> Prop) (xs : list X)
  (body : X -> S -> result S) (x : X) (st st' : S) :
  (forall s, R s s) ->
  (forall s1 s2 s3, R s1 s2 -> R s2 s3 -> R s1 s3) ->
  (forall y s s', y ∈ xs -> body y s = Ok s' -> R s s') ->
  (forall s s', body x s = Ok s' -> Q s') ->
  (forall s s', R s s' -> Q s -> Q s') ->
  x ∈ xs ->
  for_each xs body st = Ok st' -> Q st'.
Proof.
  intros Hrefl Htrans Hmono Hx Hup.
  assert (Hgrow : forall ys s s', (forall y, y ∈ ys -> y ∈ xs) ->
            for_each ys body s = Ok s' -> R s s').
  { induction ys as [| y ys IH]; intros s s' Hsub; simpl.
    - intros [= <-]. apply Hrefl.
    - destruct (body y s) as [s1 |] eqn:Hy; simpl; [| done].
      intros Hrest. apply Htrans with s1.
      + eapply Hmono; [| done]. apply Hsub, list_elem_of_here.
      + apply IH; [| done]. intros z Hz. by apply Hsub, list_elem_of_further. }
  assert (Hgen : forall ys s, (forall y, y ∈ ys -> y ∈ xs) -> x ∈ ys ->
            for_each ys body s = Ok st' -> Q st').
  { induction ys as [| y ys IH]; intros s Hsub Hin; simpl.
    - by apply elem_of_nil in Hin.
    - destruct (body y s) as [s1 |] eqn:Hy; simpl; [| done].
      intros Hrest. apply elem_of_cons in Hin as [<- | Hin].
      + apply Hup with s1; [| by eapply Hx].
        apply Hgrow with ys; [| done].
        intros z Hz. by apply Hsub, list_elem_of_further.
      + apply IH with s1; [| done | done].
        intros z Hz. by apply Hsub, list_elem_of_further. }
  intros Hin. apply Hgen; done.
Qed.

Lemma for_each_operation_inv {S} (P : S -> Prop) h paths
  (body : string -> string -> value -> S -> result S) (st st' : S) :
  P st ->
  (forall path method s s',
     path ∈ keys h paths -> method ∈ HTTP_METHODS ->
     P s -> body path method (get h (get h paths path) method) s = Ok s' ->
     P s') ->
  for_each_operation h paths body st = Ok st' -> P st'.
Proof.
  intros Hst Hbody. unfold for_each_operation.
  apply for_each_inv; [done |].
  intros path s s' Hpath Hs. cbv zeta.
  destruct (negb (truthy (get h paths path))); [by intros [= <-] |].
  apply for_each_inv; [done |].
  intros method s1 s2 Hmethod. cbv zeta. by apply Hbody.
Qed.

Lemma for_each_operation_reach {S} (R : S -> S -> Prop) (Q : S -> Prop) h paths
  (body : string -> string -> value -> S -> result S)
  (path method : string) (st st' : S) :
  (forall s, R s s) ->
  (forall s1 s2 s3, R s1 s2 -> R s2 s3 -> R s1 s3) ->
  (forall p m operation s s', body p m operation s = Ok s' -> R s s') ->
  (forall s s',
     body path method (get h (get h paths path) method) s = Ok s' -> Q s') ->
  (forall s s', R s s' -> Q s -> Q s') ->
  path ∈ keys h paths ->
  truthy (get h paths path) = true ->
  method ∈ HTTP_METHODS ->
  for_each_operation h paths body st = Ok st' -> Q st'.
Proof.
  intros Hrefl Htrans Hmono Hx Hup Hpath Hitem Hmethod.
  unfold for_each_operation.
  apply (for_each_reach R Q) with (x := path); try done.
  - intros p s s' _. cbv zeta.
    destruct (negb (truthy (get h paths p))); [intros [= <-]; apply Hrefl |].
    apply (for_each_inv (R s)); [apply Hrefl |].
    intros m s1 s2 _ Hs1 Hb. cbv zeta in Hb. eauto.
  - intros s s'. cbv zeta. rewrite Hitem. cbn [negb].
    apply (for_each_reach R Q) with (x := method); try done.
    intros m s1 s2 _ Hb. cbv zeta in Hb. eauto.
Qed.

(** Buckets *)

Lemma in_bucket_add_to_group sets group path key p :
  in_bucket (add_to_group group path sets) key p <->
  (key = group /\ p = path) \/ in_bucket sets key p.
Proof.
  unfold in_bucket, add_to_group. destruct (decide (group = key)) as [-> | Hne].
  - rewrite lookup_insert_eq. split.
    + intros (set & [= <-] & Hp). apply elem_of_set_add in Hp as [-> | Hp]; [auto |].
      right. destruct (sets !! key) as [s |] eqn:Hs; simpl in Hp; [eauto |].
      by apply elem_of_nil in Hp.
    + intros [[_ ->] | (set & Hs & Hp)]; eexists; (split; [done |]);
        apply elem_of_set_add; [auto |]. right. by rewrite Hs.
  - rewrite lookup_insert_ne by done. split; [auto |].
    intros [[-> _] | H]; done.
Qed.

Lemma buckets_no_dup_add_to_group sets group path :
  buckets_no_dup sets -> buckets_no_dup (add_to_group group path sets).
Proof.
  intros Hs key set. unfold add_to_group.
  destruct (decide (group = key)) as [-> | Hne].
  - rewrite lookup_insert_eq. intros [= <-]. apply NoDup_set_add.
    destruct (sets !! key) as [s |] eqn:Hk; simpl; [by eapply Hs | apply NoDup_nil_2].
  - rewrite lookup_insert_ne by done. apply Hs.
Qed.

Lemma buckets_no_dup_empty : buckets_no_dup ∅.
Proof. intros key set. by rewrite lookup_empty. Qed.

Lemma grows_refl agg : grows agg agg.
Proof. split; auto. Qed.

Lemma grows_trans a1 a2 a3 : grows a1 a2 -> grows a2 a3 -> grows a1 a3.
Proof. intros [H1 H2] [H3 H4]. split; auto. Qed.

(** One [Set.add] on each of the two aggregates *)

Lemma field_step_grows agg f path set :
  fieldPaths agg !! f = Some set ->
  grows agg (Aggregates (<[f := set_add path set]> (fieldPaths agg))
               (groupFieldPaths agg)).
Proof.
  intros Hset. split; [| done].
  intros field p (s & Hs & Hp). unfold in_field, in_bucket. simpl.
  destruct (decide (f = field)) as [-> | Hne].
  - rewrite lookup_insert_eq. eexists; split; [done |].
    apply elem_of_set_add. right. congruence.
  - rewrite lookup_insert_ne by done. eauto.
Qed.

Lemma field_step_adds agg f path set :
  in_field (Aggregates (<[f := set_add path set]> (fieldPaths agg))
              (groupFieldPaths agg)) f path.
Proof.
  unfold in_field, in_bucket. simpl. rewrite lookup_insert_eq.
  eexists; split; [done |]. apply elem_of_set_add. auto.
Qed.

Lemma field_step_no_dup agg f path set :
  fieldPaths agg !! f = Some set -> sets_no_dup agg ->
  sets_no_dup (Aggregates (<[f := set_add path set]> (fieldPaths agg))
                 (groupFieldPaths agg)).
Proof.
  intros Hset (Hf & Hg & Hdom). split_and!; simpl; [| done |].
  - intros key s. destruct (decide (f = key)) as [-> | Hne].
    + rewrite lookup_insert_eq. intros [= <-]. apply NoDup_set_add. by eapply Hf.
    + rewrite lookup_insert_ne by done. apply Hf.
  - intros field. rewrite <- Hdom. destruct (decide (f = field)) as [-> | Hne].
    + rewrite lookup_insert_eq, Hset. split; eauto.
    + by rewrite lookup_insert_ne.
Qed.

Lemma group_step_grows agg f group path sets :
  groupFieldPaths agg !! f = Some sets ->
  grows agg (Aggregates (fieldPaths agg)
               (<[f := add_to_group group path sets]> (groupFieldPaths agg))).
Proof.
  intros Hsets. split; [done |].
  intros field g p (ss & Hss & Hp). unfold in_group. simpl.
  destruct (decide (f = field)) as [-> | Hne].
  - rewrite lookup_insert_eq. eexists; split; [done |].
    apply in_bucket_add_to_group. right. congruence.
  - rewrite lookup_insert_ne by done. eauto.
Qed.

Lemma group_step_adds agg f group path sets :
  in_group (Aggregates (fieldPaths agg)
              (<[f := add_to_group group path sets]> (groupFieldPaths agg)))
    f group path.
Proof.
  unfold in_group. simpl. rewrite lookup_insert_eq. eexists; split; [done |].
  apply in_bucket_add_to_group. auto.
Qed.

Lemma group_step_no_dup agg f group path sets :
  groupFieldPaths agg !! f = Some sets -> sets_no_dup agg ->
  sets_no_dup (Aggregates (fieldPaths agg)
                 (<[f := add_to_group group path sets]> (groupFieldPaths agg))).
Proof.
  intros Hsets (Hf & Hg & Hdom). split_and!; simpl; [done | |].
  - intros field ss. destruct (decide (f = field)) as [-> | Hne].
    + rewrite lookup_insert_eq. intros [= <-].
      apply buckets_no_dup_add_to_group. by eapply Hg.
    + rewrite lookup_insert_ne by done. apply Hg.
  - intros field. rewrite Hdom. destruct (decide (f = field)) as [-> | Hne].
    + rewrite lookup_insert_eq, Hsets. split; eauto.
    + by rewrite lookup_insert_ne.
Qed.

(** [record_field] *)

Lemma record_field_inv h path tags f agg agg' :
  sets_no_dup agg -> record_field h path tags f agg = Ok agg' ->
  sets_no_dup agg'.
Proof.
  intros Hagg. unfold record_field.
  destruct (fieldPaths agg !! f) as [set |] eqn:Hset; [| done]. cbv zeta.
  destruct (groups_of h tags) as [groups |]; [| done]. simpl rbind.
  apply for_each_inv; [by apply field_step_no_dup |].
  intros group s s' _ Hs.
  destruct (groupFieldPaths s !! f) as [sets |] eqn:Hsets; [| done].
  intros [= <-]. by apply group_step_no_dup.
Qed.

Lemma record_field_grows h path tags f agg agg' :
  record_field h path tags f agg = Ok agg' -> grows agg agg'.
Proof.
  unfold record_field.
  destruct (fieldPaths agg !! f) as [set |] eqn:Hset; [| done]. cbv zeta.
  destruct (groups_of h tags) as [groups |]; [| done]. simpl rbind.
  apply (for_each_inv (grows agg)); [by apply field_step_grows |].
  intros group s s' _ Hs.
  destruct (groupFieldPaths s !! f) as [sets |] eqn:Hsets; [| done].
  intros [= <-]. eapply grows_trans; [done |]. by apply group_step_grows.
Qed.

Lemma in_field_grows a a' f p : grows a a' -> in_field a f p -> in_field a' f p.
Proof. intros [H _]. apply H. Qed.

Lemma in_group_grows a a' f g p :
  grows a a' -> in_group a f g p -> in_group a' f g p.
Proof. intros [_ H]. apply H. Qed.

Lemma record_field_adds h path tags f agg agg' :
  record_field h path tags f agg = Ok agg' ->
  in_field agg' f path /\
  exists groups, groups_of h tags = Ok groups /\
    forall group, group ∈ groups -> in_group agg' f group path.
Proof.
  unfold record_field.
  destruct (fieldPaths agg !! f) as [set |] eqn:Hset; [| done]. cbv zeta.
  destruct (groups_of h tags) as [groups |]; [| done]. simpl rbind.
  intros Hloop.
  assert (Hstep : forall group s s',
    match groupFieldPaths s !! f with
    | Some sets =>
        Ok (Aggregates (fieldPaths s)
              (<[f := add_to_group group path sets]> (groupFieldPaths s)))
    | None => Throw TypeError
    end = Ok s' -> grows s s' /\ in_group s' f group path).
  { intros group s s'.
    destruct (groupFieldPaths s !! f) as [sets |] eqn:Hsets; [| done].
    intros [= <-]. split; [by apply group_step_grows | apply group_step_adds]. }
  split.
  - revert Hloop. apply (for_each_inv (fun s => in_field s f path)).
    + apply field_step_adds.
    + intros group s s' _ Hs Hb. apply Hstep in Hb as [Hg _].
      by eapply in_field_grows.
  - exists groups. split; [done |]. intros group Hgroup. revert Hloop.
    apply (for_each_reach grows (fun s => in_group s f group path))
      with (x := group); auto using grows_refl.
    + apply grows_trans.
    + intros g s s' _ Hb. by apply Hstep in Hb as [? _].
    + intros s s' Hb. by apply Hstep in Hb as [_ ?].
    + intros s s'. apply in_group_grows.
Qed.

(** [scan_content] *)

Lemma scan_content_inv h ts path method loc tags content agg agg' :
  sets_no_dup agg ->
  scan_content h ts path method loc tags content agg = Ok agg' ->
  sets_no_dup agg'.
Proof.
  intros Hagg. unfold scan_content. apply for_each_inv; [done |].
  intros mediaType s s' _ Hs. cbv zeta.
  destruct (prop h (get h content mediaType) "schema") as [schema |]; [| done].
  simpl rbind. destruct (truthy schema); [| by intros [= <-]].
  apply for_each_inv; [done |].
  intros f s1 s2 _. apply record_field_inv.
Qed.

Lemma scan_content_grows h ts path method loc tags content agg agg' :
  scan_content h ts path method loc tags content agg = Ok agg' ->
  grows agg agg'.
Proof.
  unfold scan_content. apply (for_each_inv (grows agg)); [apply grows_refl |].
  intros mediaType s s' _ Hs. cbv zeta.
  destruct (prop h (get h content mediaType) "schema") as [schema |]; [| done].
  simpl rbind. destruct (truthy schema); [| by intros [= <-]].
  apply for_each_inv; [done |].
  intros f s1 s2 _ Hs1 Hb. eapply grows_trans; [done |].
  by eapply record_field_grows.
Qed.

(** A field the finder reports under some media type of [content] is
    recorded for the path, globally and under every group. *)
Lemma scan_content_adds h ts path method loc tags content agg agg' mediaType f :
  scan_content h ts path method loc tags content agg = Ok agg' ->
  mediaType ∈ keys h content ->
  f ∈ fst (findFieldsInSchema h (get h (get h content mediaType) "schema") ts
             0 true (Context (Some path) (Some method) (Some loc))) ->
  in_field agg' f path /\
  exists groups, groups_of h tags = Ok groups /\
    forall group, group ∈ groups -> in_group agg' f group path.
Proof.
  intros Hscan Hmedia Hf.
  set (Q := fun s : aggregates => in_field s f path /\
    exists groups, groups_of h tags = Ok groups /\
      forall group, group ∈ groups -> in_group s f group path).
  change (Q agg'). revert Hscan. unfold scan_content.
  assert (Hup : forall s s', grows s s' -> Q s -> Q s').
  { intros s s' Hg [Hfield (groups & Hgroups & Hall)].
    split; [by eapply in_field_grows |].
    exists groups. split; [done |]. intros g Hg'.
    eapply in_group_grows; eauto. }
  apply (for_each_reach grows Q) with (x := mediaType);
    auto using grows_refl.
  - apply grows_trans.
  - intros m s s' _. cbv zeta.
    destruct (prop h (get h content m) "schema") as [schema |]; [| done].
    simpl rbind. destruct (truthy schema); [| intros [= <-]; apply grows_refl].
    apply (for_each_inv (grows s)); [apply grows_refl |].
    intros f' s1 s2 _ Hs1 Hb. eapply grows_trans; [done |].
    by eapply record_field_grows.
  - intros s s'. cbv zeta. unfold prop.
    destruct (nullish (get h content mediaType)); [done |]. simpl rbind.
    destruct (truthy (get h (get h content mediaType) "schema")) eqn:Hschema.
    + apply (for_each_reach grows Q) with (x := f); auto using grows_refl.
      * apply grows_trans.
      * intros f' s1 s2 _. apply record_field_grows.
      * intros s1 s2. apply record_field_adds.
    + apply FullFacts.found_is_ref in Hf as [Href _].
      apply is_ref_truthy in Href. congruence.
Qed.

Lemma keys_truthy h v k : k ∈ keys h v -> truthy v = true.
Proof.
  destruct v as [| | | | s | l]; simpl; try by intros ?%elem_of_nil.
  - destruct s; [by intros ?%elem_of_nil | done].
  - done.
Qed.

Lemma get_truthy_receiver h v k : truthy (get h v k) = true -> truthy v = true.
Proof.
  destruct v as [| | | | s | l]; try done. destruct s; [| done].
  unfold get. simpl. by destruct (String.eqb k "length").
Qed.

(** The per-operation blocks *)

Lemma scan_responses_inv h ts path method operation agg agg' :
  sets_no_dup agg ->
  scan_responses h ts path method operation agg = Ok agg' -> sets_no_dup agg'.
Proof.
  intros Hagg. unfold scan_responses.
  destruct (truthy operation && truthy (get h operation "responses"));
    [| by intros [= <-]]. cbv zeta.
  apply for_each_inv; [done |].
  intros code s s' _ Hs. cbv zeta.
  destruct (truthy _ && truthy _); [| by intros [= <-]].
  by apply scan_content_inv.
Qed.

Lemma scan_responses_grows h ts path method operation agg agg' :
  scan_responses h ts path method operation agg = Ok agg' -> grows agg agg'.
Proof.
  unfold scan_responses.
  destruct (truthy operation && truthy (get h operation "responses"));
    [| intros [= <-]; apply grows_refl]. cbv zeta.
  apply (for_each_inv (grows agg)); [apply grows_refl |].
  intros code s s' _ Hs. cbv zeta.
  destruct (truthy _ && truthy _); [| by intros [= <-]].
  intros Hb. eapply grows_trans; [done |]. by eapply scan_content_grows.
Qed.

Lemma scan_request_body_inv h ts path method operation agg agg' :
  sets_no_dup agg ->
  scan_request_body h ts path method operation agg = Ok agg' ->
  sets_no_dup agg'.
Proof.
  intros Hagg. unfold scan_request_body.
  destruct (truthy operation && truthy (get h operation "requestBody"));
    [| by intros [= <-]]. cbv zeta.
  destruct (truthy _); [| by intros [= <-]].
  by apply scan_content_inv.
Qed.

Lemma scan_request_body_grows h ts path method operation agg agg' :
  scan_request_body h ts path method operation agg = Ok agg' -> grows agg agg'.
Proof.
  unfold scan_request_body.
  destruct (truthy operation && truthy (get h operation "requestBody"));
    [| intros [= <-]; apply grows_refl]. cbv zeta.
  destruct (truthy _); [| intros [= <-]; apply grows_refl].
  apply scan_content_grows.
Qed.

Lemma recorded_grows h tags f path s s' :
  grows s s' -> recorded h tags f path s -> recorded h tags f path s'.
Proof.
  intros Hg [Hfield (groups & Hgroups & Hall)].
  split; [by eapply in_field_grows |].
  exists groups. split; [done |]. intros g Hg'.
  eapply in_group_grows; eauto.
Qed.

Lemma scan_responses_adds h ts path method operation agg agg' code mediaType f :
  scan_responses h ts path method operation agg = Ok agg' ->
  truthy operation = true ->
  code ∈ keys h (get h operation "responses") ->
  let content := get h (get h (get h operation "responses") code) "content" in
  mediaType ∈ keys h content ->
  f ∈ fst (findFieldsInSchema h (get h (get h content mediaType) "schema") ts
             0 true (Context (Some path) (Some method) (Some Response))) ->
  recorded h (get h operation "tags") f path agg'.
Proof.
  intros Hscan Hop Hcode content Hmedia Hf. revert Hscan. unfold scan_responses.
  assert (Hresponses : truthy (get h operation "responses") = true)
    by (by eapply keys_truthy).
  assert (Hcontent : truthy content = true) by (by eapply keys_truthy).
  assert (Hresponse :
    truthy (get h (get h operation "responses") code) = true)
    by (by eapply get_truthy_receiver).
  rewrite Hop, Hresponses. cbn [andb]. cbv zeta.
  apply (for_each_reach grows (recorded h (get h operation "tags") f path))
    with (x := code); auto using grows_refl.
  - apply grows_trans.
  - intros c s s' _. cbv zeta.
    destruct (truthy _ && truthy _); [| intros [= <-]; apply grows_refl].
    apply scan_content_grows.
  - intros s s'. cbv zeta. fold content. rewrite Hresponse, Hcontent. cbn [andb].
    intros Hscan. eapply scan_content_adds; eauto.
  - intros s s'. apply recorded_grows.
Qed.

Lemma scan_request_body_adds h ts path method operation agg agg' mediaType f :
  scan_request_body h ts path method operation agg = Ok agg' ->
  truthy operation = true ->
  let content := get h (get h operation "requestBody") "content" in
  mediaType ∈ keys h content ->
  f ∈ fst (findFieldsInSchema h (get h (get h content mediaType) "schema") ts
             0 true (Context (Some path) (Some method) (Some Request))) ->
  recorded h (get h operation "tags") f path agg'.
Proof.
  intros Hscan Hop content Hmedia Hf. revert Hscan. unfold scan_request_body.
  assert (Hcontent : truthy content = true) by (by eapply keys_truthy).
  assert (Hbody : truthy (get h operation "requestBody") = true)
    by (by eapply get_truthy_receiver).
  rewrite Hop, Hbody. cbn [andb]. cbv zeta. fold content. rewrite Hcontent.
  intros Hscan. eapply scan_content_adds; eauto.
Qed.

(** Nothing is recorded without a finding *)

Lemma field_step_in_field agg f path set f' p' :
  fieldPaths agg !! f = Some set ->
  in_field (Aggregates (<[f := set_add path set]> (fieldPaths agg))
              (groupFieldPaths agg)) f' p' ->
  (f' = f /\ p' = path) \/ in_field agg f' p'.
Proof.
  intros Hset. unfold in_field, in_bucket. simpl.
  destruct (decide (f = f')) as [<- | Hne].
  - rewrite lookup_insert_eq. intros (s & [= <-] & Hp).
    apply elem_of_set_add in Hp as [-> | Hp]; eauto.
  - rewrite lookup_insert_ne by done. auto.
Qed.

Lemma group_step_in_group agg f g path sets f' g' p' :
  groupFieldPaths agg !! f = Some sets ->
  in_group (Aggregates (fieldPaths agg)
              (<[f := add_to_group g path sets]> (groupFieldPaths agg)))
    f' g' p' ->
  (f' = f /\ g' = g /\ p' = path) \/ in_group agg f' g' p'.
Proof.
  intros Hsets. unfold in_group. simpl.
  destruct (decide (f = f')) as [<- | Hne].
  - rewrite lookup_insert_eq. intros (ss & [= <-] & Hb).
    apply in_bucket_add_to_group in Hb as [[-> ->] | Hb]; eauto.
  - rewrite lookup_insert_ne by done. auto.
Qed.

Lemma record_field_sound h finding path tags f agg agg' :
  finding f path tags -> sound h finding agg ->
  record_field h path tags f agg = Ok agg' -> sound h finding agg'.
Proof.
  intros Hfinding [Hfield Hgroup]. unfold record_field.
  destruct (fieldPaths agg !! f) as [set |] eqn:Hset; [| done]. cbv zeta.
  destruct (groups_of h tags) as [groups |] eqn:Hgroups; [| done]. simpl rbind.
  apply for_each_inv.
  - split.
    + intros f' p' [[-> ->] | Hin]%field_step_in_field; eauto.
    + intros f' g' p'. apply Hgroup.
  - intros g s s' Hg [Hsf Hsg].
    destruct (groupFieldPaths s !! f) as [sets |] eqn:Hsets; [| done].
    intros [= <-]. split; [apply Hsf |].
    intros f' g' p' [(-> & -> & ->) | Hin]%group_step_in_group; eauto 10.
Qed.

Lemma scan_content_sound h finding ts path method loc tags content agg agg' :
  (forall mediaType f, mediaType ∈ keys h content ->
     f ∈ fst (findFieldsInSchema h (get h (get h content mediaType) "schema")
                ts 0 true (Context (Some path) (Some method) (Some loc))) ->
     finding f path tags) ->
  sound h finding agg ->
  scan_content h ts path method loc tags content agg = Ok agg' ->
  sound h finding agg'.
Proof.
  intros Hfinding Hagg. unfold scan_content. apply for_each_inv; [done |].
  intros mediaType s s' Hmedia Hs. cbv zeta. unfold prop.
  destruct (nullish (get h content mediaType)); [done |]. simpl rbind.
  destruct (truthy _); [| by intros [= <-]].
  apply for_each_inv; [done |].
  intros f s1 s2 Hf Hs1. apply record_field_sound; [| done]. eauto.
Qed.

Lemma scan_responses_sound h finding ts path method operation agg agg' :
  (forall code mediaType f,
     let content :=
       get h (get h (get h operation "responses") code) "content" in
     code ∈ keys h (get h operation "responses") ->
     mediaType ∈ keys h content ->
     f ∈ fst (findFieldsInSchema h (get h (get h content mediaType) "schema")
                ts 0 true (Context (Some path) (Some method) (Some Response))) ->
     finding f path (get h operation "tags")) ->
  sound h finding agg ->
  scan_responses h ts path method operation agg = Ok agg' ->
  sound h finding agg'.
Proof.
  intros Hfinding Hagg. unfold scan_responses.
  destruct (truthy operation && truthy (get h operation "responses"));
    [| by intros [= <-]]. cbv zeta.
  apply for_each_inv; [done |].
  intros code s s' Hcode Hs. cbv zeta.
  destruct (truthy _ && truthy _); [| by intros [= <-]].
  apply scan_content_sound; [| done]. intros mediaType f. by apply Hfinding.
Qed.

Lemma scan_request_body_sound h finding ts path method operation agg agg' :
  (forall mediaType f,
     let content := get h (get h operation "requestBody") "content" in
     mediaType ∈ keys h content ->
     f ∈ fst (findFieldsInSchema h (get h (get h content mediaType) "schema")
                ts 0 true (Context (Some path) (Some method) (Some Request))) ->
     finding f path (get h operation "tags")) ->
  sound h finding agg ->
  scan_request_body h ts path method operation agg = Ok agg' ->
  sound h finding agg'.
Proof.
  intros Hfinding Hagg. unfold scan_request_body.
  destruct (truthy operation && truthy (get h operation "requestBody"));
    [| by intros [= <-]]. cbv zeta.
  destruct (truthy _); [| by intros [= <-]].
  apply scan_content_sound; [| done]. intros mediaType f. by apply Hfinding.
Qed.

(** The grouper's block *)

Lemma group_operation_inv h path method operation groupPaths groupPaths' :
  buckets_no_dup groupPaths ->
  group_operation h path method operation groupPaths = Ok groupPaths' ->
  buckets_no_dup groupPaths'.
Proof.
  intros Hgp. unfold group_operation.
  destruct (truthy operation); [| by intros [= <-]]. cbv zeta.
  destruct (_ && _ && _).
  - apply for_each_inv; [done |].
    intros group s s' _ Hs [= <-]. by apply buckets_no_dup_add_to_group.
  - intros [= <-]. by apply buckets_no_dup_add_to_group.
Qed.

Lemma group_operation_spec h path method operation groupPaths groupPaths' :
  group_operation h path method operation groupPaths = Ok groupPaths' ->
  forall g p, in_bucket groupPaths' g p <->
    in_bucket groupPaths g p \/
    (truthy operation = true /\ p = path /\
     g ∈ group_names h (get h operation "tags")).
Proof.
  unfold group_operation, group_names.
  destruct (truthy operation); [| intros [= <-]; intros; split; [auto |];
    intros [? | (? & _)]; done]. cbv zeta.
  destruct (_ && _ && _).
  - generalize (elems_of h (get h operation "tags")). intros tags.
    revert groupPaths. induction tags as [| t tags IH]; intros gp; simpl.
    + intros [= <-] g p. split; [auto |].
      intros [? | (_ & _ & ?%elem_of_nil)]; done.
    + intros Hloop g p. rewrite (IH _ Hloop), in_bucket_add_to_group.
      rewrite elem_of_cons. split.
      * intros [[[-> ->] | ?] | (_ & -> & ?)]; auto.
      * intros [? | (_ & -> & [-> | ?])]; auto.
  - intros [= <-] g p. rewrite in_bucket_add_to_group, list_elem_of_singleton.
    split.
    + intros [[-> ->] | ?]; auto.
    + intros [? | (_ & -> & ->)]; auto.
Qed.

(** Before and after the scan *)

Lemma init_aggregates_lookup targetFields acc f :
  let agg := fold_left (fun agg field =>
    Aggregates (<[field := []]> (fieldPaths agg))
               (<[field := ∅]> (groupFieldPaths agg))) targetFields acc in
  fieldPaths agg !! f
    = (if decide (f ∈ targetFields) then Some [] else fieldPaths acc !! f) /\
  groupFieldPaths agg !! f
    = (if decide (f ∈ targetFields) then Some ∅ else groupFieldPaths acc !! f).
Proof.
  revert acc. induction targetFields as [| t ts IH]; intros acc; cbn [fold_left].
  - cbv zeta. by rewrite !decide_False by apply not_elem_of_nil.
  - destruct (IH (Aggregates (<[t := []]> (fieldPaths acc))
                             (<[t := ∅]> (groupFieldPaths acc)))) as [-> ->].
    simpl. destruct (decide (f ∈ ts)) as [Hin | Hnin].
    + rewrite !decide_True by (by apply list_elem_of_further). done.
    + destruct (decide (t = f)) as [-> | Hne].
      * rewrite !lookup_insert_eq, !decide_True by apply list_elem_of_here. done.
      * rewrite !lookup_insert_ne by done.
        rewrite !decide_False; [done | |];
          intros [-> | ?]%elem_of_cons; done.
Qed.

Lemma init_aggregates_no_dup targetFields :
  sets_no_dup (init_aggregates targetFields).
Proof.
  unfold init_aggregates. split_and!.
  - intros key set.
    destruct (init_aggregates_lookup targetFields (Aggregates ∅ ∅) key) as [-> _].
    simpl. rewrite lookup_empty. case_decide; [| done].
    intros [= <-]. apply NoDup_nil_2.
  - intros key sets.
    destruct (init_aggregates_lookup targetFields (Aggregates ∅ ∅) key) as [_ ->].
    simpl. rewrite lookup_empty. case_decide; [| done].
    intros [= <-]. apply buckets_no_dup_empty.
  - intros key.
    destruct (init_aggregates_lookup targetFields (Aggregates ∅ ∅) key) as [-> ->].
    simpl. rewrite !lookup_empty.
    destruct (decide (key ∈ targetFields)); split; intros [? ?]; eauto; done.
Qed.

Lemma init_aggregates_sound h finding ts : sound h finding (init_aggregates ts).
Proof.
  unfold init_aggregates. split.
  - intros f p (set & Hset & Hp). exfalso. revert Hset.
    destruct (init_aggregates_lookup ts (Aggregates ∅ ∅) f) as [-> _].
    simpl. rewrite lookup_empty. case_decide; [| done].
    intros [= <-]. by apply elem_of_nil in Hp.
  - intros f g p (sets & Hsets & set & Hset & Hp). exfalso. revert Hsets.
    destruct (init_aggregates_lookup ts (Aggregates ∅ ∅) f) as [_ ->].
    simpl. rewrite lookup_empty. case_decide; [| done].
    intros [= <-]. by rewrite lookup_empty in Hset.
Qed.


Lemma fold_insert_lookup {V} (v : V) (targetFields : list string)
  (acc : gmap string V) (f : string) :
  fold_left (fun o field => <[field := v]> o) targetFields acc !! f
    = if decide (f ∈ targetFields) then Some v else acc !! f.
Proof.
  revert acc. induction targetFields as [| t ts IH]; intros acc; cbn [fold_left].
  - by rewrite decide_False by apply not_elem_of_nil.
  - rewrite IH. destruct (decide (f ∈ ts)) as [Hin | Hnin].
    + by rewrite decide_True by (by apply list_elem_of_further).
    + destruct (decide (t = f)) as [-> | Hne].
      * by rewrite lookup_insert_eq, decide_True by apply list_elem_of_here.
      * rewrite lookup_insert_ne by done.
        rewrite decide_False; [done |]. intros [-> | ?]%elem_of_cons; done.
Qed.

Lemma to_sorted_arrays_field agg f :
  fieldPaths (to_sorted_arrays agg) !! f = sorted_array <$> fieldPaths agg !! f.
Proof. unfold to_sorted_arrays. simpl. apply lookup_fmap. Qed.

Lemma to_sorted_arrays_group agg f :
  groupFieldPaths (to_sorted_arrays agg) !! f =
  match fieldPaths agg !! f with
  | Some _ =>
      Some (sorted_array <$> (default ∅ (groupFieldPaths agg !! f)))
  | None => None
  end.
Proof.
  unfold to_sorted_arrays. simpl. rewrite map_lookup_imap.
  by destruct (fieldPaths agg !! f).
Qed.

Lemma sorted_array_ok set : NoDup set -> sorted_no_dup (sorted_array set).
Proof.
  intros Hset. split; [apply sorted_array_sorted | by apply sorted_array_NoDup].
Qed.

Lemma to_sorted_arrays_sorted agg :
  sets_no_dup agg -> lists_sorted (to_sorted_arrays agg).
Proof.
  intros (Hf & Hg & Hdom). split.
  - intros f ps. rewrite to_sorted_arrays_field.
    destruct (fieldPaths agg !! f) as [set |] eqn:Hset; [| done].
    intros [= <-]. apply sorted_array_ok. by eapply Hf.
  - intros f sets g ps. rewrite to_sorted_arrays_group.
    destruct (fieldPaths agg !! f) as [set |] eqn:Hset; [| done].
    intros [= <-]. rewrite lookup_fmap.
    destruct (groupFieldPaths agg !! f) as [ss |] eqn:Hss; simpl.
    + destruct (ss !! g) as [s |] eqn:Hs; [| done].
      intros [= <-]. apply sorted_array_ok. by eapply Hg.
    + by rewrite lookup_empty.
Qed.

Lemma to_sorted_arrays_in_field agg f p :
  in_field (to_sorted_arrays agg) f p <-> in_field agg f p.
Proof.
  unfold in_field, in_bucket. rewrite to_sorted_arrays_field. split.
  - intros (ps & Hps & Hp). destruct (fieldPaths agg !! f) as [set |]; [| done].
    simpl in Hps. injection Hps as <-. rewrite elem_of_sorted_array in Hp. eauto.
  - intros (set & -> & Hp). simpl. eexists; split; [done |].
    by apply elem_of_sorted_array.
Qed.

Lemma to_sorted_arrays_in_group agg f g p :
  sets_no_dup agg ->
  in_group (to_sorted_arrays agg) f g p <-> in_group agg f g p.
Proof.
  intros (_ & _ & Hdom). unfold in_group, in_bucket.
  rewrite to_sorted_arrays_group. split.
  - intros (sets & Hsets & ps & Hps & Hp).
    destruct (fieldPaths agg !! f) as [set |] eqn:Hset; [| done].
    injection Hsets as <-. rewrite lookup_fmap in Hps.
    destruct (groupFieldPaths agg !! f) as [ss |] eqn:Hss; simpl in Hps.
    + destruct (ss !! g) as [s |] eqn:Hs; [| done].
      simpl in Hps. injection Hps as <-. rewrite elem_of_sorted_array in Hp. eauto.
    + by rewrite lookup_empty in Hps.
  - intros (ss & Hss & s & Hs & Hp).
    assert (is_Some (fieldPaths agg !! f)) as [set Hset]
      by (apply Hdom; eauto).
    rewrite Hset, Hss. eexists; split; [done |]. simpl.
    exists (sorted_array s). rewrite lookup_fmap, Hs. simpl. split; [done |].
    by apply elem_of_sorted_array.
Qed.

End ScanFacts.

(** ** What the scanners and the grouper return *)

Module ScanResults.
Import Full ScanFacts.

Lemma response_scan_result h openApi ts r :
  extractResponseFieldPaths h openApi ts = Ok r ->
  truthy (get h openApi "paths") = true ->
  exists agg,
    for_each_operation h (get h openApi "paths") (scan_responses h ts)
      (init_aggregates ts) = Ok agg /\ r = to_sorted_arrays agg.
Proof.
  unfold extractResponseFieldPaths, prop. cbv zeta.
  destruct (nullish openApi); [done |]. simpl rbind.
  intros Hr Hpaths. rewrite Hpaths in Hr. cbn [negb] in Hr.
  destruct (for_each_operation _ _ _ _) as [agg |]; [| done].
  injection Hr as <-. eauto.
Qed.

Lemma request_scan_result h openApi ts r :
  extractRequestFieldPaths h openApi ts = Ok r ->
  truthy (get h openApi "paths") = true ->
  exists agg,
    for_each_operation h (get h openApi "paths") (scan_request_body h ts)
      (init_aggregates ts) = Ok agg /\ r = to_sorted_arrays agg.
Proof.
  unfold extractRequestFieldPaths, prop. cbv zeta.
  destruct (nullish openApi); [done |]. simpl rbind.
  intros Hr Hpaths. rewrite Hpaths in Hr. cbn [negb] in Hr.
  destruct (for_each_operation _ _ _ _) as [agg |]; [| done].
  injection Hr as <-. eauto.
Qed.

Lemma empty_aggregates_sorted ts : lists_sorted (empty_aggregates ts).
Proof.
  unfold empty_aggregates. split; simpl.
  - intros f ps. rewrite fold_insert_lookup, lookup_empty.
    case_decide; [| done]. intros [= <-]. split; constructor.
  - intros f sets g ps. rewrite fold_insert_lookup, lookup_empty.
    case_decide; [| done]. intros [= <-]. by rewrite lookup_empty.
Qed.

Lemma response_scan_sorted h openApi ts r :
  extractResponseFieldPaths h openApi ts = Ok r -> lists_sorted r.
Proof.
  intros Hr. destruct (truthy (get h openApi "paths")) eqn:Hpaths.
  - destruct (response_scan_result _ _ _ _ Hr Hpaths) as (agg & Hscan & ->).
    apply to_sorted_arrays_sorted. revert Hscan.
    apply for_each_operation_inv; [apply init_aggregates_no_dup |].
    intros path method s s' _ _. apply scan_responses_inv.
  - revert Hr. unfold extractResponseFieldPaths, prop. cbv zeta.
    destruct (nullish openApi); [done |]. simpl rbind. rewrite Hpaths.
    intros [= <-]. apply empty_aggregates_sorted.
Qed.

Lemma request_scan_sorted h openApi ts r :
  extractRequestFieldPaths h openApi ts = Ok r -> lists_sorted r.
Proof.
  intros Hr. destruct (truthy (get h openApi "paths")) eqn:Hpaths.
  - destruct (request_scan_result _ _ _ _ Hr Hpaths) as (agg & Hscan & ->).
    apply to_sorted_arrays_sorted. revert Hscan.
    apply for_each_operation_inv; [apply init_aggregates_no_dup |].
    intros path method s s' _ _. apply scan_request_body_inv.
  - revert Hr. unfold extractRequestFieldPaths, prop. cbv zeta.
    destruct (nullish openApi); [done |]. simpl rbind. rewrite Hpaths.
    intros [= <-]. apply empty_aggregates_sorted.
Qed.

Lemma group_paths_sorted h openApi groups g ps :
  extractGroupPaths h openApi = Ok groups -> groups !! g = Some ps ->
  sorted_no_dup ps.
Proof.
  unfold extractGroupPaths, prop.
  destruct (nullish openApi); [done |]. simpl rbind.
  destruct (negb (truthy (get h openApi "paths"))).
  - intros [= <-]. by rewrite lookup_empty.
  - destruct (for_each_operation _ _ _ _) as [gp |] eqn:Hscan; [| done].
    simpl rbind. intros [= <-]. rewrite lookup_fmap.
    destruct (gp !! g) as [set |] eqn:Hset; [| done]. intros [= <-].
    apply sorted_array_ok.
    assert (Hgp : buckets_no_dup gp); [| by eapply Hgp].
    revert Hscan. apply for_each_operation_inv; [apply buckets_no_dup_empty |].
    intros path method s s' _ _. apply group_operation_inv.
Qed.

Lemma sorted_no_dup_unique ps ps' :
  sorted_no_dup ps -> sorted_no_dup ps' -> (forall p, p ∈ ps <-> p ∈ ps') ->
  ps = ps'.
Proof.
  intros [Hs Hn] [Hs' Hn'] Hmem.
  apply (StronglySorted_unique str_le); [done | done |].
  by apply NoDup_Permutation.
Qed.

(** A finding of the response scanner is recorded. *)
Lemma response_finding_recorded h openApi ts r path method code mediaType f :
  extractResponseFieldPaths h openApi ts = Ok r ->
  let paths := get h openApi "paths" in
  let operation := get h (get h paths path) method in
  let content := get h (get h (get h operation "responses") code) "content" in
  path ∈ keys h paths -> method ∈ HTTP_METHODS ->
  code ∈ keys h (get h operation "responses") ->
  mediaType ∈ keys h content ->
  f ∈ fst (findFieldsInSchema h (get h (get h content mediaType) "schema") ts
             0 true (Context (Some path) (Some method) (Some Response))) ->
  recorded h (get h operation "tags") f path r.
Proof.
  intros Hr paths operation content Hpath Hmethod Hcode Hmedia Hf.
  assert (Hpaths : truthy paths = true) by (by eapply keys_truthy).
  assert (Hoperation : truthy operation = true).
  { eapply get_truthy_receiver, keys_truthy, Hcode. }
  assert (Hitem : truthy (get h paths path) = true).
  { eapply get_truthy_receiver, Hoperation. }
  destruct (response_scan_result _ _ _ _ Hr Hpaths) as (agg & Hscan & ->).
  assert (Hagg : sets_no_dup agg).
  { revert Hscan. apply for_each_operation_inv; [apply init_aggregates_no_dup |].
    intros p m s s' _ _. apply scan_responses_inv. }
  assert (Hrec : recorded h (get h operation "tags") f path agg).
  { revert Hscan.
    apply (for_each_operation_reach grows
             (recorded h (get h operation "tags") f path))
      with (path := path) (method := method); auto using grows_refl.
    - apply grows_trans.
    - intros p m o s s'. apply scan_responses_grows.
    - intros s s' Hb. by eapply scan_responses_adds.
    - intros s s'. apply recorded_grows. }
  destruct Hrec as [Hfield (groups & Hgroups & Hall)]. split.
  - by apply to_sorted_arrays_in_field.
  - exists groups. split; [done |]. intros g Hg.
    apply to_sorted_arrays_in_group; auto.
Qed.

(** A finding of the request scanner is recorded. *)
Lemma request_finding_recorded h openApi ts r path method mediaType f :
  extractRequestFieldPaths h openApi ts = Ok r ->
  let paths := get h openApi "paths" in
  let operation := get h (get h paths path) method in
  let content := get h (get h operation "requestBody") "content" in
  path ∈ keys h paths -> method ∈ HTTP_METHODS ->
  mediaType ∈ keys h content ->
  f ∈ fst (findFieldsInSchema h (get h (get h content mediaType) "schema") ts
             0 true (Context (Some path) (Some method) (Some Request))) ->
  recorded h (get h operation "tags") f path r.
Proof.
  intros Hr paths operation content Hpath Hmethod Hmedia Hf.
  assert (Hpaths : truthy paths = true) by (by eapply keys_truthy).
  assert (Hoperation : truthy operation = true).
  { eapply get_truthy_receiver, get_truthy_receiver, keys_truthy, Hmedia. }
  assert (Hitem : truthy (get h paths path) = true).
  { eapply get_truthy_receiver, Hoperation. }
  destruct (request_scan_result _ _ _ _ Hr Hpaths) as (agg & Hscan & ->).
  assert (Hagg : sets_no_dup agg).
  { revert Hscan. apply for_each_operation_inv; [apply init_aggregates_no_dup |].
    intros p m s s' _ _. apply scan_request_body_inv. }
  assert (Hrec : recorded h (get h operation "tags") f path agg).
  { revert Hscan.
    apply (for_each_operation_reach grows
             (recorded h (get h operation "tags") f path))
      with (path := path) (method := method); auto using grows_refl.
    - apply grows_trans.
    - intros p m o s s'. apply scan_request_body_grows.
    - intros s s' Hb. by eapply scan_request_body_adds.
    - intros s s'. apply recorded_grows. }
  destruct Hrec as [Hfield (groups & Hgroups & Hall)]. split.
  - by apply to_sorted_arrays_in_field.
  - exists groups. split; [done |]. intros g Hg.
    apply to_sorted_arrays_in_group; auto.
Qed.

Lemma empty_aggregates_no_entries ts :
  (forall f p, ~ in_field (empty_aggregates ts) f p) /\
  (forall f g p, ~ in_group (empty_aggregates ts) f g p).
Proof.
  unfold empty_aggregates, in_field, in_group, in_bucket. simpl. split.
  - intros f p (set & Hset & Hp). revert Hset.
    rewrite fold_insert_lookup, lookup_empty. case_decide; [| done].
    intros [= <-]. by apply elem_of_nil in Hp.
  - intros f g p (sets & Hsets & set & Hset & Hp). revert Hsets.
    rewrite fold_insert_lookup, lookup_empty. case_decide; [| done].
    intros [= <-]. by rewrite lookup_empty in Hset.
Qed.

(** The response scanner returns exactly the findings. *)
Lemma response_scan_exact h openApi ts r :
  extractResponseFieldPaths h openApi ts = Ok r ->
  exact h (response_finding h openApi ts) r.
Proof.
  intros Hr.
  assert (Hcomplete : forall f p tags, response_finding h openApi ts f p tags ->
            recorded h tags f p r).
  { intros f p tags (method & code & mediaType & Hfinding). cbv zeta in Hfinding.
    destruct Hfinding as (Hpath & Hmethod & Hcode & Hmedia & -> & Hdisc).
    eapply response_finding_recorded; eauto.
    by apply FullFacts.discoverable_found. }
  assert (Hsound : sound h (response_finding h openApi ts) r).
  { destruct (truthy (get h openApi "paths")) eqn:Hpaths.
    - destruct (response_scan_result _ _ _ _ Hr Hpaths) as (agg & Hscan & ->).
      assert (Hagg : sets_no_dup agg).
      { revert Hscan.
        apply for_each_operation_inv; [apply init_aggregates_no_dup |].
        intros p m s s' _ _. apply scan_responses_inv. }
      assert (Hs : sound h (response_finding h openApi ts) agg).
      { revert Hscan.
        apply for_each_operation_inv; [apply init_aggregates_sound |].
        intros path method s s' Hpath Hmethod Hs Hb.
        eapply scan_responses_sound; [| exact Hs | exact Hb].
        intros code mediaType f content Hcode Hmedia Hf.
        exists method, code, mediaType. cbv zeta. split_and!; try done.
        apply (FullFacts.found_discoverable _ _ true
                 (Context (Some path) (Some method) (Some Response)) 11);
          [lia | exact Hf]. }
      destruct Hs as [Hsf Hsg]. split.
      + intros f p Hin. by apply Hsf, to_sorted_arrays_in_field.
      + intros f g p Hin. by apply Hsg, to_sorted_arrays_in_group.
    - revert Hr. unfold extractResponseFieldPaths, prop. cbv zeta.
      destruct (nullish openApi); [done |]. simpl rbind. rewrite Hpaths.
      intros [= <-]. destruct (empty_aggregates_no_entries ts) as [Hf Hg].
      split; [intros f p Hin; by apply Hf in Hin
             | intros f g p Hin; by apply Hg in Hin]. }
  destruct Hsound as [Hsf Hsg]. split.
  - intros f p. split; [apply Hsf |].
    intros (tags & Hfinding). by apply (Hcomplete _ _ tags).
  - intros f g p. split; [apply Hsg |].
    intros (tags & groups & Hfinding & Hgroups & Hg).
    destruct (Hcomplete _ _ _ Hfinding) as [_ (groups' & Hgroups' & Hall)].
    apply Hall. congruence.
Qed.

(** The request scanner returns exactly the findings. *)
Lemma request_scan_exact h openApi ts r :
  extractRequestFieldPaths h openApi ts = Ok r ->
  exact h (request_finding h openApi ts) r.
Proof.
  intros Hr.
  assert (Hcomplete : forall f p tags, request_finding h openApi ts f p tags ->
            recorded h tags f p r).
  { intros f p tags (method & mediaType & Hfinding). cbv zeta in Hfinding.
    destruct Hfinding as (Hpath & Hmethod & Hmedia & -> & Hdisc).
    eapply request_finding_recorded; eauto.
    by apply FullFacts.discoverable_found. }
  assert (Hsound : sound h (request_finding h openApi ts) r).
  { destruct (truthy (get h openApi "paths")) eqn:Hpaths.
    - destruct (request_scan_result _ _ _ _ Hr Hpaths) as (agg & Hscan & ->).
      assert (Hagg : sets_no_dup agg).
      { revert Hscan.
        apply for_each_operation_inv; [apply init_aggregates_no_dup |].
        intros p m s s' _ _. apply scan_request_body_inv. }
      assert (Hs : sound h (request_finding h openApi ts) agg).
      { revert Hscan.
        apply for_each_operation_inv; [apply init_aggregates_sound |].
        intros path method s s' Hpath Hmethod Hs Hb.
        eapply scan_request_body_sound; [| exact Hs | exact Hb].
        intros mediaType f content Hmedia Hf.
        exists method, mediaType. cbv zeta. split_and!; try done.
        apply (FullFacts.found_discoverable _ _ true
                 (Context (Some path) (Some method) (Some Request)) 11);
          [lia | exact Hf]. }
      destruct Hs as [Hsf Hsg]. split.
      + intros f p Hin. by apply Hsf, to_sorted_arrays_in_field.
      + intros f g p Hin. by apply Hsg, to_sorted_arrays_in_group.
    - revert Hr. unfold extractRequestFieldPaths, prop. cbv zeta.
      destruct (nullish openApi); [done |]. simpl rbind. rewrite Hpaths.
      intros [= <-]. destruct (empty_aggregates_no_entries ts) as [Hf Hg].
      split; [intros f p Hin; by apply Hf in Hin
             | intros f g p Hin; by apply Hg in Hin]. }
  destruct Hsound as [Hsf Hsg]. split.
  - intros f p. split; [apply Hsf |].
    intros (tags & Hfinding). by apply (Hcomplete _ _ tags).
  - intros f g p. split; [apply Hsg |].
    intros (tags & groups & Hfinding & Hgroups & Hg).
    destruct (Hcomplete _ _ _ Hfinding) as [_ (groups' & Hgroups' & Hall)].
    apply Hall. congruence.
Qed.

(** The grouper returns exactly the paths of the operations filed under
    each group. *)
Lemma group_paths_exact h openApi groups g p :
  extractGroupPaths h openApi = Ok groups ->
  in_bucket groups g p <-> grouped h openApi g p.
Proof.
  unfold extractGroupPaths, prop.
  destruct (nullish openApi); [done |]. simpl rbind.
  destruct (truthy (get h openApi "paths")) eqn:Hpaths; cbn [negb].
  - destruct (for_each_operation _ _ _ _) as [gp |] eqn:Hscan; [| done].
    simpl rbind. intros [= <-].
    assert (Hsorted : in_bucket (sorted_array <$> gp) g p <-> in_bucket gp g p).
    { unfold in_bucket. rewrite lookup_fmap. split.
      - intros (ps & Hps & Hp). destruct (gp !! g) as [set |]; [| done].
        simpl in Hps. injection Hps as <-.
        rewrite elem_of_sorted_array in Hp. eauto.
      - intros (set & -> & Hp). simpl. eexists; split; [done |].
        by apply elem_of_sorted_array. }
    rewrite Hsorted. clear Hsorted. split.
    + revert g p. revert Hscan.
      apply (for_each_operation_inv
               (fun s => forall g p, in_bucket s g p -> grouped h openApi g p)).
      * intros g p (set & Hset & _). by rewrite lookup_empty in Hset.
      * intros path method s s' Hpath Hmethod Hs Hb g p Hin.
        apply (group_operation_spec _ _ _ _ _ _ Hb) in Hin
          as [Hin | (Hop & -> & Hg)]; [by apply Hs |].
        exists method. cbv zeta. done.
    + intros (method & Hgrouped). cbv zeta in Hgrouped.
      destruct Hgrouped as (Hpath & Hmethod & Hop & Hg). revert Hscan.
      apply (for_each_operation_reach
               (fun s s' => forall g p, in_bucket s g p -> in_bucket s' g p)
               (fun s => in_bucket s g p))
        with (path := p) (method := method); auto.
      * intros path m operation s s' Hb g' p' Hin.
        apply (group_operation_spec _ _ _ _ _ _ Hb). auto.
      * intros s s' Hb. apply (group_operation_spec _ _ _ _ _ _ Hb). auto.
      * eapply get_truthy_receiver, Hop.
  - intros [= <-]. split.
    + intros (set & Hset & _). by rewrite lookup_empty in Hset.
    + intros (method & Hgrouped). cbv zeta in Hgrouped.
      destruct Hgrouped as (Hpath & _).
      apply keys_truthy in Hpath. congruence.
Qed.

(** Two response scans with the same findings return the same list for
    every field, whatever the order the two documents list their paths,
    responses, media types and properties in. *)
Corollary same_findings_same_lists h openApi ts r h' openApi' ts' r' :
  extractResponseFieldPaths h openApi ts = Ok r ->
  extractResponseFieldPaths h' openApi' ts' = Ok r' ->
  (forall f p, (exists tags, response_finding h openApi ts f p tags) <->
               (exists tags, response_finding h' openApi' ts' f p tags)) ->
  forall f ps ps',
    fieldPaths r !! f = Some ps -> fieldPaths r' !! f = Some ps' -> ps = ps'.
Proof.
  intros Hr Hr' Hsame f ps ps' Hps Hps'.
  destruct (response_scan_sorted _ _ _ _ Hr) as [Hsorted _].
  destruct (response_scan_sorted _ _ _ _ Hr') as [Hsorted' _].
  destruct (response_scan_exact _ _ _ _ Hr) as [Hexact _].
  destruct (response_scan_exact _ _ _ _ Hr') as [Hexact' _].
  apply sorted_no_dup_unique; [by eapply Hsorted | by eapply Hsorted' |].
  intros p. transitivity (in_field r f p).
  - unfold in_field, in_bucket. rewrite Hps. split; [eauto |].
    by intros (set & [= <-] & Hp).
  - rewrite Hexact, Hsame, <- Hexact'.
    unfold in_field, in_bucket. rewrite Hps'. split; [| eauto].
    by intros (set & [= <-] & Hp).
Qed.

(** The scanner reads [mediaObj.schema] without testing [mediaObj]: a media
    type whose value is [null] makes it throw, while the grouper, which does
    not look at responses, returns. *)
Example null_media_type_throws :
  extractResponseFieldPaths doc_null_media_type (VRef 0) ["email"]
    = Throw TypeError
  /\ extractGroupPaths doc_null_media_type (VRef 0)
    = Ok {[ "default" := ["/ping"] ]}.
Proof. split; vm_compute; reflexivity. Qed.

End ScanResults.

(** * The claims *)

(** C1 at [tags: []]. The operation of ["/login"] has an empty [tags] array
    and [email] in its request and response schemas.  Both scanners put the
    path into the field's list but into no bucket at all, the default group
    included, whereas the grouper files the same operation under
    ["default"], as both scanners do when [tags] is absent. *)
Theorem empty_tags_reach_no_group :
  Full.extractResponseFieldPaths doc_login_empty_tags (VRef 0) ["email"]
    = Ok (Full.Aggregates {[ "email" := ["/login"] ]} {[ "email" := ∅ ]})
  /\ Full.extractRequestFieldPaths doc_login_empty_tags (VRef 0) ["email"]
    = Ok (Full.Aggregates {[ "email" := ["/login"] ]} {[ "email" := ∅ ]})
  /\ Full.extractGroupPaths doc_login_empty_tags (VRef 0)
    = Ok {[ "default" := ["/login"] ]}
  /\ Full.extractResponseFieldPaths doc_login_untagged (VRef 0) ["email"]
    = Ok (Full.Aggregates {[ "email" := ["/login"] ]}
            {[ "email" := {[ "default" := ["/login"] ]} ]})
  /\ Full.extractRequestFieldPaths doc_login_untagged (VRef 0) ["email"]
    = Ok (Full.Aggregates {[ "email" := ["/login"] ]}
            {[ "email" := {[ "default" := ["/login"] ]} ]}).
Proof. split_and!; vm_compute; reflexivity. Qed.

(** How both scanners choose the buckets of a finding: under ["default"]
    when the operation's [tags] is absent (or falsy), under every element
    when it is an array, and therefore under none when the array is empty. *)
Theorem findings_are_grouped_by_tags h openApi targetFields r field path tags :
  (Full.extractResponseFieldPaths h openApi targetFields = Ok r /\
   response_finding h openApi targetFields field path tags)
  \/ (Full.extractRequestFieldPaths h openApi targetFields = Ok r /\
      request_finding h openApi targetFields field path tags) ->
  Full.in_field r field path
  /\ (truthy tags = false -> Full.in_group r field DEFAULT_GROUP path)
  /\ (is_array h tags = true ->
      forall tag, tag ∈ elems_of h tags ->
      Full.in_group r field (Full.to_key h tag) path).
Proof.
  intros Hscan.
  assert (Hrec : Full.recorded h tags field path r).
  { destruct Hscan as [[Hr Hfinding] | [Hr Hfinding]].
    - destruct Hfinding as (method & code & mediaType & Hfinding).
      cbv zeta in Hfinding.
      destruct Hfinding as (Hpath & Hmethod & Hcode & Hmedia & -> & Hdisc).
      eapply ScanResults.response_finding_recorded; eauto.
      by apply FullFacts.discoverable_found.
    - destruct Hfinding as (method & mediaType & Hfinding).
      cbv zeta in Hfinding.
      destruct Hfinding as (Hpath & Hmethod & Hmedia & -> & Hdisc).
      eapply ScanResults.request_finding_recorded; eauto.
      by apply FullFacts.discoverable_found. }
  destruct Hrec as [Hfield (groups & Hgroups & Hall)].
  unfold Full.groups_of in Hgroups. split_and!; [done | |].
  - intros Htags. rewrite Htags in Hgroups. injection Hgroups as <-.
    apply Hall, list_elem_of_here.
  - intros Harr tag Htag.
    rewrite (is_array_truthy _ _ Harr), (SimpleFacts.iterate_array _ _ Harr)
      in Hgroups.
    injection Hgroups as <-. apply Hall, list_elem_of_fmap. eauto.
Qed.

(** C2, as stated, fails: for a document without [paths] and the target list
    [["email"]], [groupFieldPaths] is [{ email: {} }], not the empty
    mapping. *)
Lemma no_paths_group_field_paths_not_empty :
  Full.extractResponseFieldPaths doc_no_paths (VRef 0) ["email"]
    = Ok (Full.Aggregates {[ "email" := [] ]} {[ "email" := ∅ ]})
  /\ Full.extractRequestFieldPaths doc_no_paths (VRef 0) ["email"]
    = Ok (Full.Aggregates {[ "email" := [] ]} {[ "email" := ∅ ]})
  /\ ({[ "email" := ∅ ]} : gmap string (gmap string (list string))) ≠ ∅.
Proof.
  split_and!.
  - vm_compute. reflexivity.
  - vm_compute. reflexivity.
  - intros Heq. apply (f_equal (fun m => m !! "email")) in Heq.
    by rewrite lookup_singleton_eq, lookup_empty in Heq.
Qed.

(** C2, amended. For a document whose [paths] is absent (or falsy), the
    grouper returns the empty mapping, and both scanners return the same
    aggregates: [fieldPaths] has exactly the requested fields as keys, each
    mapped to the empty list, and [groupFieldPaths] has exactly the
    requested fields as keys, each mapped to the empty mapping. *)
Theorem no_paths_gives_empty_entries h openApi targetFields :
  nullish openApi = false ->
  truthy (get h openApi "paths") = false ->
  Full.extractGroupPaths h openApi = Ok ∅
  /\ exists r,
       Full.extractResponseFieldPaths h openApi targetFields = Ok r
       /\ Full.extractRequestFieldPaths h openApi targetFields = Ok r
       /\ forall field,
            Full.fieldPaths r !! field
              = (if decide (field ∈ targetFields) then Some [] else None)
            /\ Full.groupFieldPaths r !! field
              = (if decide (field ∈ targetFields) then Some ∅ else None).
Proof.
  intros Hnull Hpaths.
  unfold Full.extractGroupPaths, Full.extractResponseFieldPaths,
    Full.extractRequestFieldPaths, prop.
  rewrite Hnull. simpl rbind. cbv zeta. rewrite Hpaths. cbn [negb].
  split; [reflexivity |].
  exists (Full.empty_aggregates targetFields). split_and!; try reflexivity.
  intros field. unfold Full.empty_aggregates. simpl.
  by rewrite !ScanFacts.fold_insert_lookup, !lookup_empty.
Qed.

Lemma no_paths_gives_empty_entries_witness :
  Full.extractGroupPaths doc_no_paths (VRef 0) = Ok ∅
  /\ exists r,
       Full.extractResponseFieldPaths doc_no_paths (VRef 0) ["email"; "id"] = Ok r
       /\ Full.extractRequestFieldPaths doc_no_paths (VRef 0) ["email"; "id"] = Ok r
       /\ forall field,
            Full.fieldPaths r !! field
              = (if decide (field ∈ ["email"; "id"]) then Some [] else None)
            /\ Full.groupFieldPaths r !! field
              = (if decide (field ∈ ["email"; "id"]) then Some ∅ else None).
Proof.
  apply (no_paths_gives_empty_entries doc_no_paths (VRef 0) ["email"; "id"]);
    reflexivity.
Defined.

(** C3. Both finders carry a depth counter and return the empty list, without
    looking at the schema any further and without printing, as soon as the
    depth exceeds 10.  Being defined by recursion on [11 - depth], both are
    total on every schema graph, cyclic or not, and each returns exactly the
    fields that its matching rules reach within the depth ceiling: rules 1
    to 10 for [src/generate-types.ts], rules 1 to 7 and 11 for
    [src/simple-generate-types.ts].  On the schema whose [properties.self]
    is the schema itself, both return [email] and nothing else. *)
Theorem finder_depth_bound h schema targetFields depth k debug ctx doc field :
  Full.findFieldsInSchema h schema targetFields (11 + k) debug ctx = ([], [])
  /\ Simple.findFieldsInSchema h schema targetFields (11 + k) doc = Ok []
  /\ (field ∈ fst (Full.findFieldsInSchema h schema targetFields depth debug ctx)
      <-> discoverable h targetFields schema depth field)
  /\ (exists found,
        Simple.findFieldsInSchema h schema targetFields depth doc = Ok found /\
        (field ∈ found <->
         Simple.discoverable h targetFields doc schema depth field))
  /\ Full.findFieldsInSchema self_referential (VRef 0) ["email"; "id"] 0
       false no_context = (["email"], [])
  /\ Simple.findFieldsInSchema self_referential (VRef 0) ["email"; "id"] 0
       (VRef 0) = Ok ["email"].
Proof.
  split_and!.
  - apply FullFacts.found_beyond_bound.
  - apply SimpleFacts.simple_found_beyond_bound.
  - split.
    + apply (FullFacts.found_discoverable _ _ _ _ (11 - depth)). lia.
    + apply FullFacts.discoverable_found.
  - exists (Simple.found h schema targetFields depth doc). split.
    + apply (SimpleFacts.find_ok _ _ _ (11 - depth)). lia.
    + split.
      * apply (SimpleFacts.simple_found_discoverable _ _ _ (11 - depth)). lia.
      * apply SimpleFacts.simple_discoverable_found.
  - vm_compute. reflexivity.
  - vm_compute. reflexivity.
Qed.

(** C4. The finder of [src/simple-generate-types.ts] never throws: it returns
    a list for every input.  At a schema object carrying a [$ref] string,
    the reference is split into segments and the document is walked segment
    by segment; when every segment resolves, the result is made of what the
    finder returns for the resolved node together with what the other
    blocks find, and when a segment does not resolve (or the reference is
    the empty string, or no document is given) the reference contributes
    nothing and the result is what the other blocks find. *)
Theorem ref_resolution_is_silent h schema targetFields depth doc ref :
  Simple.findFieldsInSchema h schema targetFields depth doc
    = Ok (Simple.found h schema targetFields depth doc)
  /\ (is_ref schema = true -> depth <= 10 ->
      get h schema "$ref" = VStr ref ->
      let refPath := Simple.split_slash (Simple.remove_first "#/" ref) in
      let nested s := Simple.found h s targetFields (S depth) doc in
      let others := structure_fields nested h schema targetFields in
      (truthy doc = true ->
       Simple.resolve_segments h doc refPath = Ok (Simple.resolve h doc ref))
      /\ (truthy (VStr ref) && truthy doc
            && truthy (Simple.resolve h doc ref) = true ->
          Simple.found h schema targetFields depth doc
            = dedup (nested (Simple.resolve h doc ref) ++ others))
      /\ (truthy (VStr ref) && truthy doc
            && truthy (Simple.resolve h doc ref) = false ->
          Simple.found h schema targetFields depth doc = dedup others)).
Proof.
  split.
  - apply (SimpleFacts.find_ok _ _ _ (11 - depth)). lia.
  - intros Href Hd Hr refPath nested others. split_and!.
    + intros Hdoc. by apply SimpleFacts.resolve_segments_walk.
    + intros Hc. rewrite SimpleFacts.simple_found_eq, Href. simpl.
      destruct (lt_dec 10 depth); [lia |].
      unfold Simple.ref_fields. by rewrite Hr, Hc.
    + intros Hc. rewrite SimpleFacts.simple_found_eq, Href. simpl.
      destruct (lt_dec 10 depth); [lia |].
      unfold Simple.ref_fields. by rewrite Hr, Hc.
Qed.

Lemma ref_resolution_is_silent_witness :
  Simple.findFieldsInSchema doc_with_refs (VRef 2) ["email"; "id"] 0 (VRef 0)
    = Ok ["email"]
  /\ Simple.resolve doc_with_refs (VRef 0) "#/components/schemas/User" = VRef 5
  /\ Simple.findFieldsInSchema doc_with_refs (VRef 8) ["email"; "id"] 0 (VRef 0)
    = Ok ["id"]
  /\ Simple.resolve doc_with_refs (VRef 0) "#/components/schemas/Nope" = VUndef.
Proof.
  split_and!.
  - destruct (ref_resolution_is_silent doc_with_refs (VRef 2) ["email"; "id"] 0
      (VRef 0) "#/components/schemas/User") as [Hok Href].
    destruct (Href eq_refl ltac:(lia) eq_refl) as (_ & Hfound & _).
    rewrite Hok, (Hfound eq_refl). vm_compute. reflexivity.
  - reflexivity.
  - destruct (ref_resolution_is_silent doc_with_refs (VRef 8) ["email"; "id"] 0
      (VRef 0) "#/components/schemas/Nope") as [Hok Href].
    destruct (Href eq_refl ltac:(lia) eq_refl) as (_ & _ & Hfound).
    rewrite Hok, (Hfound eq_refl). vm_compute. reflexivity.
  - reflexivity.
Defined.

(** C5. At a schema object visited within the depth bound, the finder
    returns all the target fields, and nothing but them, when the schema has
    [type: "object"] and none of [properties], [additionalProperties] and
    [patternProperties], when its [additionalProperties] is [true], and when
    it has a [discriminator] with a [mapping]. *)
Theorem open_schema_reports_all_targets
  h schema targetFields depth debug ctx field :
  is_ref schema = true -> depth <= 10 ->
  (get h schema "type" = VStr "object" /\
   truthy (get h schema "properties") = false /\
   truthy (get h schema "additionalProperties") = false /\
   truthy (get h schema "patternProperties") = false)
  \/ get h schema "additionalProperties" = VBool true
  \/ (truthy (get h schema "discriminator") = true /\
      truthy (get h (get h schema "discriminator") "mapping") = true) ->
  field ∈ fst (Full.findFieldsInSchema h schema targetFields depth debug ctx)
  <-> field ∈ targetFields.
Proof.
  intros Href Hd Hopen. split.
  - intros Hf. apply (FullFacts.discoverable_target h _ schema depth).
    revert Hf. apply (FullFacts.found_discoverable _ _ _ _ (11 - depth)). lia.
  - intros Hf. apply FullFacts.discoverable_found.
    destruct Hopen as [(Ht & Hp & Ha & Hpp) | [Ha | [Hdi Hmap]]].
    + by apply rule10_free_form.
    + by apply rule6_additional_true.
    + by apply rule9_discriminator.
Qed.

Lemma open_schema_reports_all_targets_witness :
  (forall field,
     field ∈ fst (Full.findFieldsInSchema open_schemas (VRef 0)
                    ["email"; "id"] 0 false no_context)
     <-> field ∈ ["email"; "id"])
  /\ (forall field,
     field ∈ fst (Full.findFieldsInSchema open_schemas (VRef 1)
                    ["email"; "id"] 0 false no_context)
     <-> field ∈ ["email"; "id"])
  /\ (forall field,
     field ∈ fst (Full.findFieldsInSchema open_schemas (VRef 2)
                    ["email"; "id"] 0 false no_context)
     <-> field ∈ ["email"; "id"]).
Proof.
  split_and!; intros field.
  - apply (open_schema_reports_all_targets open_schemas (VRef 0));
      [reflexivity | lia |].
    left. split_and!; reflexivity.
  - apply (open_schema_reports_all_targets open_schemas (VRef 1));
      [reflexivity | lia |].
    right; left. reflexivity.
  - apply (open_schema_reports_all_targets open_schemas (VRef 2));
      [reflexivity | lia |].
    right; right. split; reflexivity.
Defined.

(** C6. At a schema object visited within the depth bound, a target field
    that is a key of [properties] is in the result, and so is every field
    the finder returns for a value of [properties], for [items], or for a
    member of [allOf], [oneOf] or [anyOf]. *)
Theorem direct_and_nested_fields_are_found
  h schema targetFields depth debug ctx field :
  is_ref schema = true -> depth <= 10 ->
  let found := fst (Full.findFieldsInSchema h schema targetFields depth debug ctx) in
  let nested s :=
    fst (Full.findFieldsInSchema h s targetFields (S depth) debug ctx) in
  let properties := get h schema "properties" in
  (is_ref properties = true -> field ∈ targetFields ->
   has_key h properties field = true -> field ∈ found)
  /\ (is_ref properties = true ->
      forall name, name ∈ keys h properties ->
      field ∈ nested (get h properties name) -> field ∈ found)
  /\ (field ∈ nested (get h schema "items") -> field ∈ found)
  /\ (forall key member, key ∈ ["allOf"; "oneOf"; "anyOf"] ->
      is_array h (get h schema key) = true ->
      member ∈ elems_of h (get h schema key) ->
      field ∈ nested member -> field ∈ found).
Proof.
  intros Href Hd found nested properties.
  assert (Hstep : forall f, f ∈ found <->
    f ∈ Full.pushed_fields nested h schema targetFields)
    by (intros f; by apply FullFacts.found_step).
  split_and!.
  - intros Hp Hf Hk. apply Hstep, FullFacts.elem_of_pushed_fields. left. eauto.
  - intros Hp name Hname Hf.
    apply Hstep, FullFacts.elem_of_pushed_fields. left. eauto.
  - intros Hf. apply Hstep, FullFacts.elem_of_pushed_fields. right; left.
    split; [| done]. apply FullFacts.found_is_ref in Hf as [Hi _].
    by apply is_ref_truthy.
  - intros key member Hkey Harr Hm Hf.
    apply Hstep, FullFacts.elem_of_pushed_fields. do 5 right; left. eauto 10.
Qed.

Lemma direct_and_nested_fields_are_found_witness :
  "email" ∈ fst (Full.findFieldsInSchema nested_schema (VRef 0)
                  ["email"; "id"] 0 false no_context)
  /\ "id" ∈ fst (Full.findFieldsInSchema nested_schema (VRef 0)
                  ["email"; "id"] 0 false no_context)
  /\ "id" ∈ fst (Full.findFieldsInSchema nested_schema (VRef 3)
                  ["email"; "id"] 1 false no_context)
  /\ "id" ∈ fst (Full.findFieldsInSchema nested_schema (VRef 4)
                  ["email"; "id"] 2 false no_context).
Proof.
  split_and!.
  - destruct (direct_and_nested_fields_are_found nested_schema (VRef 0)
      ["email"; "id"] 0 false no_context "email" eq_refl ltac:(lia))
      as (Hdirect & _).
    apply Hdirect; [reflexivity | apply list_elem_of_here | reflexivity].
  - destruct (direct_and_nested_fields_are_found nested_schema (VRef 0)
      ["email"; "id"] 0 false no_context "id" eq_refl ltac:(lia))
      as (_ & Hproperty & _).
    apply (Hproperty eq_refl "profile").
    + apply list_elem_of_further, list_elem_of_here.
    + vm_compute. apply list_elem_of_here.
  - destruct (direct_and_nested_fields_are_found nested_schema (VRef 3)
      ["email"; "id"] 1 false no_context "id" eq_refl ltac:(lia))
      as (_ & _ & Hitems & _).
    apply Hitems. vm_compute. apply list_elem_of_here.
  - destruct (direct_and_nested_fields_are_found nested_schema (VRef 4)
      ["email"; "id"] 2 false no_context "id" eq_refl ltac:(lia))
      as (_ & _ & _ & Hmember).
    apply (Hmember "allOf" (VRef 6)).
    + apply list_elem_of_here.
    + reflexivity.
    + apply list_elem_of_here.
    + vm_compute. apply list_elem_of_here.
Defined.

(** C7. When an operation of the document is tagged with several tags and
    the finder reports a target field for the schema of one of its
    responses, the response scanner puts the path into the field's list and
    into the bucket of every one of those tags under that field. *)
Theorem multi_tag_fan_out
  h openApi targetFields r path method code mediaType field tag :
  Full.extractResponseFieldPaths h openApi targetFields = Ok r ->
  let paths := get h openApi "paths" in
  let operation := get h (get h paths path) method in
  let content := get h (get h (get h operation "responses") code) "content" in
  path ∈ keys h paths -> method ∈ HTTP_METHODS ->
  code ∈ keys h (get h operation "responses") ->
  mediaType ∈ keys h content ->
  field ∈ fst (Full.findFieldsInSchema h
                 (get h (get h content mediaType) "schema") targetFields
                 0 true (Context (Some path) (Some method) (Some Response))) ->
  is_array h (get h operation "tags") = true ->
  VStr tag ∈ elems_of h (get h operation "tags") ->
  Full.in_field r field path /\ Full.in_group r field tag path.
Proof.
  intros Hr paths operation content Hpath Hmethod Hcode Hmedia Hf Harr Htag.
  destruct (ScanResults.response_finding_recorded h openApi targetFields r path
              method code mediaType field Hr Hpath Hmethod Hcode Hmedia Hf)
    as [Hfield (groups & Hgroups & Hall)].
  split; [done |]. apply Hall.
  fold paths operation in Hgroups. unfold Full.groups_of in Hgroups.
  rewrite (is_array_truthy _ _ Harr), (SimpleFacts.iterate_array _ _ Harr)
    in Hgroups.
  injection Hgroups as <-.
  apply list_elem_of_fmap. exists (VStr tag). split; [reflexivity | done].
Qed.

Lemma multi_tag_fan_out_witness :
  exists r,
    Full.extractResponseFieldPaths doc_login_tagged (VRef 0) ["email"] = Ok r
    /\ Full.in_group r "email" "auth" "/login"
    /\ Full.in_group r "email" "users" "/login"
    /\ Full.groupFieldPaths r !! "email"
         = Some {[ "auth" := ["/login"]; "users" := ["/login"] ]}.
Proof.
  eexists. split; [vm_compute; reflexivity |].
  assert (Hpost : "post" ∈ HTTP_METHODS)
    by (apply list_elem_of_further, list_elem_of_here).
  split_and!.
  - apply (multi_tag_fan_out doc_login_tagged (VRef 0) ["email"] _ "/login"
             "post" "200" "application/json" "email" "auth" eq_refl).
    + apply list_elem_of_here.
    + exact Hpost.
    + apply list_elem_of_here.
    + apply list_elem_of_here.
    + vm_compute. apply list_elem_of_here.
    + reflexivity.
    + apply list_elem_of_here.
  - apply (multi_tag_fan_out doc_login_tagged (VRef 0) ["email"] _ "/login"
             "post" "200" "application/json" "email" "users" eq_refl).
    + apply list_elem_of_here.
    + exact Hpost.
    + apply list_elem_of_here.
    + apply list_elem_of_here.
    + vm_compute. apply list_elem_of_here.
    + reflexivity.
    + apply list_elem_of_further, list_elem_of_here.
  - vm_compute. reflexivity.
Defined.

(** C8. Every path list the grouper and the two scanners return (each
    group's list, each field's list, each list of a group under a field) is
    sorted in the order of [Array.prototype.sort] and holds no path twice.
    Its members are exactly the paths of the operations filed under the
    group, or of the findings for the field, which are defined without any
    reference to the order of traversal; and a sorted list without
    duplicates is determined by its members, as [Array.from(set).sort()] is
    by the members of the set whatever the order they were added in.  So the
    lists are a function of the document and the target fields only. *)
Theorem path_lists_sorted_and_unique h openApi targetFields :
  (forall groups, Full.extractGroupPaths h openApi = Ok groups ->
     (forall group ps, groups !! group = Some ps -> Full.sorted_no_dup ps) /\
     (forall group path,
        Full.in_bucket groups group path <-> grouped h openApi group path))
  /\ (forall r, Full.extractResponseFieldPaths h openApi targetFields = Ok r ->
      Full.lists_sorted r /\
      exact h (response_finding h openApi targetFields) r)
  /\ (forall r, Full.extractRequestFieldPaths h openApi targetFields = Ok r ->
      Full.lists_sorted r /\
      exact h (request_finding h openApi targetFields) r)
  /\ (forall ps ps', Full.sorted_no_dup ps -> Full.sorted_no_dup ps' ->
      (forall p, p ∈ ps <-> p ∈ ps') -> ps = ps')
  /\ (forall set set', NoDup set -> NoDup set' ->
      (forall p, p ∈ set <-> p ∈ set') ->
      Full.sorted_array set = Full.sorted_array set').
Proof.
  split_and!.
  - intros groups Hgroups. split.
    + intros group ps. apply (ScanResults.group_paths_sorted _ _ _ _ _ Hgroups).
    + intros group path. by apply ScanResults.group_paths_exact.
  - intros r Hr. split.
    + by eapply ScanResults.response_scan_sorted.
    + by apply ScanResults.response_scan_exact.
  - intros r Hr. split.
    + by eapply ScanResults.request_scan_sorted.
    + by apply ScanResults.request_scan_exact.
  - apply ScanResults.sorted_no_dup_unique.
  - apply ScanFacts.sorted_array_canonical.
Qed.

Lemma path_lists_sorted_and_unique_witness :
  exists r groups,
    Full.extractResponseFieldPaths doc_two_paths (VRef 0) ["email"] = Ok r
    /\ Full.fieldPaths r !! "email" = Some ["/accounts"; "/users"]
    /\ Full.lists_sorted r
    /\ Full.extractGroupPaths doc_two_paths (VRef 0) = Ok groups
    /\ groups !! "default" = Some ["/accounts"; "/users"]
    /\ Full.sorted_no_dup ["/accounts"; "/users"].
Proof.
  destruct (path_lists_sorted_and_unique doc_two_paths (VRef 0) ["email"])
    as (Hgroups & Hresponse & _).
  destruct (Full.extractResponseFieldPaths doc_two_paths (VRef 0) ["email"])
    as [r |] eqn:Hr; [| vm_compute in Hr; discriminate Hr].
  destruct (Full.extractGroupPaths doc_two_paths (VRef 0))
    as [groups |] eqn:Hg; [| vm_compute in Hg; discriminate Hg].
  destruct (Hgroups groups eq_refl) as [Hsorted _].
  destruct (Hresponse r eq_refl) as [Hlists _].
  assert (Hdefault : groups !! "default" = Some ["/accounts"; "/users"]).
  { vm_compute in Hg. injection Hg as <-. vm_compute. reflexivity. }
  exists r, groups. split_and!; try done.
  - vm_compute in Hr. injection Hr as <-. vm_compute. reflexivity.
  - by apply (Hsorted "default").
Defined.

(** C9. The list either finder returns contains each field name at most
    once, and only names from the target-field list, for every schema,
    target list and depth. *)
Theorem finder_result_is_subset_without_duplicates
  h schema targetFields depth debug ctx doc :
  NoDup (fst (Full.findFieldsInSchema h schema targetFields depth debug ctx))
  /\ fst (Full.findFieldsInSchema h schema targetFields depth debug ctx)
       ⊆ targetFields
  /\ exists found,
       Simple.findFieldsInSchema h schema targetFields depth doc = Ok found
       /\ NoDup found /\ found ⊆ targetFields.
Proof.
  split_and!.
  - apply FullFacts.found_NoDup.
  - intros f Hf. apply (FullFacts.discoverable_target h _ schema depth).
    revert Hf. apply (FullFacts.found_discoverable _ _ _ _ (11 - depth)). lia.
  - exists (Simple.found h schema targetFields depth doc). split_and!.
    + apply (SimpleFacts.find_ok _ _ _ (11 - depth)). lia.
    + apply SimpleFacts.simple_found_NoDup.
    + intros f Hf. apply (SimpleFacts.simple_discoverable_target h _ doc schema depth).
      revert Hf. apply (SimpleFacts.simple_found_discoverable _ _ _ (11 - depth)). lia.
Qed.

(** C10. The list the finder returns is the same whatever the debug flag
    and the context: a call with any [debug] and any [context] returns the
    list that the call with [debug = false] and the empty context returns. *)
Theorem finder_result_independent_of_logging
  h schema targetFields depth debug ctx :
  fst (Full.findFieldsInSchema h schema targetFields depth debug ctx) =
  fst (Full.findFieldsInSchema h schema targetFields depth false no_context).
Proof. apply (FullFacts.found_erase _ _ _ _ (11 - depth)). lia. Qed.

(** * Further properties *)

(** ** The finder of [src/generate-types.ts], continued *)

Module FinderExtras.
Import Full.

Lemma discoverable_other_targets h ts ts' schema depth f :
  discoverable h ts schema depth f -> f ∈ ts' ->
  discoverable h ts' schema depth f.
Proof.
  intros H Hin. induction H.
  - apply rule1_direct_key; auto.
  - apply rule2_in_property with name; auto.
  - apply rule3_in_items; auto.
  - apply rule4_dynamic_object; auto.
  - apply rule5_in_additional; auto.
  - apply rule6_additional_true; auto.
  - apply rule7_in_composition with key member; auto.
  - apply rule8_in_pattern with pattern; auto.
  - apply rule9_discriminator; auto.
  - apply rule10_free_form; auto.
Qed.

Lemma discoverable_shallower h ts schema depth f :
  discoverable h ts schema depth f ->
  forall depth', depth' <= depth -> discoverable h ts schema depth' f.
Proof.
  induction 1; intros depth' Hle.
  - apply rule1_direct_key; auto; lia.
  - apply rule2_in_property with name; auto; [lia |].
    apply IHdiscoverable. lia.
  - apply rule3_in_items; auto; [lia |]. apply IHdiscoverable. lia.
  - apply rule4_dynamic_object; auto; lia.
  - apply rule5_in_additional; auto; [lia |]. apply IHdiscoverable. lia.
  - apply rule6_additional_true; auto; lia.
  - apply rule7_in_composition with key member; auto; [lia |].
    apply IHdiscoverable. lia.
  - apply rule8_in_pattern with pattern; auto; [lia |].
    apply IHdiscoverable. lia.
  - apply rule9_discriminator; auto; lia.
  - apply rule10_free_form; auto; lia.
Qed.

Lemma found_iff_discoverable h schema ts depth dbg ctx f :
  f ∈ fst (findFieldsInSchema h schema ts depth dbg ctx)
  <-> discoverable h ts schema depth f.
Proof.
  split.
  - apply (FullFacts.found_discoverable _ _ _ _ (11 - depth)). lia.
  - apply FullFacts.discoverable_found.
Qed.

Lemma simple_rules_are_full_rules h ts doc schema depth f :
  truthy doc = false ->
  Simple.discoverable h ts doc schema depth f ->
  discoverable h ts schema depth f.
Proof.
  intros Hdoc. induction 1.
  - congruence.
  - apply rule1_direct_key; auto.
  - apply rule2_in_property with name; auto.
  - apply rule3_in_items; auto.
  - apply rule4_dynamic_object; auto.
  - apply rule5_in_additional; auto.
  - apply rule6_additional_true; auto.
  - apply rule7_in_composition with key member; auto.
Qed.

(** The console *)

Lemma snd_bind {A B} (m : Console A) (k : A -> Console B) :
  snd (bind m k) = snd m ++ snd (k (fst m)).
Proof. unfold bind. destruct m as [a o1]. simpl. destruct (k a). reflexivity. Qed.

Lemma snd_ret {A} (a : A) : snd (ret a) = [].
Proof. reflexivity. Qed.

Lemma snd_for_push {X} (xs : list X) (body : X -> Console (list string)) :
  snd (for_push xs body) = concat (map (fun x => snd (body x)) xs).
Proof.
  induction xs as [| x xs IH]; simpl; [reflexivity |].
  rewrite !snd_bind, IH. simpl. by rewrite app_nil_r.
Qed.

Lemma snd_scan_node again h schema ts depth dbg ctx :
  snd (scan_node again h schema ts depth dbg ctx) =
  printed_lines (fun s => snd (again s)) h schema ts depth dbg ctx.
Proof.
  unfold scan_node, printed_lines. cbv zeta.
  rewrite !snd_bind, snd_ret, app_nil_r.
  repeat match goal with |- _ ++ _ = _ ++ _ => f_equal end.
  all: repeat first
    [ rewrite snd_for_push | rewrite snd_bind | rewrite snd_ret
    | rewrite app_nil_r
    | match goal with
      | |- context [snd (if ?c then _ else _)] => destruct c
      end ]; try reflexivity.
  all: repeat match goal with |- _ ++ _ = _ ++ _ => f_equal end;
    try reflexivity.
  all: f_equal; apply map_ext; intros x.
  - destruct (has_key _ _ _); [| reflexivity].
    by rewrite snd_bind, snd_ret, app_nil_r.
  - destruct (_ && _); [| reflexivity]. by rewrite snd_for_push.
Qed.

Lemma printed_lines_ext sub sub' h schema ts depth dbg ctx :
  (forall s, sub s = sub' s) ->
  printed_lines sub h schema ts depth dbg ctx
  = printed_lines sub' h schema ts depth dbg ctx.
Proof.
  intros Hsub. unfold printed_lines. cbv zeta. simpl map. simpl concat.
  rewrite !Hsub.
  repeat first
    [ reflexivity
    | match goal with
      | |- _ ++ _ = _ ++ _ => f_equal
      | |- (if ?c then _ else _) = (if ?c then _ else _) => destruct c
      | |- concat _ = concat _ => f_equal; apply map_ext; intros; apply Hsub
      end ].
Qed.

Lemma printed_eq h schema ts depth dbg ctx :
  snd (findFieldsInSchema h schema ts depth dbg ctx) =
  if negb (is_ref schema) then []
  else if lt_dec 10 depth then []
  else printed_lines
         (fun s => snd (findFieldsInSchema h s ts (S depth) dbg ctx))
         h schema ts depth dbg ctx.
Proof.
  rewrite FullFacts.find_eq, guard_is_ref.
  destruct (negb (is_ref schema)); [reflexivity |].
  destruct (lt_dec 10 depth); [reflexivity |].
  apply snd_scan_node.
Qed.

Lemma concat_map_nil {X Y} (g : X -> list Y) (xs : list X) :
  (forall x, g x = []) -> concat (map g xs) = [].
Proof.
  intros Hg. induction xs as [| x xs IH]; simpl; [done |]. by rewrite Hg, IH.
Qed.

Lemma printed_lines_silent sub h schema ts depth dbg ctx :
  (forall s, sub s = []) ->
  dbg = false \/ ctx_complete ctx = None ->
  printed_lines sub h schema ts depth dbg ctx = [].
Proof.
  intros Hsub Hquiet.
  assert (Hdirect : forall field, snd (log_direct dbg ctx field depth) = []).
  { intros field. unfold log_direct. destruct Hquiet as [-> | ->]; [done |].
    by destruct dbg. }
  assert (Hpotential : forall kind, snd (log_potential dbg ctx kind ts) = []).
  { intros kind. unfold log_potential. destruct Hquiet as [-> | ->]; [done |].
    by destruct dbg. }
  unfold printed_lines. cbv zeta. simpl map. simpl concat.
  rewrite !Hsub, !Hpotential.
  rewrite ?(concat_map_nil sub) by done.
  rewrite !(concat_map_nil (fun name => sub _)) by (intros; apply Hsub).
  rewrite (concat_map_nil (fun field => if has_key _ _ field then _ else _)).
  2: { intros field. destruct (has_key _ _ _); [apply Hdirect | done]. }
  repeat match goal with
         | |- context [if ?c then _ else _] => destruct c
         end; reflexivity.
Qed.

Lemma finder_silent h ts dbg ctx n :
  dbg = false \/ ctx_complete ctx = None ->
  forall schema depth, 11 - depth <= n ->
  snd (findFieldsInSchema h schema ts depth dbg ctx) = [].
Proof.
  intros Hquiet. induction n as [| n IH]; intros schema depth Hn;
    rewrite printed_eq.
  - destruct (negb (is_ref schema)); [reflexivity |].
    destruct (lt_dec 10 depth); [reflexivity | lia].
  - destruct (negb (is_ref schema)); [reflexivity |].
    destruct (lt_dec 10 depth); [reflexivity |].
    apply printed_lines_silent; [| done]. intros s. apply IH. lia.
Qed.

End FinderExtras.

(** X1. Whether the finder reports a field does not depend on the other
    fields it is asked for: a field is in the result for a target list
    exactly when it is in the list and in the result for that field alone. *)
Theorem finder_fields_are_independent h schema targetFields depth debug ctx field :
  field ∈ fst (Full.findFieldsInSchema h schema targetFields depth debug ctx)
  <-> field ∈ targetFields /\
      field ∈ fst (Full.findFieldsInSchema h schema [field] depth debug ctx).
Proof.
  rewrite !FinderExtras.found_iff_discoverable. split.
  - intros H. split; [by eapply FullFacts.discoverable_target |].
    apply (FinderExtras.discoverable_other_targets _ _ _ _ _ _ H).
    apply list_elem_of_here.
  - intros [Hin H]. by apply (FinderExtras.discoverable_other_targets _ _ _ _ _ _ H).
Qed.

(** X2. A search started deeper finds no more: every field returned at a
    depth is returned at every smaller depth. *)
Theorem finder_finds_more_from_smaller_depth
  h schema targetFields depth depth' debug ctx :
  depth' <= depth ->
  fst (Full.findFieldsInSchema h schema targetFields depth debug ctx)
  ⊆ fst (Full.findFieldsInSchema h schema targetFields depth' debug ctx).
Proof.
  intros Hle f. rewrite !FinderExtras.found_iff_discoverable.
  intros H. by apply (FinderExtras.discoverable_shallower _ _ _ _ _ H).
Qed.

Lemma finder_finds_more_from_smaller_depth_witness :
  fst (Full.findFieldsInSchema nested_schema (VRef 0) ["email"; "id"] 8
         false no_context)
  ⊆ fst (Full.findFieldsInSchema nested_schema (VRef 0) ["email"; "id"] 7
           false no_context).
Proof.
  apply (finder_finds_more_from_smaller_depth nested_schema (VRef 0)
           ["email"; "id"] 8 7 false no_context).
  lia.
Defined.

(** X3. Without a document to resolve references in, the finder of
    [src/simple-generate-types.ts] returns only fields that the finder of
    [src/generate-types.ts] returns as well, on the same schema, targets
    and depth. *)
Theorem simple_finder_within_full_finder h schema targetFields depth debug ctx doc :
  truthy doc = false ->
  Simple.found h schema targetFields depth doc
  ⊆ fst (Full.findFieldsInSchema h schema targetFields depth debug ctx).
Proof.
  intros Hdoc f Hf. apply FinderExtras.found_iff_discoverable.
  apply (FinderExtras.simple_rules_are_full_rules _ _ doc); [done |].
  revert Hf. apply (SimpleFacts.simple_found_discoverable _ _ _ (11 - depth)). lia.
Qed.

Lemma simple_finder_within_full_finder_witness :
  Simple.found nested_schema (VRef 0) ["email"; "id"] 0 VUndef
  ⊆ fst (Full.findFieldsInSchema nested_schema (VRef 0) ["email"; "id"] 0
           false no_context).
Proof.
  apply (simple_finder_within_full_finder nested_schema (VRef 0)
           ["email"; "id"] 0 false no_context VUndef).
  reflexivity.
Defined.

Module ConsoleFacts.
Import Full.

Lemma elem_of_concat_map_gen {X Y} (g : X -> list Y) (xs : list X) (y : Y) :
  y ∈ concat (map g xs) <-> exists x, x ∈ xs /\ y ∈ g x.
Proof.
  induction xs as [| x xs IH]; simpl.
  - rewrite elem_of_nil. split; [done | intros (x & Hx & _)].
    by apply elem_of_nil in Hx.
  - rewrite elem_of_app, IH. split.
    + intros [H | (x' & Hx' & H)]; [exists x | exists x']; split; auto;
        [apply list_elem_of_here | by apply list_elem_of_further].
    + intros (x' & Hx' & H). apply elem_of_cons in Hx' as [-> | Hx']; eauto.
Qed.

Lemma elem_of_if_nil_gen {Y} (c : bool) (l : list Y) (y : Y) :
  y ∈ (if c then l else []) <-> c = true /\ y ∈ l.
Proof.
  destruct c; [tauto |]. rewrite elem_of_nil. split; [done | intros []; done].
Qed.

Lemma elem_of_log_direct dbg ctx field depth line :
  line ∈ snd (log_direct dbg ctx field depth) <->
  dbg = true /\ exists p m l, ctx_complete ctx = Some (p, m, l) /\
    line = Found p m field l (0 <? depth).
Proof.
  unfold log_direct. destruct dbg; simpl.
  - destruct (ctx_complete ctx) as [[[p m] l] |]; simpl.
    + rewrite list_elem_of_singleton. split.
      * intros ->. eauto 10.
      * by intros (_ & p' & m' & l' & [= <- <- <-] & ->).
    + rewrite elem_of_nil. split; [done | by intros (_ & p & m & l & ? & _)].
  - rewrite elem_of_nil. split; [done | by intros [? _]].
Qed.

Lemma elem_of_log_potential dbg ctx kind ts line :
  line ∈ snd (log_potential dbg ctx kind ts) <->
  dbg = true /\ exists p m l, ctx_complete ctx = Some (p, m, l) /\
    exists f, f ∈ ts /\ line = Potential kind f m p l.
Proof.
  unfold log_potential. destruct dbg; simpl.
  - destruct (ctx_complete ctx) as [[[p m] l] |]; simpl.
    + rewrite list_elem_of_fmap. split.
      * intros (f & -> & Hf). eauto 10.
      * intros (_ & p' & m' & l' & [= <- <- <-] & f & Hf & ->). eauto.
    + rewrite elem_of_nil. split; [done | by intros (_ & p & m & l & ? & _)].
  - rewrite elem_of_nil. split; [done | by intros [? _]].
Qed.

Lemma elem_of_additional_lines (sub : value -> list log_line) (a : value)
  (potential : list log_line) (line : log_line) :
  line ∈ (if truthy a then
            if typeof_object a then sub a
            else if bool_decide (a = VBool true) then potential else []
          else []) <->
  (is_ref a = true /\ line ∈ sub a) \/ (a = VBool true /\ line ∈ potential).
Proof.
  destruct a as [| | [] | n | s | l]; simpl;
    try (rewrite elem_of_nil; split; [done | intros [[? _] | [? _]]; done]).
  - split; [auto | intros [[? _] | [_ ?]]; done].
  - destruct (negb (n =? 0)%Z); rewrite elem_of_nil;
      (split; [done | intros [[? _] | [? _]]; done]).
  - destruct (negb (String.eqb s "")); rewrite elem_of_nil;
      (split; [done | intros [[? _] | [? _]]; done]).
  - split; [auto | intros [[_ ?] | [? _]]; done].
Qed.

Lemma elem_of_composition_lines (sub : value -> list log_line) h schema
  (keywords : list string) (line : log_line) :
  line ∈ concat (map (fun key =>
        if truthy (get h schema key) && is_array h (get h schema key)
        then concat (map sub (elems_of h (get h schema key))) else [])
        keywords) <->
  exists key member, key ∈ keywords /\
    is_array h (get h schema key) = true /\
    member ∈ elems_of h (get h schema key) /\ line ∈ sub member.
Proof.
  rewrite elem_of_concat_map_gen. split.
  - intros (key & Hkey & Hf). apply elem_of_if_nil_gen in Hf as [Hc Hf].
    apply andb_true_iff in Hc as [_ Harr].
    apply elem_of_concat_map_gen in Hf as (member & Hm & Hf). eauto 10.
  - intros (key & member & Hkey & Harr & Hm & Hf). exists key. split; [done |].
    rewrite Harr, (is_array_truthy _ _ Harr). simpl.
    apply elem_of_concat_map_gen. eauto.
Qed.

(** When a line is on the console at the return. *)
Lemma elem_of_printed_lines sub h schema ts depth dbg ctx line :
  line ∈ printed_lines sub h schema ts depth dbg ctx <->
    (is_ref (get h schema "properties") = true /\
       ((exists field, field ∈ ts /\
           has_key h (get h schema "properties") field = true /\
           line ∈ snd (log_direct dbg ctx field depth)) \/
        exists name, name ∈ keys h (get h schema "properties") /\
          line ∈ sub (get h (get h schema "properties") name)))
    \/ (truthy (get h schema "items") = true /\ line ∈ sub (get h schema "items"))
    \/ (get h schema "type" = VStr "object" /\
        truthy (get h schema "properties") = false /\
        line ∈ snd (log_potential dbg ctx DynamicObject ts))
    \/ (is_ref (get h schema "additionalProperties") = true /\
        line ∈ sub (get h schema "additionalProperties"))
    \/ (get h schema "additionalProperties" = VBool true /\
        line ∈ snd (log_potential dbg ctx AdditionalProperties ts))
    \/ (exists key member, key ∈ ["allOf"; "oneOf"; "anyOf"] /\
        is_array h (get h schema key) = true /\
        member ∈ elems_of h (get h schema key) /\ line ∈ sub member)
    \/ (is_ref (get h schema "patternProperties") = true /\
        exists pattern, pattern ∈ keys h (get h schema "patternProperties") /\
          line ∈ sub (get h (get h schema "patternProperties") pattern))
    \/ (truthy (get h schema "discriminator") = true /\
        truthy (get h (get h schema "discriminator") "mapping") = true /\
        line ∈ snd (log_potential dbg ctx Discriminator ts))
    \/ (get h schema "type" = VStr "object" /\
        truthy (get h schema "properties") = false /\
        truthy (get h schema "additionalProperties") = false /\
        truthy (get h schema "patternProperties") = false /\
        line ∈ snd (log_potential dbg ctx FreeFormObject ts)).
Proof.
  unfold printed_lines. cbv zeta.
  rewrite !object_test_is_ref, !elem_of_app.
  rewrite elem_of_additional_lines, elem_of_composition_lines.
  rewrite !elem_of_if_nil_gen, !elem_of_app, !elem_of_concat_map_gen.
  rewrite !andb_true_iff, !negb_true_iff, !bool_decide_eq_true.
  assert (Hdirect :
    (exists x, x ∈ ts /\
       line ∈ (if has_key h (get h schema "properties") x
               then snd (log_direct dbg ctx x depth) else []))
    <-> (exists field, field ∈ ts /\
           has_key h (get h schema "properties") field = true /\
           line ∈ snd (log_direct dbg ctx field depth))).
  { split; intros (x & Hx & H); exists x; (split; [done |]).
    - by apply elem_of_if_nil_gen in H.
    - by apply elem_of_if_nil_gen. }
  rewrite Hdirect. tauto.
Qed.

Lemma printed_step h schema ts depth dbg ctx line :
  line ∈ snd (findFieldsInSchema h schema ts depth dbg ctx) <->
  is_ref schema = true /\ depth <= 10 /\
  line ∈ printed_lines
           (fun s => snd (findFieldsInSchema h s ts (S depth) dbg ctx))
           h schema ts depth dbg ctx.
Proof.
  rewrite FinderExtras.printed_eq. destruct (is_ref schema); simpl.
  - destruct (lt_dec 10 depth).
    + rewrite elem_of_nil. split; [done | intros (_ & ? & _); lia].
    + split; [intros ?; split_and!; [done | lia | done] | by intros (_ & _ & ?)].
  - rewrite elem_of_nil. split; [done | by intros (? & _)].
Qed.

(** Every line is about a returned field and names the context. *)
Lemma lines_are_about_findings h ts dbg ctx n :
  forall schema depth line, 11 - depth <= n ->
  line ∈ snd (findFieldsInSchema h schema ts depth dbg ctx) ->
  line_field line ∈ fst (findFieldsInSchema h schema ts depth dbg ctx) /\
  dbg = true /\ ctx_complete ctx = Some (line_context line).
Proof.
  induction n as [| n IH]; intros schema depth line Hn Hline;
    apply printed_step in Hline as (Href & Hd & Hline); [lia |].
  assert (Hrec : forall s,
    line ∈ snd (findFieldsInSchema h s ts (S depth) dbg ctx) ->
    line_field line ∈ fst (findFieldsInSchema h s ts (S depth) dbg ctx) /\
    dbg = true /\ ctx_complete ctx = Some (line_context line)).
  { intros s. apply IH. lia. }
  rewrite (FullFacts.found_step _ _ _ _ _ _ _ Href Hd).
  rewrite FullFacts.elem_of_pushed_fields.
  apply elem_of_printed_lines in Hline.
  assert (Hpot : forall kind,
    line ∈ snd (log_potential dbg ctx kind ts) ->
    line_field line ∈ ts /\ dbg = true /\
    ctx_complete ctx = Some (line_context line)).
  { intros kind (-> & p & m & l & -> & f & Hf & ->)%elem_of_log_potential.
    done. }
  destruct Hline as [[Hp [(field & Hfield & Hk & Hl) | (name & Hname & Hl)]]
    | [[Hi Hl] | [(Ht & Hp & Hl) | [[Ha Hl] | [[Ha Hl]
    | [(key & member & Hkey & Harr & Hm & Hl) | [[Hp (pattern & Hpat & Hl)]
    | [(Hdi & Hmap & Hl) | (Ht & Hp & Ha & Hpp & Hl)]]]]]]]].
  - apply elem_of_log_direct in Hl as (-> & p & m & l & -> & ->).
    split; [| done]. left. simpl. auto.
  - destruct (Hrec _ Hl) as (Hf & Hrest). split; [| done]. left. eauto.
  - destruct (Hrec _ Hl) as (Hf & Hrest). split; [| done]. right; left. auto.
  - destruct (Hpot _ Hl) as (Hf & Hrest). split; [| done].
    do 2 right; left. auto.
  - destruct (Hrec _ Hl) as (Hf & Hrest). split; [| done].
    do 3 right; left. auto.
  - destruct (Hpot _ Hl) as (Hf & Hrest). split; [| done].
    do 4 right; left. auto.
  - destruct (Hrec _ Hl) as (Hf & Hrest). split; [| done].
    do 5 right; left. eauto 10.
  - destruct (Hrec _ Hl) as (Hf & Hrest). split; [| done].
    do 6 right; left. eauto.
  - destruct (Hpot _ Hl) as (Hf & Hrest). split; [| done].
    do 7 right; left. auto.
  - destruct (Hpot _ Hl) as (Hf & Hrest). split; [| done].
    do 8 right. auto.
Qed.

(** With [debug] set and a complete context, every returned field has a
    line. *)
Lemma findings_have_lines h ts ctx p m l n :
  ctx_complete ctx = Some (p, m, l) ->
  forall schema depth f, 11 - depth <= n ->
  f ∈ fst (findFieldsInSchema h schema ts depth true ctx) ->
  exists line, line ∈ snd (findFieldsInSchema h schema ts depth true ctx) /\
    line_field line = f.
Proof.
  intros Hctx. induction n as [| n IH]; intros schema depth f Hn Hf;
    destruct (FullFacts.found_is_ref _ _ _ _ _ _ _ Hf) as [Href Hd]; [lia |].
  assert (Hrec : forall s,
    f ∈ fst (findFieldsInSchema h s ts (S depth) true ctx) ->
    exists line, line ∈ snd (findFieldsInSchema h s ts (S depth) true ctx) /\
      line_field line = f).
  { intros s. apply IH. lia. }
  assert (Hpot : forall kind, f ∈ ts ->
    exists line, line ∈ snd (log_potential true ctx kind ts) /\
      line_field line = f).
  { intros kind Hin. exists (Potential kind f m p l). split; [| done].
    apply elem_of_log_potential. eauto 10. }
  apply FullFacts.found_step in Hf; [| done | done].
  apply FullFacts.elem_of_pushed_fields in Hf.
  assert (Hgoal : exists line,
    line ∈ printed_lines
             (fun s => snd (findFieldsInSchema h s ts (S depth) true ctx))
             h schema ts depth true ctx /\ line_field line = f).
  { destruct Hf as [[Hp [[Hf Hk] | (name & Hname & Hf)]]
      | [[Hi Hf] | [(Ht & Hp & Hf) | [[Ha Hf] | [[Ha Hf]
      | [(key & member & Hkey & Harr & Hm & Hf) | [[Hp (pattern & Hpat & Hf)]
      | [(Hdi & Hmap & Hf) | (Ht & Hp & Ha & Hpp & Hf)]]]]]]]].
    - exists (Found p m f l (0 <? depth)). split; [| done].
      apply elem_of_printed_lines. left. split; [done |]. left.
      exists f. split_and!; [done | done |].
      apply elem_of_log_direct. eauto 10.
    - destruct (Hrec _ Hf) as (line & Hl & Hfield). exists line.
      split; [| done]. apply elem_of_printed_lines. left. eauto.
    - destruct (Hrec _ Hf) as (line & Hl & Hfield). exists line.
      split; [| done]. apply elem_of_printed_lines. right; left. auto.
    - destruct (Hpot DynamicObject Hf) as (line & Hl & Hfield). exists line.
      split; [| done]. apply elem_of_printed_lines. do 2 right; left. auto.
    - destruct (Hrec _ Hf) as (line & Hl & Hfield). exists line.
      split; [| done]. apply elem_of_printed_lines. do 3 right; left. auto.
    - destruct (Hpot AdditionalProperties Hf) as (line & Hl & Hfield).
      exists line. split; [| done].
      apply elem_of_printed_lines. do 4 right; left. auto.
    - destruct (Hrec _ Hf) as (line & Hl & Hfield). exists line.
      split; [| done]. apply elem_of_printed_lines. do 5 right; left. eauto 10.
    - destruct (Hrec _ Hf) as (line & Hl & Hfield). exists line.
      split; [| done]. apply elem_of_printed_lines. do 6 right; left. eauto.
    - destruct (Hpot Discriminator Hf) as (line & Hl & Hfield). exists line.
      split; [| done]. apply elem_of_printed_lines. do 7 right; left. auto.
    - destruct (Hpot FreeFormObject Hf) as (line & Hl & Hfield). exists line.
      split; [| done]. apply elem_of_printed_lines. do 8 right. auto. }
  destruct Hgoal as (line & Hl & Hfield). exists line. split; [| done].
  apply printed_step. auto.
Qed.

End ConsoleFacts.

(** X4. The finder prints nothing unless it is called with [debug] set and a
    context that has a path, a method and a location (none of them empty). *)
Theorem finder_is_silent_without_debug_context
  h schema targetFields depth debug ctx :
  debug = false \/ ctx_complete ctx = None ->
  snd (Full.findFieldsInSchema h schema targetFields depth debug ctx) = [].
Proof.
  intros Hquiet. apply (FinderExtras.finder_silent _ _ _ _ (11 - depth)); [done | lia].
Qed.

Lemma finder_is_silent_without_debug_context_witness :
  snd (Full.findFieldsInSchema nested_schema (VRef 0) ["email"; "id"] 0 true
         (Context (Some "/login") None (Some Response))) = []
  /\ snd (Full.findFieldsInSchema nested_schema (VRef 0) ["email"; "id"] 0
            false (Context (Some "/login") (Some "post") (Some Response))) = [].
Proof.
  split.
  - apply (finder_is_silent_without_debug_context nested_schema (VRef 0)
             ["email"; "id"] 0 true (Context (Some "/login") None (Some Response))).
    right. reflexivity.
  - apply (finder_is_silent_without_debug_context nested_schema (VRef 0)
             ["email"; "id"] 0 false
             (Context (Some "/login") (Some "post") (Some Response))).
    left. reflexivity.
Defined.

(** X5. What the finder prints matches what it returns: every printed line
    is about a returned field and names the path, method and location of
    the context; and when [debug] is set and the context is complete, every
    returned field has at least one line. *)
Theorem finder_lines_match_findings h schema targetFields depth debug ctx :
  (forall line,
     line ∈ snd (Full.findFieldsInSchema h schema targetFields depth debug ctx) ->
     line_field line
       ∈ fst (Full.findFieldsInSchema h schema targetFields depth debug ctx)
     /\ ctx_complete ctx = Some (line_context line))
  /\ (debug = true -> is_Some (ctx_complete ctx) ->
      forall field,
        field ∈ fst (Full.findFieldsInSchema h schema targetFields depth debug ctx) ->
        exists line,
          line ∈ snd (Full.findFieldsInSchema h schema targetFields depth debug ctx)
          /\ line_field line = field).
Proof.
  split.
  - intros line Hline.
    destruct (ConsoleFacts.lines_are_about_findings h targetFields debug ctx
                (11 - depth) schema depth line) as (Hf & _ & Hctx);
      [lia | done | done].
  - intros -> [[[p m] l] Hctx] field Hf.
    apply (ConsoleFacts.findings_have_lines h targetFields ctx p m l
             (11 - depth)); [done | lia | done].
Qed.

Lemma finder_lines_match_findings_witness :
  (forall line,
     line ∈ snd (Full.findFieldsInSchema nested_schema (VRef 0) ["email"; "id"]
                   0 true (Context (Some "/login") (Some "post") (Some Response))) ->
     line_field line ∈ ["email"; "id"])
  /\ exists line,
       line ∈ snd (Full.findFieldsInSchema nested_schema (VRef 0) ["email"; "id"]
                     0 true (Context (Some "/login") (Some "post") (Some Response)))
       /\ line_field line = "id".
Proof.
  destruct (finder_lines_match_findings nested_schema (VRef 0) ["email"; "id"] 0
              true (Context (Some "/login") (Some "post") (Some Response)))
    as [Hsound Hcomplete].
  split.
  - intros line Hline. apply (Hsound line Hline).
  - apply (Hcomplete eq_refl).
    + eexists. reflexivity.
    + vm_compute. apply list_elem_of_further, list_elem_of_here.
Defined.

(** ** The scanners and the grouper, continued *)

Module ScanExtras.
Import Full ScanFacts ScanResults.

(** Loops whose body cannot throw *)

Lemma for_each_ok {X S} (P : S -> Prop) (xs : list X)
  (body : X -> S -> result S) (st : S) :
  P st ->
  (forall x s, x ∈ xs -> P s -> exists s', body x s = Ok s' /\ P s') ->
  exists st', for_each xs body st = Ok st' /\ P st'.
Proof.
  revert st. induction xs as [| x xs IH]; intros st Hst Hbody; simpl.
  - eauto.
  - destruct (Hbody x st) as (s1 & -> & Hs1); [apply list_elem_of_here | done |].
    simpl. apply IH; [done |].
    intros y s Hy. apply Hbody. by apply list_elem_of_further.
Qed.

Lemma for_each_operation_ok {S} (P : S -> Prop) h paths
  (body : string -> string -> value -> S -> result S) (st : S) :
  P st ->
  (forall path method s, path ∈ keys h paths -> method ∈ HTTP_METHODS ->
     P s ->
     exists s', body path method (get h (get h paths path) method) s = Ok s'
                /\ P s') ->
  exists st', for_each_operation h paths body st = Ok st' /\ P st'.
Proof.
  intros Hst Hbody. unfold for_each_operation.
  apply for_each_ok; [done |].
  intros path s Hpath Hs. cbv zeta.
  destruct (negb (truthy (get h paths path))); [eauto |].
  apply for_each_ok; [done |].
  intros method s1 Hmethod Hs1. cbv zeta. by apply Hbody.
Qed.

(** Keys of the aggregates *)











End ScanExtras.



(** ** Documents the scanners accept *)

Module ScanTotal.
Import Full ScanFacts ScanResults ScanExtras.

Lemma all_operations_spec h openApi test :
  all_operations h openApi test = true <->
  forall path method,
    path ∈ keys h (get h openApi "paths") -> method ∈ HTTP_METHODS ->
    test (get h (get h (get h openApi "paths") path) method) = true.
Proof.
  unfold all_operations. cbv zeta. rewrite forallb_forall. split.
  - intros Hall path method Hpath Hmethod.
    apply list_elem_of_In, Hall in Hpath.
    rewrite forallb_forall in Hpath. by apply Hpath, list_elem_of_In.
  - intros Hall path Hpath. apply forallb_forall. intros method Hmethod.
    apply Hall; by apply list_elem_of_In.
Qed.

Lemma tags_are_arrays_spec h openApi path method :
  tags_are_arrays h openApi = true ->
  path ∈ keys h (get h openApi "paths") -> method ∈ HTTP_METHODS ->
  let tags :=
    get h (get h (get h (get h openApi "paths") path) method) "tags" in
  truthy tags = false \/ is_array h tags = true.
Proof.
  intros Htags Hpath Hmethod. cbv zeta.
  pose proof (proj1 (all_operations_spec _ _ _) Htags path method
                Hpath Hmethod) as Htest.
  cbv zeta in Htest. apply orb_true_iff in Htest as [Hf | Ha]; [| auto].
  left. by apply negb_true_iff.
Qed.

Lemma media_present_spec h content mediaType :
  media_present h content = true -> mediaType ∈ keys h content ->
  nullish (get h content mediaType) = false.
Proof.
  unfold media_present. rewrite forallb_forall. intros Hall Hin.
  apply list_elem_of_In, Hall in Hin. by apply negb_true_iff.
Qed.

Lemma is_array_iterate h v :
  is_array h v = true -> iterate h v = Ok (elems_of h v).
Proof.
  destruct v as [| | | | s | l]; try done. simpl. by destruct (h l).
Qed.

Lemma groups_of_typed h tags :
  truthy tags = false \/ is_array h tags = true ->
  exists groups, groups_of h tags = Ok groups /\
    forall g, g ∈ groups -> g ∈ group_names h tags.
Proof.
  unfold groups_of, group_names. intros [Hf | Ha].
  - rewrite Hf. eauto.
  - rewrite Ha, (is_array_iterate _ _ Ha), andb_true_r. simpl rbind.
    destruct (truthy tags); cbn [andb]; [| eauto].
    eexists. split; [done |].
    by destruct (elems_of h tags) as [| t ts]; [intros g ?%elem_of_nil |].
Qed.

Lemma group_names_nonempty h tags : exists g, g ∈ group_names h tags.
Proof.
  unfold group_names.
  destruct (truthy tags && is_array h tags) ; cbn [andb].
  - destruct (elems_of h tags) as [| t ts]; simpl.
    + exists DEFAULT_GROUP. apply list_elem_of_here.
    + eexists. apply list_elem_of_here.
  - exists DEFAULT_GROUP. apply list_elem_of_here.
Qed.

(** Blocks that cannot throw *)







(** What a finding says about its operation *)

Lemma response_finding_operation h openApi ts f p tags :
  response_finding h openApi ts f p tags ->
  exists method,
    let operation := get h (get h (get h openApi "paths") p) method in
    p ∈ keys h (get h openApi "paths") /\ method ∈ HTTP_METHODS /\
    truthy operation = true /\ tags = get h operation "tags".
Proof.
  intros (method & code & mediaType & Hfinding). cbv zeta in Hfinding.
  destruct Hfinding as (Hpath & Hmethod & Hcode & _ & -> & _).
  exists method. cbv zeta. split_and!; try done.
  by eapply get_truthy_receiver, keys_truthy.
Qed.

Lemma request_finding_operation h openApi ts f p tags :
  request_finding h openApi ts f p tags ->
  exists method,
    let operation := get h (get h (get h openApi "paths") p) method in
    p ∈ keys h (get h openApi "paths") /\ method ∈ HTTP_METHODS /\
    truthy operation = true /\ tags = get h operation "tags".
Proof.
  intros (method & mediaType & Hfinding). cbv zeta in Hfinding.
  destruct Hfinding as (Hpath & Hmethod & Hmedia & -> & _).
  exists method. cbv zeta. split_and!; try done.
  by eapply get_truthy_receiver, get_truthy_receiver, keys_truthy.
Qed.

Lemma scan_exact h openApi ts r :
  extractResponseFieldPaths h openApi ts = Ok r
  \/ extractRequestFieldPaths h openApi ts = Ok r ->
  exists finding,
    exact h finding r /\
    forall f p tags, finding f p tags ->
      exists method,
        let operation := get h (get h (get h openApi "paths") p) method in
        p ∈ keys h (get h openApi "paths") /\ method ∈ HTTP_METHODS /\
        truthy operation = true /\ tags = get h operation "tags".
Proof.
  intros [Hr | Hr].
  - exists (response_finding h openApi ts).
    split; [by apply response_scan_exact | apply response_finding_operation].
  - exists (request_finding h openApi ts).
    split; [by apply request_scan_exact | apply request_finding_operation].
Qed.

End ScanTotal.

(** X7. In what either scanner returns, a path in the bucket of some group
    under a field is also in the flat list of that field. *)
Theorem group_buckets_are_within_the_field_list
  h openApi targetFields r field group path :
  Full.extractResponseFieldPaths h openApi targetFields = Ok r
  \/ Full.extractRequestFieldPaths h openApi targetFields = Ok r ->
  Full.in_group r field group path -> Full.in_field r field path.
Proof.
  intros Hr Hin.
  destruct (ScanTotal.scan_exact _ _ _ _ Hr) as (finding & [Hf Hg] & _).
  destruct (proj1 (Hg _ _ _) Hin) as (tags & groups & Hfinding & _).
  apply Hf. eauto.
Qed.

Lemma group_buckets_are_within_the_field_list_witness :
  exists r,
    Full.extractRequestFieldPaths doc_login_tagged (VRef 0) ["email"] = Ok r
    /\ Full.in_field r "email" "/login".
Proof.
  eexists. split; [vm_compute; reflexivity |].
  apply (group_buckets_are_within_the_field_list doc_login_tagged (VRef 0)
           ["email"] _ "email" "users" "/login"); [by right |].
  exists {[ "auth" := ["/login"]; "users" := ["/login"] ]}.
  split; [reflexivity |].
  exists ["/login"]. split; [reflexivity | apply list_elem_of_here].
Defined.

(** X8. Every path either scanner lists under a field is a path of some
    group of the grouper, so a table built from the grouper's paths has an
    entry for it. *)
Theorem scanner_paths_are_grouper_paths
  h openApi targetFields groups r field path :
  Full.extractGroupPaths h openApi = Ok groups ->
  Full.extractResponseFieldPaths h openApi targetFields = Ok r
  \/ Full.extractRequestFieldPaths h openApi targetFields = Ok r ->
  Full.in_field r field path -> exists group, Full.in_bucket groups group path.
Proof.
  intros Hgroups Hr Hin.
  destruct (ScanTotal.scan_exact _ _ _ _ Hr) as (finding & [Hf _] & Hop).
  destruct (proj1 (Hf _ _) Hin) as (tags & Hfinding).
  destruct (Hop _ _ _ Hfinding) as (method & Hpath & Hmethod & Htruthy & ->).
  destruct (ScanTotal.group_names_nonempty h
              (get h (get h (get h (get h openApi "paths") path) method) "tags"))
    as (g & Hg).
  exists g. apply (ScanResults.group_paths_exact _ _ _ _ _ Hgroups).
  exists method. cbv zeta. auto.
Qed.

Lemma scanner_paths_are_grouper_paths_witness :
  exists groups r,
    Full.extractGroupPaths doc_login_empty_tags (VRef 0) = Ok groups
    /\ Full.extractResponseFieldPaths doc_login_empty_tags (VRef 0) ["email"] = Ok r
    /\ exists group, Full.in_bucket groups group "/login".
Proof.
  eexists. eexists. split; [vm_compute; reflexivity |].
  split; [vm_compute; reflexivity |].
  eapply (scanner_paths_are_grouper_paths doc_login_empty_tags (VRef 0)
            ["email"] _ _ "email" "/login" eq_refl);
    [left; vm_compute; reflexivity |].
  exists ["/login"]. split; [reflexivity | apply list_elem_of_here].
Defined.

(** X9. When the [tags] of every operation are absent or an array, a path
    in the scanner's bucket of a group is in the grouper's list of the same
    group. *)
Theorem scanner_buckets_are_within_grouper_buckets
  h openApi targetFields groups r field group path :
  tags_are_arrays h openApi = true ->
  Full.extractGroupPaths h openApi = Ok groups ->
  Full.extractResponseFieldPaths h openApi targetFields = Ok r
  \/ Full.extractRequestFieldPaths h openApi targetFields = Ok r ->
  Full.in_group r field group path -> Full.in_bucket groups group path.
Proof.
  intros Htags Hgroups Hr Hin.
  destruct (ScanTotal.scan_exact _ _ _ _ Hr) as (finding & [_ Hg] & Hop).
  destruct (proj1 (Hg _ _ _) Hin) as (tags & gs & Hfinding & Hgs & Hgroup).
  destruct (Hop _ _ _ Hfinding) as (method & Hpath & Hmethod & Htruthy & ->).
  apply (ScanResults.group_paths_exact _ _ _ _ _ Hgroups).
  exists method. cbv zeta. split_and!; try done.
  destruct (ScanTotal.groups_of_typed h _
              (ScanTotal.tags_are_arrays_spec _ _ _ _ Htags Hpath Hmethod))
    as (gs' & Hgs' & Hall).
  rewrite Hgs in Hgs'. injection Hgs' as <-. by apply Hall.
Qed.

Lemma scanner_buckets_are_within_grouper_buckets_witness :
  exists groups r,
    Full.extractGroupPaths doc_login_tagged (VRef 0) = Ok groups
    /\ Full.extractResponseFieldPaths doc_login_tagged (VRef 0) ["email"] = Ok r
    /\ Full.in_bucket groups "users" "/login".
Proof.
  eexists. eexists. split; [vm_compute; reflexivity |].
  split; [vm_compute; reflexivity |].
  eapply (scanner_buckets_are_within_grouper_buckets doc_login_tagged (VRef 0)
            ["email"] _ _ "email" "users" "/login" eq_refl eq_refl);
    [left; vm_compute; reflexivity |].
  exists {[ "auth" := ["/login"]; "users" := ["/login"] ]}.
  split; [reflexivity |].
  exists ["/login"]. split; [reflexivity | apply list_elem_of_here].
Defined.




(** X12. The paths the grouper files under some group are exactly the keys
    of [paths] that have an operation under one of the seven methods: a path
    item with other keys only is in no group. *)
Theorem grouper_covers_the_paths_with_operations h openApi groups path :
  Full.extractGroupPaths h openApi = Ok groups ->
  (exists group, Full.in_bucket groups group path)
  <-> path ∈ keys h (get h openApi "paths") /\
      exists method, method ∈ HTTP_METHODS /\
        truthy (get h (get h (get h openApi "paths") path) method) = true.
Proof.
  intros Hgroups. split.
  - intros (g & Hin).
    apply (ScanResults.group_paths_exact _ _ _ _ _ Hgroups) in Hin
      as (method & Hin). cbv zeta in Hin.
    destruct Hin as (Hpath & Hmethod & Htruthy & _). eauto.
  - intros (Hpath & method & Hmethod & Htruthy).
    destruct (ScanTotal.group_names_nonempty h
                (get h (get h (get h (get h openApi "paths") path) method) "tags"))
      as (g & Hg).
    exists g. apply (ScanResults.group_paths_exact _ _ _ _ _ Hgroups).
    exists method. cbv zeta. auto.
Qed.

Lemma grouper_covers_the_paths_with_operations_witness :
  exists groups,
    Full.extractGroupPaths doc_login_empty_tags (VRef 0) = Ok groups
    /\ ((exists group, Full.in_bucket groups group "/login")
        <-> "/login" ∈ keys doc_login_empty_tags
                          (get doc_login_empty_tags (VRef 0) "paths") /\
            exists method, method ∈ HTTP_METHODS /\
              truthy (get doc_login_empty_tags
                        (get doc_login_empty_tags
                           (get doc_login_empty_tags (VRef 0) "paths") "/login")
                        method) = true).
Proof.
  eexists. split; [vm_compute; reflexivity |].
  apply (grouper_covers_the_paths_with_operations doc_login_empty_tags
           (VRef 0) _ "/login" eq_refl).
Defined.

(** ** The scanners of the simple generator *)

Module SimpleScanFacts.
Import Full ScanFacts ScanExtras ScanTotal SimpleScan.

(** A loop whose every run adds what [A] says, and nothing else *)

Lemma for_each_union {X S K} (R : S -> K -> Prop) (A : X -> K -> Prop)
  (xs : list X) (body : X -> S -> result S) (st st' : S) :
  (forall x s s', x ∈ xs -> body x s = Ok s' ->
     forall k, R s' k <-> R s k \/ A x k) ->
  for_each xs body st = Ok st' ->
  forall k, R st' k <-> R st k \/ exists x, x ∈ xs /\ A x k.
Proof.
  revert st. induction xs as [| x xs IH]; intros st Hbody; simpl.
  - intros [= <-] k. split; [auto |].
    by intros [? | (x & ?%elem_of_nil & _)].
  - destruct (body x st) as [s1 |] eqn:Hx; [| done]. simpl. intros Hrest k.
    rewrite (IH s1); [| | exact Hrest].
    + rewrite (Hbody x st s1 (list_elem_of_here _ _) Hx k). split.
      * intros [[? | ?] | (y & Hy & ?)]; [auto | |].
        -- right. exists x. split; [apply list_elem_of_here | done].
        -- right. exists y. split; [by apply list_elem_of_further | done].
      * intros [? | (y & Hy & Ha)]; [auto |].
        apply elem_of_cons in Hy as [-> | Hy]; [auto |].
        right. eauto.
    + intros y s s' Hy. apply Hbody. by apply list_elem_of_further.
Qed.

Lemma for_each_operation_union {S K} (R : S -> K -> Prop)
  (A : string -> string -> K -> Prop) h paths
  (body : string -> string -> value -> S -> result S) (st st' : S) :
  (forall path method s s',
     path ∈ keys h paths -> method ∈ HTTP_METHODS ->
     body path method (get h (get h paths path) method) s = Ok s' ->
     forall k, R s' k <-> R s k \/ A path method k) ->
  for_each_operation h paths body st = Ok st' ->
  forall k, R st' k <->
    R st k \/ exists path method,
      path ∈ keys h paths /\ method ∈ HTTP_METHODS /\
      truthy (get h paths path) = true /\ A path method k.
Proof.
  intros Hbody Hloop k. unfold for_each_operation in Hloop.
  set (A' := fun path k => exists method, method ∈ HTTP_METHODS /\
                truthy (get h paths path) = true /\ A path method k).
  assert (Hstep : forall path s s', path ∈ keys h paths ->
            (if negb (truthy (get h paths path)) then Ok s
             else for_each HTTP_METHODS (fun method st0 =>
                    body path method (get h (get h paths path) method) st0) s)
            = Ok s' ->
            forall k, R s' k <-> R s k \/ A' path k).
  { clear Hloop k. intros path s s' Hpath. unfold A'.
    destruct (truthy (get h paths path)) eqn:Ht; cbn [negb].
    - intros Hloop k.
      assert (Hinner : forall method s1 s2, method ∈ HTTP_METHODS ->
                body path method (get h (get h paths path) method) s1 = Ok s2 ->
                forall k, R s2 k <-> R s1 k \/ A path method k)
        by (intros method s1 s2 Hmethod; by apply Hbody).
      rewrite (for_each_union R (A path) _ _ _ _ Hinner Hloop).
      split; (intros [? | Hex]; [auto | right]).
      + destruct Hex as (method & Hmethod & Ha). exists method. auto.
      + destruct Hex as (method & Hmethod & _ & Ha). exists method. auto.
    - intros [= <-] k. split; [auto |].
      by intros [? | (method & _ & ? & _)]. }
  rewrite (for_each_union R A' _ _ _ _ Hstep Hloop). unfold A'.
  split; (intros [? | Hex]; [auto | right]).
  - destruct Hex as (path & Hpath & method & Hmethod & Ht & Ha).
    exists path, method. auto.
  - destruct Hex as (path & method & Hpath & Hmethod & Ht & Ha).
    exists path. split; [done |]. exists method. auto.
Qed.

(** The entries of a mapping of sets, as pairs of a key and a path *)

Lemma keys_falsy h v : truthy v = false -> keys h v = [].
Proof.
  intros Hv. destruct (keys h v) as [| k ks] eqn:Hk; [done |].
  rewrite (keys_truthy h v k) in Hv; [done |]. rewrite Hk.
  apply list_elem_of_here.
Qed.

Lemma get_falsy_receiver h v k : truthy v = false -> truthy (get h v k) = false.
Proof.
  intros Hv. destruct (truthy (get h v k)) eqn:Hg; [| done].
  by rewrite (get_truthy_receiver _ _ _ Hg) in Hv.
Qed.

Lemma found_falsy h schema ts depth doc :
  truthy schema = false -> Simple.found h schema ts depth doc = [].
Proof.
  intros Hs. destruct (Simple.found h schema ts depth doc) as [| f fs] eqn:Hf;
    [done |].
  destruct (SimpleFacts.simple_found_is_ref h schema ts depth doc f) as [Hr _];
    [rewrite Hf; apply list_elem_of_here |].
  by rewrite (is_ref_truthy _ Hr) in Hs.
Qed.

Lemma found_is_discoverable h schema ts doc f :
  f ∈ Simple.found h schema ts 0 doc
  <-> Simple.discoverable h ts doc schema 0 f.
Proof.
  split.
  - apply (SimpleFacts.simple_found_discoverable _ _ _ 11). lia.
  - apply SimpleFacts.simple_discoverable_found.
Qed.

Lemma in_bucket_sorted sets f p :
  in_bucket (sorted_array <$> sets) f p <-> in_bucket sets f p.
Proof.
  unfold in_bucket. rewrite lookup_fmap. split.
  - intros (ps & Hps & Hp). destruct (sets !! f) as [set |]; [| done].
    simpl in Hps. injection Hps as <-.
    rewrite elem_of_sorted_array in Hp. eauto.
  - intros (set & -> & Hp). simpl. eexists; split; [done |].
    by rewrite elem_of_sorted_array.
Qed.

Lemma init_sets_lookup ts f :
  init_sets ts !! f = if decide (f ∈ ts) then Some [] else None.
Proof. unfold init_sets. by rewrite fold_insert_lookup, lookup_empty. Qed.

Lemma init_sets_no_entry ts f p : ~ in_bucket (init_sets ts) f p.
Proof.
  intros (set & Hset & Hp). rewrite init_sets_lookup in Hset.
  case_decide; [| done]. injection Hset as <-. by apply elem_of_nil in Hp.
Qed.

Lemma scanning_init_sets ts : scanning ts (init_sets ts).
Proof.
  split.
  - intros f set. rewrite init_sets_lookup. case_decide; [| done].
    intros [= <-]. apply NoDup_nil_2.
  - intros f. rewrite init_sets_lookup.
    case_decide; split; eauto; try done; by intros [? ?].
Qed.

(** One step *)

Lemma record_path_spec path f sets sets' :
  record_path path f sets = Ok sets' ->
  forall k, entry sets' k <-> entry sets k \/ (k.1 = f /\ k.2 = path).
Proof.
  unfold record_path. destruct (sets !! f) as [set |] eqn:Hset; [| done].
  intros [= <-] [f' p']. unfold entry, in_bucket. simpl.
  destruct (decide (f' = f)) as [-> | Hne].
  - rewrite lookup_insert_eq. split.
    + intros (set' & [= <-] & Hp). apply elem_of_set_add in Hp as [-> | Hp];
        [auto | left; eauto].
    + intros [(set' & Hset' & Hp) | [_ ->]].
      * rewrite Hset in Hset'. injection Hset' as <-.
        eexists. split; [done |]. apply elem_of_set_add. auto.
      * eexists. split; [done |]. apply elem_of_set_add. auto.
  - rewrite lookup_insert_ne by done. split; [auto |].
    by intros [? | [? _]].
Qed.

Lemma record_path_scanning ts path f sets sets' :
  scanning ts sets -> record_path path f sets = Ok sets' -> scanning ts sets'.
Proof.
  intros [Hdup Hkeys]. unfold record_path.
  destruct (sets !! f) as [set |] eqn:Hset; [| done]. intros [= <-]. split.
  - intros f' set'. destruct (decide (f' = f)) as [-> | Hne].
    + rewrite lookup_insert_eq. intros [= <-].
      apply NoDup_set_add. by apply (Hdup f).
    + rewrite lookup_insert_ne by done. apply Hdup.
  - intros f'. rewrite <- Hkeys. destruct (decide (f' = f)) as [-> | Hne].
    + rewrite lookup_insert_eq, Hset. split; eauto.
    + by rewrite lookup_insert_ne.
Qed.

Lemma record_path_ok ts path f sets :
  scanning ts sets -> f ∈ ts ->
  exists sets', record_path path f sets = Ok sets' /\ scanning ts sets'.
Proof.
  intros Hs Hf. destruct (record_path path f sets) as [sets' |] eqn:Hrec.
  - exists sets'. split; [done |]. by eapply record_path_scanning.
  - exfalso. revert Hrec. unfold record_path.
    destruct Hs as [_ Hkeys]. apply Hkeys in Hf as [set ->]. done.
Qed.

(** The blocks *)

Lemma scan_content_spec h ts openApi path content sets sets' :
  scan_content h ts openApi path content sets = Ok sets' ->
  forall k, entry sets' k <->
    entry sets k \/
    exists mediaType, mediaType ∈ keys h content /\
      k.2 = path /\
      k.1 ∈ Simple.found h (get h (get h content mediaType) "schema") ts 0
              openApi.
Proof.
  unfold scan_content. apply for_each_union.
  intros mediaType s s' _. cbv zeta. unfold prop.
  destruct (nullish (get h content mediaType)); [done |]. simpl rbind.
  destruct (truthy (get h (get h content mediaType) "schema")) eqn:Hschema.
  - rewrite (SimpleFacts.find_ok _ _ _ 11) by lia. simpl rbind.
    intros Hloop k.
    rewrite (for_each_union entry (fun f k => k.1 = f /\ k.2 = path)
               _ _ _ _ (fun f s1 s2 _ => record_path_spec path f s1 s2) Hloop).
    split; (intros [? | Hex]; [auto | right]).
    + by destruct Hex as (f & Hf & <- & ?).
    + destruct Hex as [? ?]. eauto.
  - intros [= <-] k. rewrite (found_falsy _ _ _ _ _ Hschema).
    split; [auto |]. by intros [? | (_ & ?%elem_of_nil)].
Qed.


Lemma simple_scan_content_ok h ts openApi path content sets :
  scanning ts sets -> media_present h content = true ->
  exists sets', scan_content h ts openApi path content sets = Ok sets'
                /\ scanning ts sets'.
Proof.
  intros Hs Hmedia. unfold scan_content. apply for_each_ok; [done |].
  intros mediaType s Hin Hs1. cbv zeta. unfold prop.
  rewrite (media_present_spec _ _ _ Hmedia Hin). simpl rbind.
  destruct (truthy (get h (get h content mediaType) "schema")); [| eauto].
  rewrite (SimpleFacts.find_ok _ _ _ 11) by lia. simpl rbind.
  apply for_each_ok; [done |].
  intros f s1 Hf Hs2. apply record_path_ok; [done |].
  apply found_is_discoverable in Hf.
  by eapply SimpleFacts.simple_discoverable_target.
Qed.

Lemma scan_responses_spec h ts openApi path method operation sets sets' :
  scan_responses h ts openApi path method operation sets = Ok sets' ->
  forall k, entry sets' k <->
    entry sets k \/
    exists code mediaType,
      let content :=
        get h (get h (get h operation "responses") code) "content" in
      code ∈ keys h (get h operation "responses") /\
      mediaType ∈ keys h content /\ k.2 = path /\
      k.1 ∈ Simple.found h (get h (get h content mediaType) "schema") ts 0
              openApi.
Proof.
  unfold scan_responses.
  destruct (truthy operation && truthy (get h operation "responses")) eqn:Hop.
  - cbv zeta. intros Hloop k.
    set (A := fun code k => exists mediaType,
      mediaType ∈ keys h
        (get h (get h (get h operation "responses") code) "content") /\
      k.2 = path /\
      k.1 ∈ Simple.found h
              (get h (get h (get h (get h (get h operation "responses") code)
                               "content") mediaType) "schema") ts 0 openApi).
    assert (Hstep : forall code s s',
              code ∈ keys h (get h operation "responses") ->
              (if truthy (get h (get h operation "responses") code)
                  && truthy (get h (get h (get h operation "responses") code)
                               "content")
               then scan_content h ts openApi path
                      (get h (get h (get h operation "responses") code)
                         "content") s
               else Ok s) = Ok s' ->
              forall k, entry s' k <-> entry s k \/ A code k).
    { intros code s s' _. unfold A.
      destruct (truthy (get h (get h operation "responses") code)
                && truthy (get h (get h (get h operation "responses") code)
                             "content")) eqn:Hc.
      - apply scan_content_spec.
      - intros [= <-] k'. split; [auto |]. intros [? | (m & Hm & _)]; [done |].
        apply keys_truthy in Hm. rewrite Hm, andb_true_r in Hc.
        by rewrite (get_truthy_receiver _ _ _ Hm) in Hc. }
    rewrite (for_each_union entry A _ _ _ _ Hstep Hloop). unfold A.
    split; (intros [? | Hex]; [auto | right]).
    + destruct Hex as (code & Hcode & m & Hm & ? & ?). exists code, m. auto.
    + destruct Hex as (code & m & Hcode & Hm & ? & ?). exists code. eauto.
  - intros [= <-] k. split; [auto |].
    intros [? | (code & m & Hcode & _)]; [done |].
    apply keys_truthy in Hcode. rewrite Hcode, andb_true_r in Hop.
    by rewrite (get_truthy_receiver _ _ _ Hcode) in Hop.
Qed.

Lemma scan_request_body_spec h ts openApi path method operation sets sets' :
  scan_request_body h ts openApi path method operation sets = Ok sets' ->
  forall k, entry sets' k <->
    entry sets k \/
    exists mediaType,
      let content := get h (get h operation "requestBody") "content" in
      mediaType ∈ keys h content /\ k.2 = path /\
      k.1 ∈ Simple.found h (get h (get h content mediaType) "schema") ts 0
              openApi.
Proof.
  unfold scan_request_body. cbv zeta.
  destruct (truthy (get h (get h operation "requestBody") "content")) eqn:Hc.
  - rewrite (get_truthy_receiver _ _ _ (get_truthy_receiver _ _ _ Hc)),
      (get_truthy_receiver _ _ _ Hc). cbn [andb].
    apply scan_content_spec.
  - rewrite (keys_falsy _ _ Hc).
    intros Hsame. assert (sets' = sets) as ->.
    { revert Hsame. destruct (_ && _); by intros [= <-]. }
    intros k. split; [auto |]. by intros [? | (m & ?%elem_of_nil & _)].
Qed.



(** The scanners *)

Lemma simple_scan_result h openApi ts r
  (body : string -> string -> value -> gmap string (list string) ->
          result (gmap string (list string))) :
  (let* paths := prop h openApi "paths" in
   if negb (truthy paths) then Ok (init_sets ts)
   else
     let* fieldPaths := for_each_operation h paths body (init_sets ts) in
     Ok (sorted_array <$> fieldPaths)) = Ok r ->
  (truthy (get h openApi "paths") = false /\ r = init_sets ts)
  \/ (exists sets,
        for_each_operation h (get h openApi "paths") body (init_sets ts)
          = Ok sets /\ r = sorted_array <$> sets).
Proof.
  unfold prop. destruct (nullish openApi); [done |]. simpl rbind.
  destruct (truthy (get h openApi "paths")); cbn [negb].
  - destruct (for_each_operation _ _ _ _) as [sets |]; [| done].
    simpl rbind. intros [= <-]. right. eauto.
  - intros [= <-]. auto.
Qed.

Lemma simple_response_scan_exact h openApi ts r f p :
  SimpleScan.extractResponseFieldPaths h openApi ts = Ok r ->
  in_bucket r f p <-> SimpleScan.response_finding h openApi ts f p.
Proof.
  intros Hr. apply simple_scan_result in Hr as [[Hpaths ->] | (sets & Hloop & ->)].
  - split; [by intros ?%init_sets_no_entry |].
    intros (method & code & m & Hpath & _). cbv zeta in Hpath.
    apply keys_truthy in Hpath. by rewrite Hpath in Hpaths.
  - rewrite in_bucket_sorted.
    pose proof (for_each_operation_union entry _ _ _ _ _ _
                  (fun path method s s' _ _ =>
                     scan_responses_spec h ts openApi path method _ s s')
                  Hloop (f, p)) as Hspec.
    unfold entry in Hspec. simpl in Hspec. rewrite Hspec. clear Hspec.
    split.
    + intros [?%init_sets_no_entry | Hex]; [done |].
      destruct Hex as (path & method & Hpath & Hmethod & _ &
                       code & m & Hcode & Hm & -> & Hf).
      exists method, code, m. cbv zeta. split_and!; try done.
      by apply found_is_discoverable.
    + intros (method & code & m & Hfinding). cbv zeta in Hfinding.
      destruct Hfinding as (Hpath & Hmethod & Hcode & Hm & Hf).
      right. exists p, method. split_and!; try done.
      * by eapply get_truthy_receiver, get_truthy_receiver, keys_truthy.
      * exists code, m. split_and!; try done.
        by apply found_is_discoverable.
Qed.

Lemma simple_request_scan_exact h openApi ts r f p :
  SimpleScan.extractRequestFieldPaths h openApi ts = Ok r ->
  in_bucket r f p <-> SimpleScan.request_finding h openApi ts f p.
Proof.
  intros Hr. apply simple_scan_result in Hr as [[Hpaths ->] | (sets & Hloop & ->)].
  - split; [by intros ?%init_sets_no_entry |].
    intros (method & m & Hpath & _). cbv zeta in Hpath.
    apply keys_truthy in Hpath. by rewrite Hpath in Hpaths.
  - rewrite in_bucket_sorted.
    pose proof (for_each_operation_union entry _ _ _ _ _ _
                  (fun path method s s' _ _ =>
                     scan_request_body_spec h ts openApi path method _ s s')
                  Hloop (f, p)) as Hspec.
    unfold entry in Hspec. simpl in Hspec. rewrite Hspec. clear Hspec.
    split.
    + intros [?%init_sets_no_entry | Hex]; [done |].
      destruct Hex as (path & method & Hpath & Hmethod & _ &
                       m & Hm & -> & Hf).
      exists method, m. cbv zeta. split_and!; try done.
      by apply found_is_discoverable.
    + intros (method & m & Hfinding). cbv zeta in Hfinding.
      destruct Hfinding as (Hpath & Hmethod & Hm & Hf).
      right. exists p, method. split_and!; try done.
      * by eapply get_truthy_receiver, get_truthy_receiver,
          get_truthy_receiver, keys_truthy.
      * exists m. split_and!; try done. by apply found_is_discoverable.
Qed.



Lemma simple_response_scan_ok h openApi ts :
  nullish openApi = false -> response_media_present h openApi = true ->
  exists r, SimpleScan.extractResponseFieldPaths h openApi ts = Ok r.
Proof.
  intros Hdoc Hmedia. unfold SimpleScan.extractResponseFieldPaths, prop.
  cbv zeta. rewrite Hdoc. simpl rbind.
  destruct (truthy (get h openApi "paths")); cbn [negb]; [| eauto].
  destruct (for_each_operation_ok (scanning ts) h (get h openApi "paths")
              (scan_responses h ts openApi) (init_sets ts))
    as (sets & -> & _); [apply scanning_init_sets | | simpl; eauto].
  intros path method s Hpath Hmethod Hs. unfold scan_responses.
  destruct (truthy _ && truthy _); [| eauto]. cbv zeta.
  apply for_each_ok; [done |].
  intros code s1 Hcode Hs1. cbv zeta.
  destruct (truthy _ && truthy _); [| eauto].
  apply simple_scan_content_ok; [done |].
  pose proof (proj1 (all_operations_spec _ _ _) Hmedia path method
                Hpath Hmethod) as Hop.
  cbv zeta in Hop. rewrite forallb_forall in Hop.
  by apply Hop, list_elem_of_In.
Qed.

Lemma simple_request_scan_ok h openApi ts :
  nullish openApi = false -> request_media_present h openApi = true ->
  exists r, SimpleScan.extractRequestFieldPaths h openApi ts = Ok r.
Proof.
  intros Hdoc Hmedia. unfold SimpleScan.extractRequestFieldPaths, prop.
  cbv zeta. rewrite Hdoc. simpl rbind.
  destruct (truthy (get h openApi "paths")); cbn [negb]; [| eauto].
  destruct (for_each_operation_ok (scanning ts) h (get h openApi "paths")
              (scan_request_body h ts openApi) (init_sets ts))
    as (sets & -> & _); [apply scanning_init_sets | | simpl; eauto].
  intros path method s Hpath Hmethod Hs. unfold scan_request_body.
  destruct (truthy _ && truthy _); [| eauto]. cbv zeta.
  destruct (truthy (get h (get h _ "requestBody") "content")); [| eauto].
  apply simple_scan_content_ok; [done |].
  exact (proj1 (all_operations_spec _ _ _) Hmedia path method Hpath Hmethod).
Qed.

End SimpleScanFacts.

(** X13. What the scanners of the simple generator return holds exactly
    the findings: a path is in the list of a field if and only if some
    operation at that path, under one of the seven methods, has a response
    (for the request scanner: a request body) with a media type whose schema
    leads to the field by the rules of this finder, references resolved in
    the scanned document. *)
Theorem simple_scanners_list_exactly_the_findings
  h openApi targetFields r field path :
  (SimpleScan.extractResponseFieldPaths h openApi targetFields = Ok r ->
   Full.in_bucket r field path
   <-> SimpleScan.response_finding h openApi targetFields field path)
  /\ (SimpleScan.extractRequestFieldPaths h openApi targetFields = Ok r ->
      Full.in_bucket r field path
      <-> SimpleScan.request_finding h openApi targetFields field path).
Proof.
  split; intros Hr.
  - by apply SimpleScanFacts.simple_response_scan_exact.
  - by apply SimpleScanFacts.simple_request_scan_exact.
Qed.

Lemma simple_scanners_list_exactly_the_findings_witness :
  exists r,
    SimpleScan.extractResponseFieldPaths doc_me (VRef 0) ["email"; "id"] = Ok r
    /\ r !! "email" = Some ["/me"]
    /\ SimpleScan.response_finding doc_me (VRef 0) ["email"; "id"] "email" "/me".
Proof.
  eexists. split; [vm_compute; reflexivity |]. split; [reflexivity |].
  eapply (simple_scanners_list_exactly_the_findings doc_me (VRef 0)
            ["email"; "id"] _ "email" "/me"); [vm_compute; reflexivity |].
  exists ["/me"]. split; [reflexivity | apply list_elem_of_here].
Defined.



(** X15. The scanners of the simple generator never read [tags]: they
    return, without an exception, on every document that is not [null] or
    [undefined] and whose [content] objects hold no [null] or [undefined]
    media type, whatever the tags are. *)
Theorem simple_scanners_return_whatever_the_tags h openApi targetFields :
  nullish openApi = false ->
  (response_media_present h openApi = true ->
   exists r, SimpleScan.extractResponseFieldPaths h openApi targetFields = Ok r)
  /\ (request_media_present h openApi = true ->
      exists r, SimpleScan.extractRequestFieldPaths h openApi targetFields = Ok r).
Proof.
  intros Hdoc. split; intros Hmedia.
  - by apply SimpleScanFacts.simple_response_scan_ok.
  - by apply SimpleScanFacts.simple_request_scan_ok.
Qed.

Lemma simple_scanners_return_whatever_the_tags_witness :
  (exists r, SimpleScan.extractResponseFieldPaths doc_me (VRef 0)
               ["email"; "id"] = Ok r)
  /\ (exists r, SimpleScan.extractRequestFieldPaths doc_me (VRef 0)
                  ["email"; "id"] = Ok r).
Proof.
  destruct (simple_scanners_return_whatever_the_tags doc_me (VRef 0)
              ["email"; "id"] eq_refl) as [Hresponse Hrequest].
  split; [apply Hresponse | apply Hrequest]; reflexivity.
Defined.

(** ** The common prefix *)

Module PrefixFacts.

Lemma take_segment_spec s r :
  take_segment s = r <->
  slash_free r = true /\
  exists rest, s = r +:+ rest /\
    (rest = EmptyString \/ exists rest', rest = String "/"%char rest').
Proof.
  revert r. induction s as [| c s IH]; intros r; simpl.
  - split.
    + intros <-. split; [done |]. exists EmptyString. auto.
    + intros (_ & rest & Hs & _). by destruct r.
  - destruct (Ascii.eqb c "/"%char) eqn:Hc.
    + apply Ascii.eqb_eq in Hc as ->. split.
      * intros <-. split; [done |]. exists (String "/"%char s). eauto.
      * intros (Hfree & rest & Hs & _). destruct r as [| c' r]; [done |].
        change (String "/"%char s = String c' (r +:+ rest)) in Hs.
        injection Hs as <- _. simpl in Hfree.
        by rewrite ?Ascii.eqb_refl in Hfree.
    + split.
      * intros <-. simpl. rewrite Hc. simpl.
        destruct (proj1 (IH (take_segment s)) eq_refl) as (Hfree & rest & Hs & Hr).
        split; [done |]. exists rest. split; [| done].
        change (String c s = String c (take_segment s +:+ rest)).
        f_equal. exact Hs.
      * intros (Hfree & rest & Hs & Hr). destruct r as [| c' r].
        -- change (String c s = rest) in Hs.
           destruct Hr as [-> | (rest' & ->)]; [done |].
           injection Hs as -> _. by rewrite Ascii.eqb_refl in Hc.
        -- change (String c s = String c' (r +:+ rest)) in Hs.
           injection Hs as <- Hs. f_equal. apply IH.
           simpl in Hfree. apply andb_true_iff in Hfree as [_ Hfree]. eauto.
Qed.

Lemma first_segment_spec path r :
  r <> EmptyString ->
  first_segment path = r <-> slash_free r = true /\ starts_with_segment r path.
Proof.
  intros Hr. unfold first_segment, starts_with_segment.
  destruct path as [| c rest].
  - split; [by intros <- |]. by intros (_ & rest & ? & _).
  - destruct (Ascii.eqb c "/"%char) eqn:Hc.
    + apply Ascii.eqb_eq in Hc as ->. rewrite take_segment_spec. split.
      * intros (Hfree & rest' & -> & Hrest). eauto.
      * intros (Hfree & rest' & [= ->] & Hrest). eauto.
    + split; [by intros <- |].
      intros (_ & rest' & [= -> _] & _). by rewrite Ascii.eqb_refl in Hc.
Qed.

Lemma dedup_all_equal (xs : list string) (r : string) :
  dedup xs = [r] <-> xs <> [] /\ forall x, x ∈ xs -> x = r.
Proof.
  split.
  - intros Hd. split.
    + by intros ->.
    + intros x Hx. apply elem_of_dedup in Hx. rewrite Hd in Hx.
      by apply list_elem_of_singleton in Hx.
  - intros [Hne Hall].
    assert (Hin : forall x, x ∈ dedup xs -> x = r)
      by (intros x Hx; by apply Hall, elem_of_dedup).
    pose proof (NoDup_dedup xs) as Hnd.
    destruct (dedup xs) as [| y ys] eqn:Hd.
    + destruct xs as [| x xs]; [done |].
      assert (Hx : x ∈ dedup (x :: xs)) by (apply elem_of_dedup, list_elem_of_here).
      rewrite Hd in Hx. by apply elem_of_nil in Hx.
    + rewrite (Hin y) by apply list_elem_of_here.
      destruct ys as [| z zs]; [done |].
      apply NoDup_cons in Hnd as [Hy _]. exfalso. apply Hy.
      rewrite (Hin y), <- (Hin z); [apply list_elem_of_here | | ].
      * apply list_elem_of_further, list_elem_of_here.
      * apply list_elem_of_here.
Qed.

Lemma common_prefix_segments paths r :
  r <> EmptyString ->
  findCommonPrefix paths = r <->
  paths <> [] /\ forall p, p ∈ paths -> first_segment p = r.
Proof.
  intros Hr. unfold findCommonPrefix. destruct paths as [| p ps].
  - simpl. split; [by intros <- | by intros [? _]].
  - cbn [length Nat.eqb]. cbv zeta. split.
    + intros Hfound. split; [done |].
      assert (Hd : dedup (map first_segment (p :: ps)) = [r]).
      { destruct (dedup (map first_segment (p :: ps))) as [| s [| s' ss]];
          try by subst r.
        destruct (truthy (VStr s)); [by subst s | by subst r]. }
      apply dedup_all_equal in Hd as [_ Hall].
      intros q Hq. apply Hall, list_elem_of_fmap. eauto.
    + intros [_ Hall].
      assert (Hd : dedup (map first_segment (p :: ps)) = [r]).
      { apply dedup_all_equal. split; [done |].
        intros s (q & -> & Hq)%list_elem_of_fmap. by apply Hall. }
      rewrite Hd. by destruct r.
Qed.

End PrefixFacts.

(** X16. [findCommonPrefix] returns a non-empty prefix exactly when the
    list has a path and every path is a slash, then that prefix, then
    nothing or a slash and more; the prefix holds no slash.  In every other
    case it returns the empty string. *)
Theorem common_prefix_is_the_shared_first_segment paths prefix :
  prefix <> EmptyString ->
  findCommonPrefix paths = prefix <->
  paths <> [] /\ slash_free prefix = true /\
  forall path, path ∈ paths -> starts_with_segment prefix path.
Proof.
  intros Hprefix. rewrite (PrefixFacts.common_prefix_segments _ _ Hprefix).
  split.
  - intros [Hne Hall]. split; [done |].
    destruct paths as [| p ps]; [done |]. split.
    + by apply (PrefixFacts.first_segment_spec p prefix Hprefix), Hall,
        list_elem_of_here.
    + intros path Hpath.
      by apply (PrefixFacts.first_segment_spec path prefix Hprefix), Hall.
  - intros (Hne & Hfree & Hall). split; [done |].
    intros p Hp. apply PrefixFacts.first_segment_spec; auto.
Qed.

Lemma common_prefix_is_the_shared_first_segment_witness :
  findCommonPrefix ["/user/login"; "/user"; "/user/{id}/posts"] = "user"
  /\ starts_with_segment "user" "/user/{id}/posts".
Proof.
  destruct (common_prefix_is_the_shared_first_segment
              ["/user/login"; "/user"; "/user/{id}/posts"] "user")
    as [Hshape _]; [done |].
  destruct (Hshape eq_refl) as (_ & _ & Hall).
  split; [reflexivity |].
  apply Hall. apply list_elem_of_further, list_elem_of_further, list_elem_of_here.
Defined.

(** X17. The common prefix depends on which paths are in the list only,
    not on their order or on repetitions. *)
Theorem common_prefix_depends_on_members_only paths paths' :
  (forall path, path ∈ paths <-> path ∈ paths') ->
  findCommonPrefix paths = findCommonPrefix paths'.
Proof.
  intros Hsame.
  assert (Hne : paths <> [] <-> paths' <> []).
  { destruct paths as [| p ps], paths' as [| p' ps']; try done.
    - exfalso. eapply elem_of_nil, Hsame, list_elem_of_here.
    - exfalso. eapply elem_of_nil, Hsame, list_elem_of_here. }
  assert (Hto : forall ps qs r, (forall p, p ∈ ps <-> p ∈ qs) ->
            (ps <> [] <-> qs <> []) -> r <> EmptyString ->
            findCommonPrefix ps = r -> findCommonPrefix qs = r).
  { intros ps qs r Hmem Hnil Hr.
    rewrite !(PrefixFacts.common_prefix_segments _ _ Hr).
    intros [Hps Hall]. split; [by apply Hnil |].
    intros p Hp. by apply Hall, Hmem. }
  destruct (decide (findCommonPrefix paths = EmptyString)) as [He | Hr].
  - destruct (decide (findCommonPrefix paths' = EmptyString)) as [He' | Hr'];
      [by rewrite He, He' |].
    rewrite (Hto paths' paths _ (fun p => iff_sym (Hsame p)) (iff_sym Hne)
               Hr' eq_refl). done.
  - symmetry. by apply (Hto paths paths').
Qed.

Lemma common_prefix_depends_on_members_only_witness :
  findCommonPrefix ["/a/x"; "/a/y"; "/a/x"] = findCommonPrefix ["/a/y"; "/a/x"].
Proof.
  apply (common_prefix_depends_on_members_only
           ["/a/x"; "/a/y"; "/a/x"] ["/a/y"; "/a/x"]).
  intros path. rewrite !elem_of_cons, !elem_of_nil. tauto.
Defined.

(** ** The finder before the depth bound *)

Module UnboundedFacts.
Import Unbounded.

Lemma collect_Some {X} (xs : list X) body fs :
  collect xs body = Some fs ->
  (forall x, x ∈ xs -> is_Some (body x)) /\
  (forall f, f ∈ fs <-> exists x fs', x ∈ xs /\ body x = Some fs' /\ f ∈ fs').
Proof.
  revert fs. induction xs as [| x xs IH]; intros fs; simpl.
  - intros [= <-]. split; [by intros x ?%elem_of_nil |].
    intros f. split; [by intros ?%elem_of_nil |].
    by intros (x & _ & ?%elem_of_nil & _).
  - destruct (body x) as [pushed |] eqn:Hx; [| done].
    destruct (collect xs body) as [rest |]; [| done]. intros [= <-].
    destruct (IH rest eq_refl) as [Hall Hmem]. split.
    + intros y [-> | Hy]%elem_of_cons; [by rewrite Hx | auto].
    + intros f. rewrite elem_of_app, Hmem. split.
      * intros [Hf | (y & fs' & Hy & Hb & Hf)].
        -- exists x, pushed. split_and!; [apply list_elem_of_here | done | done].
        -- exists y, fs'. split_and!; [by apply list_elem_of_further | done | done].
      * intros (y & fs' & [-> | Hy]%elem_of_cons & Hb & Hf).
        -- left. rewrite Hx in Hb. by injection Hb as <-.
        -- right. eauto.
Qed.

Lemma collect_ext {X} (xs : list X) body body' fs :
  (forall x fs', x ∈ xs -> body x = Some fs' -> body' x = Some fs') ->
  collect xs body = Some fs -> collect xs body' = Some fs.
Proof.
  revert fs. induction xs as [| x xs IH]; intros fs Hext; simpl; [done |].
  destruct (body x) as [pushed |] eqn:Hx; [| done].
  rewrite (Hext x pushed (list_elem_of_here _ _) Hx).
  destruct (collect xs body) as [rest |]; [| done].
  rewrite (IH rest); [done | | done].
  intros y fs' Hy. apply Hext. by apply list_elem_of_further.
Qed.

Lemma collect_is_Some {X} (xs : list X) body :
  (forall x, x ∈ xs -> is_Some (body x)) -> is_Some (collect xs body).
Proof.
  induction xs as [| x xs IH]; intros Hall; simpl; [eauto |].
  destruct (Hall x) as [pushed ->]; [apply list_elem_of_here |].
  destruct IH as [rest ->]; [| eauto].
  intros y Hy. by apply Hall, list_elem_of_further.
Qed.

Lemma scan_node_ext again again' h schema ts fs :
  (forall s fs', again s = Some fs' -> again' s = Some fs') ->
  scan_node again h schema ts = Some fs ->
  scan_node again' h schema ts = Some fs.
Proof.
  intros Hext. unfold scan_node. cbv zeta.
  set (direct := concat _).
  assert (H1 : forall r,
    collect (keys h (get h schema "properties"))
      (fun prop => again (get h (get h schema "properties") prop)) = Some r ->
    collect (keys h (get h schema "properties"))
      (fun prop => again' (get h (get h schema "properties") prop)) = Some r).
  { intros r. apply collect_ext. intros x fs' _. apply Hext. }
  assert (H3 : forall r,
    collect ["allOf"; "oneOf"; "anyOf"] (fun key =>
      if truthy (get h schema key) && is_array h (get h schema key)
      then collect (elems_of h (get h schema key)) again else Some []) = Some r ->
    collect ["allOf"; "oneOf"; "anyOf"] (fun key =>
      if truthy (get h schema key) && is_array h (get h schema key)
      then collect (elems_of h (get h schema key)) again' else Some []) = Some r).
  { intros r. apply collect_ext. intros key fs' _.
    destruct (truthy (get h schema key) && is_array h (get h schema key));
      [| done].
    apply collect_ext. intros s fs'' _. apply Hext. }
  destruct (truthy (get h schema "properties")
            && typeof_object (get h schema "properties")).
  - destruct (collect (keys h (get h schema "properties")) _)
      as [nested |] eqn:Hnested; [| done].
    rewrite (H1 _ eq_refl).
    destruct (truthy (get h schema "items")).
    + destruct (again (get h schema "items")) as [f2 |] eqn:Hitems; [| done].
      rewrite (Hext _ _ Hitems).
      destruct (collect ["allOf"; "oneOf"; "anyOf"] _) as [f3 |] eqn:Hc;
        [| done].
      by rewrite (H3 _ eq_refl).
    + destruct (collect ["allOf"; "oneOf"; "anyOf"] _) as [f3 |] eqn:Hc;
        [| done].
      by rewrite (H3 _ eq_refl).
  - destruct (truthy (get h schema "items")).
    + destruct (again (get h schema "items")) as [f2 |] eqn:Hitems; [| done].
      rewrite (Hext _ _ Hitems).
      destruct (collect ["allOf"; "oneOf"; "anyOf"] _) as [f3 |] eqn:Hc;
        [| done].
      by rewrite (H3 _ eq_refl).
    + destruct (collect ["allOf"; "oneOf"; "anyOf"] _) as [f3 |] eqn:Hc;
        [| done].
      by rewrite (H3 _ eq_refl).
Qed.

(** More fuel changes nothing once the finder has returned. *)
Lemma find_more_fuel h ts n :
  forall m schema fs, n <= m ->
  findFieldsInSchema n h schema ts = Some fs ->
  findFieldsInSchema m h schema ts = Some fs.
Proof.
  induction n as [| n IH]; intros m schema fs Hm; [done |].
  destruct m as [| m]; [lia |]. simpl.
  destruct (negb (truthy schema) || negb (typeof_object schema)); [done |].
  apply scan_node_ext. intros s fs'. apply IH. lia.
Qed.

Lemma elem_of_sub_schemas h schema c :
  c ∈ sub_schemas h schema <->
  is_ref schema = true /\
  ((is_ref (get h schema "properties") = true /\
    exists name, name ∈ keys h (get h schema "properties") /\
      c = get h (get h schema "properties") name)
   \/ (truthy (get h schema "items") = true /\ c = get h schema "items")
   \/ (exists key, key ∈ ["allOf"; "oneOf"; "anyOf"] /\
         is_array h (get h schema key) = true /\
         c ∈ elems_of h (get h schema key))).
Proof.
  unfold sub_schemas. rewrite guard_is_ref. cbv zeta.
  destruct (is_ref schema); cbn [negb].
  2: { split; [by intros ?%elem_of_nil | by intros [? _]]. }
  rewrite !elem_of_app, object_test_is_ref. split.
  - intros [Hp | [Hi | Hc]]; (split; [done |]).
    + destruct (is_ref (get h schema "properties")); [| by apply elem_of_nil in Hp].
      left. split; [done |].
      apply list_elem_of_fmap in Hp as (name & -> & Hname). eauto.
    + destruct (truthy (get h schema "items")); [| by apply elem_of_nil in Hi].
      apply list_elem_of_singleton in Hi. auto.
    + right. right.
      apply ConsoleFacts.elem_of_concat_map_gen in Hc as (key & Hkey & Hc).
      destruct (truthy (get h schema key) && is_array h (get h schema key))
        eqn:Hk; [| by apply elem_of_nil in Hc].
      apply andb_true_iff in Hk as [_ Hk]. eauto.
  - intros [_ [(Hp & name & Hname & ->) | [(Hi & ->) | (key & Hkey & Ha & Hc)]]].
    + left. rewrite Hp. apply list_elem_of_fmap. eauto.
    + right. left. rewrite Hi. apply list_elem_of_here.
    + right. right. apply ConsoleFacts.elem_of_concat_map_gen.
      exists key. split; [done |].
      by rewrite Ha, (is_array_truthy _ _ Ha).
Qed.

Lemma scan_node_Some again h schema ts fs :
  is_ref schema = true ->
  scan_node again h schema ts = Some fs ->
  (forall c, c ∈ sub_schemas h schema -> is_Some (again c)) /\
  (forall f, f ∈ fs ->
     (is_ref (get h schema "properties") = true /\ f ∈ ts /\
      has_key h (get h schema "properties") f = true)
     \/ exists c fs', c ∈ sub_schemas h schema /\ again c = Some fs' /\ f ∈ fs').
Proof.
  intros Href. unfold scan_node. cbv zeta. rewrite object_test_is_ref.
  destruct (if is_ref (get h schema "properties") then _ else Some [])
    as [f1 |] eqn:H1; [| done].
  destruct (if truthy (get h schema "items") then _ else Some [])
    as [f2 |] eqn:H2; [| done].
  destruct (collect ["allOf"; "oneOf"; "anyOf"] _) as [f3 |] eqn:H3; [| done].
  intros [= <-].
  apply collect_Some in H3 as [Hall3 Hmem3].
  assert (Hprops : is_ref (get h schema "properties") = true ->
            exists nested,
              collect (keys h (get h schema "properties"))
                (fun prop => again (get h (get h schema "properties") prop))
              = Some nested /\
              f1 = concat (map (fun field =>
                     if has_key h (get h schema "properties") field
                     then [field] else []) ts) ++ nested).
  { intros Hp. rewrite Hp in H1.
    destruct (collect (keys h (get h schema "properties")) _) as [nested |];
      [| done].
    injection H1 as <-. eauto. }
  split.
  - intros c Hsub.
    destruct (proj1 (elem_of_sub_schemas _ _ _) Hsub)
      as [_ [(Hp & name & Hname & ->) | [(Hi & ->) | (key & Hkey & Ha & Hc)]]].
    + destruct (Hprops Hp) as (nested & [Hall _]%collect_Some & _).
      by apply Hall.
    + rewrite Hi in H2. by rewrite H2.
    + specialize (Hall3 key Hkey). cbv beta in Hall3.
      rewrite Ha, (is_array_truthy _ _ Ha) in Hall3. cbn [andb] in Hall3.
      destruct Hall3 as [r [Hall _]%collect_Some]. by apply Hall.
  - intros f Hf. rewrite elem_of_dedup, !elem_of_app in Hf. destruct Hf as [Hf | [Hf | Hf]].
    + destruct (is_ref (get h schema "properties")) eqn:Hp;
        [| injection H1 as <-; by apply elem_of_nil in Hf].
      destruct (Hprops eq_refl) as (nested & Hnested & ->).
      apply elem_of_app in Hf as [Hf | Hf].
      * left. rewrite elem_of_direct_keys in Hf. destruct Hf. auto.
      * right. apply collect_Some in Hnested as [_ Hmem].
        destruct (proj1 (Hmem _) Hf) as (name & fs' & Hname & Hagain & Hf').
        exists (get h (get h schema "properties") name), fs'.
        split_and!; [| done | done].
        apply elem_of_sub_schemas. split; [done |]. left. eauto.
    + destruct (truthy (get h schema "items")) eqn:Hi;
        [| injection H2 as <-; by apply elem_of_nil in Hf].
      right. exists (get h schema "items"), f2. split_and!; [| done | done].
      apply elem_of_sub_schemas. split; [done |]. auto.
    + destruct (proj1 (Hmem3 _) Hf) as (key & fs' & Hkey & Hbody & Hf').
      destruct (truthy (get h schema key) && is_array h (get h schema key))
        eqn:Hk; [| injection Hbody as <-; by apply elem_of_nil in Hf'].
      apply andb_true_iff in Hk as [_ Ha].
      apply collect_Some in Hbody as [_ Hmem].
      destruct (proj1 (Hmem _) Hf') as (member & fs'' & Hmember & Hagain & Hf'').
      right. exists member, fs''. split_and!; [| done | done].
      apply elem_of_sub_schemas. split; [done |]. right. right. eauto.
Qed.

Lemma scan_node_is_Some again h schema ts :
  (forall c, c ∈ sub_schemas h schema -> is_Some (again c)) ->
  is_ref schema = true ->
  is_Some (scan_node again h schema ts).
Proof.
  intros Hall Href.
  assert (Hsub : forall c, _ -> is_Some (again c))
    by (intros c Hc; apply Hall, elem_of_sub_schemas; split; [exact Href | exact Hc]).
  unfold scan_node. cbv zeta. rewrite object_test_is_ref.
  assert (H1 : is_Some
            (if is_ref (get h schema "properties") then
               match collect (keys h (get h schema "properties"))
                       (fun prop => again (get h (get h schema "properties") prop))
               with
               | None => None
               | Some nested =>
                   Some (concat (map (fun field =>
                     if has_key h (get h schema "properties") field
                     then [field] else []) ts) ++ nested)
               end
             else Some [])).
  { destruct (is_ref (get h schema "properties")) eqn:Hp; [| eauto].
    destruct (collect_is_Some (keys h (get h schema "properties"))
                (fun prop => again (get h (get h schema "properties") prop)))
      as [nested ->]; [| eauto].
    intros name Hname. apply Hsub. left. eauto. }
  destruct H1 as [f1 ->].
  assert (H2 : is_Some (if truthy (get h schema "items")
                        then again (get h schema "items") else Some [])).
  { destruct (truthy (get h schema "items")) eqn:Hi; [| eauto].
    apply Hsub. auto. }
  destruct H2 as [f2 ->].
  destruct (collect_is_Some ["allOf"; "oneOf"; "anyOf"] (fun key =>
              if truthy (get h schema key) && is_array h (get h schema key)
              then collect (elems_of h (get h schema key)) again
              else Some [])) as [f3 ->]; [| eauto].
  intros key Hkey. cbv beta.
  destruct (truthy (get h schema key) && is_array h (get h schema key)) eqn:Hk;
    [| eauto].
  apply andb_true_iff in Hk as [_ Ha].
  apply collect_is_Some. intros member Hmember. apply Hsub.
  right. right. eauto.
Qed.

Lemma find_Some_step h ts n schema fs :
  findFieldsInSchema (S n) h schema ts = Some fs ->
  (is_ref schema = false /\ fs = [])
  \/ (is_ref schema = true /\
      scan_node (fun s => findFieldsInSchema n h s ts) h schema ts = Some fs).
Proof.
  simpl. rewrite guard_is_ref. destruct (is_ref schema); cbn [negb]; [auto |].
  intros [= <-]. auto.
Qed.

(** A schema on a cycle *)

Lemma find_on_cycle h ts n :
  forall schema, tc (contains h) schema schema ->
  findFieldsInSchema n h schema ts = None.
Proof.
  induction n as [| n IH]; intros schema Hcycle; [done |].
  assert (exists c, contains h schema c /\ tc (contains h) c c)
    as (c & Hc & Hcc).
  { inversion Hcycle as [x y Hstep | x y z Hstep Hrest]; subst.
    - exists schema. split; [done | by apply tc_once].
    - exists y. split; [done |].
      eapply tc_rtc_r; [exact Hrest |]. by apply rtc_once. }
  destruct (findFieldsInSchema (S n) h schema ts) as [fs |] eqn:Hfs; [| done].
  apply find_Some_step in Hfs as [[Href _] | [Href Hscan]].
  - destruct (proj1 (elem_of_sub_schemas _ _ _) Hc) as [Hr _].
    by rewrite Hr in Href.
  - apply scan_node_Some in Hscan as [Hall _]; [| done].
    destruct (Hall c Hc) as [fs' Hfs']. by rewrite (IH c Hcc) in Hfs'.
Qed.

(** A schema without endless descent *)

Lemma uniform_fuel h ts (cs : list value) :
  (forall c, c ∈ cs -> exists n, is_Some (findFieldsInSchema n h c ts)) ->
  exists n, forall c, c ∈ cs -> is_Some (findFieldsInSchema n h c ts).
Proof.
  induction cs as [| c cs IH]; intros Hall.
  - exists 0. by intros c ?%elem_of_nil.
  - destruct (Hall c) as [n1 [fs1 H1]]; [apply list_elem_of_here |].
    destruct IH as [n2 H2];
      [intros c' Hc'; by apply Hall, list_elem_of_further |].
    exists (n1 `max` n2). intros c' [-> | Hc']%elem_of_cons.
    + exists fs1. eapply find_more_fuel; [| exact H1]. lia.
    + destruct (H2 c' Hc') as [fs2 Hfs2]. exists fs2.
      eapply find_more_fuel; [| exact Hfs2]. lia.
Qed.

Lemma find_well_founded h ts schema :
  Acc (flip (contains h)) schema ->
  exists n, is_Some (findFieldsInSchema n h schema ts).
Proof.
  induction 1 as [schema _ IH].
  destruct (uniform_fuel h ts (sub_schemas h schema)) as [n Hn];
    [intros c Hc; by apply IH |].
  exists (S n). simpl. rewrite guard_is_ref.
  destruct (is_ref schema) eqn:Href; cbn [negb]; [| eauto].
  by apply scan_node_is_Some.
Qed.

(** Within the bound of the later finders *)

Lemma find_within_full h ts n :
  forall schema depth fs f, n + depth <= 11 ->
  findFieldsInSchema n h schema ts = Some fs -> f ∈ fs ->
  discoverable h ts schema depth f.
Proof.
  induction n as [| n IH]; intros schema depth fs f Hn Hfs Hf; [done |].
  apply find_Some_step in Hfs as [[_ ->] | [Href Hscan]];
    [by apply elem_of_nil in Hf |].
  apply scan_node_Some in Hscan as [_ Hmem]; [| done].
  destruct (Hmem f Hf) as [(Hp & Hts & Hkey) | (c & fs' & Hc & Hfs' & Hf')].
  - apply rule1_direct_key; auto. lia.
  - assert (Hsub : discoverable h ts c (S depth) f)
      by (eapply IH; [| exact Hfs' | exact Hf']; lia).
    destruct (proj1 (elem_of_sub_schemas _ _ _) Hc)
      as [_ [(Hp & name & Hname & ->) | [(Hi & ->) | (key & Hkey & Ha & Hc')]]].
    + eapply rule2_in_property; eauto. lia.
    + apply rule3_in_items; auto. lia.
    + eapply rule7_in_composition; eauto. lia.
Qed.

Lemma find_within_simple h ts doc n :
  forall schema depth fs f, n + depth <= 11 ->
  findFieldsInSchema n h schema ts = Some fs -> f ∈ fs ->
  Simple.discoverable h ts doc schema depth f.
Proof.
  induction n as [| n IH]; intros schema depth fs f Hn Hfs Hf; [done |].
  apply find_Some_step in Hfs as [[_ ->] | [Href Hscan]];
    [by apply elem_of_nil in Hf |].
  apply scan_node_Some in Hscan as [_ Hmem]; [| done].
  destruct (Hmem f Hf) as [(Hp & Hts & Hkey) | (c & fs' & Hc & Hfs' & Hf')].
  - apply Simple.rule1_direct_key; auto. lia.
  - assert (Hsub : Simple.discoverable h ts doc c (S depth) f)
      by (eapply IH; [| exact Hfs' | exact Hf']; lia).
    destruct (proj1 (elem_of_sub_schemas _ _ _) Hc)
      as [_ [(Hp & name & Hname & ->) | [(Hi & ->) | (key & Hkey & Ha & Hc')]]].
    + eapply Simple.rule2_in_property; eauto. lia.
    + apply Simple.rule3_in_items; auto. lia.
    + eapply Simple.rule7_in_composition; eauto. lia.
Qed.

End UnboundedFacts.

(** X18. The finder of the earlier versions never returns on a schema
    that holds itself, directly or through other schemas, as the schema of a
    property, as [items] or as a member of a composition: however deep its
    calls may nest, one more call is needed. *)
Theorem older_finder_never_returns_on_a_cycle h schema targetFields fuel :
  tc (Unbounded.contains h) schema schema ->
  Unbounded.findFieldsInSchema fuel h schema targetFields = None.
Proof. apply UnboundedFacts.find_on_cycle. Qed.

Lemma older_finder_never_returns_on_a_cycle_witness :
  Unbounded.findFieldsInSchema 1000 self_referential (VRef 0) ["email"] = None
  /\ exists fields,
       Simple.findFieldsInSchema self_referential (VRef 0) ["email"] 0 VUndef
       = Ok fields.
Proof.
  split.
  - apply (older_finder_never_returns_on_a_cycle self_referential (VRef 0)
             ["email"] 1000).
    apply tc_once. unfold Unbounded.contains.
    apply list_elem_of_In. vm_compute. auto.
  - eexists. vm_compute. reflexivity.
Defined.

(** X19. The finder of the earlier versions returns on every schema from
    which no endless chain of contained schemas starts. *)
Theorem older_finder_returns_on_well_founded_schemas h schema targetFields :
  Acc (flip (Unbounded.contains h)) schema ->
  exists fuel fields,
    Unbounded.findFieldsInSchema fuel h schema targetFields = Some fields.
Proof.
  intros Hacc.
  destruct (UnboundedFacts.find_well_founded h targetFields schema Hacc)
    as (n & fs & Hfs).
  eauto.
Qed.

Lemma older_finder_returns_on_well_founded_schemas_witness :
  exists fuel fields,
    Unbounded.findFieldsInSchema fuel nested_schema (VRef 0) ["email"; "id"]
    = Some fields.
Proof.
  apply (older_finder_returns_on_well_founded_schemas nested_schema (VRef 0)
           ["email"; "id"]).
  repeat (constructor; intros ? Hc; unfold flip, Unbounded.contains in Hc;
          apply list_elem_of_In in Hc; vm_compute in Hc;
          repeat (destruct Hc as [<- | Hc]); try destruct Hc).
Defined.

(** X20. When the finder of the earlier versions returns with its calls
    nested no deeper than the later finders go from [depth], every field it
    returns is returned by both later finders started at [depth]: the later
    rules only add to the earlier ones. *)
Theorem older_finder_within_later_finders
  h schema targetFields fuel depth debug ctx doc fields field :
  Unbounded.findFieldsInSchema fuel h schema targetFields = Some fields ->
  fuel + depth <= 11 ->
  field ∈ fields ->
  field ∈ fst (Full.findFieldsInSchema h schema targetFields depth debug ctx)
  /\ field ∈ Simple.found h schema targetFields depth doc.
Proof.
  intros Hfields Hfuel Hfield. split.
  - apply FullFacts.discoverable_found.
    by eapply UnboundedFacts.find_within_full.
  - apply SimpleFacts.simple_discoverable_found.
    by eapply UnboundedFacts.find_within_simple.
Qed.

Lemma older_finder_within_later_finders_witness :
  "id" ∈ fst (Full.findFieldsInSchema nested_schema (VRef 0) ["email"; "id"]
                0 false no_context)
  /\ "id" ∈ Simple.found nested_schema (VRef 0) ["email"; "id"] 0 VUndef.
Proof.
  apply (older_finder_within_later_finders nested_schema (VRef 0)
           ["email"; "id"] 6 0 false no_context VUndef ["email"; "id"] "id").
  - vm_compute. reflexivity.
  - lia.
  - apply list_elem_of_further, list_elem_of_here.
Defined.
